(** * forn8n.js: job store, resilient invoker, session manager and pipeline

    A shallow embedding of [src/forn8n.js], in two layers:

    - the job store ([initStorage], [loadMessages], [saveMessage],
      [getMessage]) as pure functions over the content of the storage file;
    - the code that talks to the outside ([initializeMidjourney], [safeCall],
      the two HTTP handlers and the handler of uncaught exceptions) in a
      small state-and-exception monad over a [world], with the outside (the
      Midjourney client, the clock and the random generator) given as an
      [environment] of oracles.

    What the model covers.  The [messages] object is modelled with the
    order in which JavaScript enumerates own properties and with the
    members it inherits from [Object.prototype], since the code enumerates
    it ([Object.entries]) and reads it by arbitrary keys ([messages[id]]).
    A number of a request is an integer of magnitude below 10^21
    ([plain_number]), the range in which its numeral is plain decimal.  A
    draw of [Math.random()] is a rational, and the product the code makes
    of it is rounded to the nearest double ([binary64]).  A string is the
    sequence of bytes of its UTF-8 encoding.

    What it leaves out.  Numbers with a fractional part or of magnitude
    10^21 and more, request members that are arrays or objects, a storage
    file that holds a JSON value other than [null] or an object of job
    descriptors, a storage medium that cannot be written, and requests
    that run concurrently. *)

From Stdlib Require Import List ZArith QArith Qround Qpower String Ascii.
From Stdlib Require Import Bool Lia Lqa.
From Stdlib Require Import DecimalString Permutation.
Import ListNotations.
Local Open Scope string_scope.
Local Open Scope list_scope.
Local Open Scope Z_scope.

(* ===================================================================== *)
(** ** JavaScript values that the code inspects *)
(* ===================================================================== *)

(** A primitive value read from a JSON request body.  [JNum n] is the
    integer-valued number [n]; [JStr s] is the string whose UTF-8 encoding
    is [s]. *)
Inductive jsval : Type :=
| JUndefined
| JNull
| JBool (b : bool)
| JNum (n : Z)
| JStr (s : string).

(** The numbers the model reads as the code does: [String(n)] is the
    plain decimal numeral of [n] below 10^21 and a numeral with an
    exponent, such as ["1e+21"], from there on.  What is stated of the
    reading of a number is stated of a plain one. *)
Definition plain_number (v : jsval) : Prop :=
  match v with
  | JNum n => Z.abs n < 10 ^ 21
  | _ => True
  end.

(** ToBoolean. *)
Definition truthy (v : jsval) : bool :=
  match v with
  | JUndefined | JNull => false
  | JBool b => b
  | JNum n => negb (n =? 0)
  | JStr s => negb (s =? "")%string
  end.

(** A string-valued property that may be missing: [None] is [undefined]. *)
Definition truthy_str (s : option string) : bool :=
  match s with
  | Some s => negb (s =? "")%string
  | None => false
  end.

Definition is_digit (c : ascii) : bool :=
  let n := N_of_ascii c in ((48 <=? n) && (n <=? 57))%N.

Definition digit_value (c : ascii) : Z := Z.of_N (N_of_ascii c) - 48.

Definition is_hex_digit (c : ascii) : bool :=
  let n := N_of_ascii c in
  (is_digit c || ((65 <=? n) && (n <=? 70)) || ((97 <=? n) && (n <=? 102)))%N.

Definition hex_digit_value (c : ascii) : Z :=
  let n := N_of_ascii c in
  if is_digit c then digit_value c
  else if (n <=? 70)%N then Z.of_N n - 55 else Z.of_N n - 87.

(** StrWhiteSpaceChar, the white space and line terminators that
    [parseInt] skips, by the bytes of the UTF-8 encoding.  One byte: TAB,
    LF, VT, FF, CR and SPACE. *)
Definition is_space (c : ascii) : bool :=
  let n := N_of_ascii c in (((9 <=? n) && (n <=? 13)) || (n =? 32))%N.

(** Two bytes: U+00A0 (C2 A0). *)
Definition is_space2 (c1 c2 : ascii) : bool :=
  ((N_of_ascii c1 =? 194) && (N_of_ascii c2 =? 160))%N.

(** Three bytes: U+1680 (E1 9A 80), U+2000 to U+200A (E2 80 80 to 8A),
    U+2028 and U+2029 (E2 80 A8 and A9), U+202F (E2 80 AF), U+205F
    (E2 81 9F), U+3000 (E3 80 80) and U+FEFF (EF BB BF). *)
Definition is_space3 (c1 c2 c3 : ascii) : bool :=
  let n1 := N_of_ascii c1 in
  let n2 := N_of_ascii c2 in
  let n3 := N_of_ascii c3 in
  (((n1 =? 225) && (n2 =? 154) && (n3 =? 128))
   || ((n1 =? 226) && (n2 =? 128)
       && (((128 <=? n3) && (n3 <=? 138))
           || (n3 =? 168) || (n3 =? 169) || (n3 =? 175)))
   || ((n1 =? 226) && (n2 =? 129) && (n3 =? 159))
   || ((n1 =? 227) && (n2 =? 128) && (n3 =? 128))
   || ((n1 =? 239) && (n2 =? 187) && (n3 =? 191)))%N.

Fixpoint trim_start (s : string) : string :=
  match s with
  | String c1 s1 =>
      if is_space c1 then trim_start s1
      else
        match s1 with
        | String c2 s2 =>
            if is_space2 c1 c2 then trim_start s2
            else
              match s2 with
              | String c3 s3 =>
                  if is_space3 c1 c2 c3 then trim_start s3 else s
              | EmptyString => s
              end
        | EmptyString => s
        end
  | EmptyString => s
  end.

(** The longest prefix of digits of [s] in the given radix, read with
    accumulator [acc]; [seen] tells whether a digit has been read. *)
Fixpoint read_digits (hex : bool) (seen : bool) (acc : Z) (s : string)
  : option Z :=
  match s with
  | String c s' =>
      if hex then
        if is_hex_digit c
        then read_digits hex true (16 * acc + hex_digit_value c) s'
        else if seen then Some acc else None
      else
        if is_digit c
        then read_digits hex true (10 * acc + digit_value c) s'
        else if seen then Some acc else None
  | EmptyString => if seen then Some acc else None
  end.

Definition read_unsigned (s : string) : option Z :=
  match s with
  | String "0" (String "x" s') | String "0" (String "X" s') =>
      read_digits true false 0 s'
  | _ => read_digits false false 0 s
  end.

(** [parseInt(s)] with no radix argument; [None] is [NaN]. *)
Definition parseInt_string (s : string) : option Z :=
  match trim_start s with
  | String "-" s' => option_map Z.opp (read_unsigned s')
  | String "+" s' => read_unsigned s'
  | s' => read_unsigned s'
  end.

(** [parseInt(v)]: the argument is first converted to a string.  The
    numeral of a plain number reads back as that number ([JNum n] stands
    for a number only when [plain_number] holds of it); ["undefined"],
    ["null"], ["true"] and ["false"] start with no digit. *)
Definition parseInt (v : jsval) : option Z :=
  match v with
  | JNum n => Some n
  | JStr s => parseInt_string s
  | JUndefined | JNull | JBool _ => None
  end.

(** [x || d] on a number that may be [NaN]: [NaN] and [0] are falsy. *)
Definition number_or (x : option Z) (d : Z) : Z :=
  match x with
  | Some n => if n =? 0 then d else n
  | None => d
  end.

(** The decimal numeral of an integer, as a template literal prints it. *)
Definition decimal (n : Z) : string := NilZero.string_of_int (Z.to_int n).

(* ===================================================================== *)
(** ** Data model *)
(* ===================================================================== *)

(** One entry of a job's [options] array. *)
Record MJOptions : Type := {
  label : string;
  custom : string
}.

(** A job descriptor as the Midjourney client returns it and as the store
    keeps it.  [uri], [options] and [timestamp] may be missing;
    [attachments] lists the [url] of each attachment (an absent array is
    the empty list). *)
Record MJMessage : Type := {
  id : string;
  flags : Z;
  uri : option string;
  attachments : list (option string);
  options : option (list MJOptions);
  timestamp : option Z
}.

(** [{ ...messageData, timestamp: t }] *)
Definition with_timestamp (messageData : MJMessage) (t : Z) : MJMessage :=
  {| id := id messageData;
     flags := flags messageData;
     uri := uri messageData;
     attachments := attachments messageData;
     options := options messageData;
     timestamp := Some t |}.

(** [m.uri || m.attachments?.[0]?.url] *)
Definition image_url (m : MJMessage) : option string :=
  if truthy_str (uri m) then uri m
  else match attachments m with
       | u :: _ => u
       | [] => None
       end.

(* ===================================================================== *)
(** ** The [messages] object *)
(* ===================================================================== *)

(** The own properties of the [messages] object, in the order in which
    [Object.entries] and [JSON.stringify] enumerate them: keys that are
    array indices first, in ascending numeric order, then the other keys in
    the order of their creation. *)
Definition mapping : Type := list (string * MJMessage).

Definition keys (m : mapping) : list string := map fst m.

Fixpoint all_digits_value (acc : Z) (s : string) : option Z :=
  match s with
  | String c s' =>
      if is_digit c then all_digits_value (10 * acc + digit_value c) s'
      else None
  | EmptyString => Some acc
  end.

(** A property key is an array index when it is the canonical numeral of an
    integer between 0 and 2^32 - 2. *)
Definition array_index (key : string) : option Z :=
  match key with
  | EmptyString => None
  | String c rest =>
      if (c =? "0")%char then
        match rest with
        | EmptyString => Some 0
        | String _ _ => None
        end
      else
        match all_digits_value 0 key with
        | Some n => if n <=? 4294967294 then Some n else None
        | None => None
        end
  end.

Definition has_own (m : mapping) (key : string) : bool :=
  existsb (fun e => (fst e =? key)%string) m.

Fixpoint replace_own (m : mapping) (key : string) (v : MJMessage) : mapping :=
  match m with
  | (k, old) :: rest =>
      if (k =? key)%string then (k, v) :: rest
      else (k, old) :: replace_own rest key v
  | [] => []
  end.

(** Creating the array-index property [key], of index [n]: it goes before
    the first property that is not an array index or has a larger index. *)
Fixpoint insert_index (m : mapping) (key : string) (n : Z) (v : MJMessage)
  : mapping :=
  match m with
  | (k, old) :: rest =>
      match array_index k with
      | Some n' =>
          if n' <? n then (k, old) :: insert_index rest key n v
          else (key, v) :: m
      | None => (key, v) :: m
      end
  | [] => [(key, v)]
  end.

(** [CreateDataProperty(messages, key, v)]: an own property keeps its
    place, any other key becomes a new own property. *)
Definition define_property (m : mapping) (key : string) (v : MJMessage)
  : mapping :=
  if has_own m key then replace_own m key v
  else match array_index key with
       | Some n => insert_index m key n v
       | None => m ++ [(key, v)]
       end.

(** [Object.fromEntries(entries)]: the properties are created in the order
    of the list.  [JSON.parse] builds an object in the same way, from the
    members of the document in the order of the text. *)
Definition Object_fromEntries (entries : list (string * MJMessage)) : mapping :=
  fold_left (fun m e => define_property m (fst e) (snd e)) entries [].

(** [a] is enumerated before [b] whenever both are keys of an object. *)
Definition enumerates_before (a b : string) : Prop :=
  match array_index a, array_index b with
  | Some n, Some n' => n < n'
  | Some _, None => True
  | None, Some _ => False
  | None, None => True
  end.

Inductive enumeration_order : list string -> Prop :=
| order_nil : enumeration_order []
| order_cons (k : string) (rest : list string) :
    Forall (enumerates_before k) rest ->
    enumeration_order rest ->
    enumeration_order (k :: rest).

(** A list of entries is the enumeration of an object when its keys are
    distinct and in enumeration order.  On such a list [Object.entries]
    and [Object.fromEntries] are inverse of each other, and so are
    [JSON.stringify] and [JSON.parse]; this is why the store below handles
    the list itself. *)
Definition enumerated (m : mapping) : Prop :=
  NoDup (keys m) /\ enumeration_order (keys m).

(** The assignment [messages[key] = v].  An own property keeps its place;
    assigning to the inherited accessor [__proto__] creates no own
    property; any other key becomes a new own property. *)
Definition set_property (m : mapping) (key : string) (v : MJMessage) : mapping :=
  if has_own m key then replace_own m key v
  else if (key =? "__proto__")%string then m
  else match array_index key with
       | Some n => insert_index m key n v
       | None => m ++ [(key, v)]
       end.

Fixpoint get_own (m : mapping) (key : string) : option MJMessage :=
  match m with
  | (k, v) :: rest => if (k =? key)%string then Some v else get_own rest key
  | [] => None
  end.

(** The members every object inherits from [Object.prototype]. *)
Definition Object_prototype_members : list string :=
  [ "constructor"; "__defineGetter__"; "__defineSetter__"; "hasOwnProperty";
    "__lookupGetter__"; "__lookupSetter__"; "isPrototypeOf";
    "propertyIsEnumerable"; "toString"; "valueOf"; "__proto__";
    "toLocaleString" ].

Definition inherited (key : string) : bool :=
  existsb (fun k => (k =? key)%string) Object_prototype_members.

(** What [getMessage] hands back: [null], a stored record, or a member
    inherited from [Object.prototype] (a function or the prototype object
    itself, which is truthy and has no [options]). *)
Inductive retrieved : Type :=
| Null
| Stored (m : MJMessage)
| Inherited (name : string).

(** [messages[key] || null] *)
Definition get_property (m : mapping) (key : string) : retrieved :=
  match get_own m key with
  | Some v => Stored v
  | None => if inherited key then Inherited key else Null
  end.

(** [array.slice(-n)] *)
Definition slice_last {A : Type} (n : nat) (l : list A) : list A :=
  skipn (List.length l - n) l.

(* ===================================================================== *)
(** ** The job store *)
(* ===================================================================== *)

Definition MAX_STORAGE_AGE_MS : Z := 24 * 60 * 60 * 1000.
Definition MAX_STORAGE_SIZE : nat := 100.

(** The content of the storage file: [Unreadable] when the file is missing
    or does not parse, [Blank] when it holds white space only, [JsonNull]
    when it holds the document [null], [Doc m] when it holds an object
    whose mapping of job descriptors is [m]. *)
Inductive storage_file : Type :=
| Unreadable
| Blank
| JsonNull
| Doc (messages : mapping).

(** [loadMessages]: the mapping read, and the file as the call leaves it.
    A blank file reads as the empty mapping and is left alone.  A file
    that cannot be read or parsed, and the document [null] (reading
    [data.messages] of it throws), end in the [catch], which resets the
    file to the empty document. *)
Definition loadMessages (file : storage_file) : mapping * storage_file :=
  match file with
  | Doc messages => (messages, file)
  | Blank => ([], file)
  | Unreadable | JsonNull => ([], Doc [])
  end.

(** [initStorage]: a file that is missing, blank or does not parse is
    replaced by the empty document; a file that [JSON.parse] accepts is
    kept, the document [null] too. *)
Definition initStorage (file : storage_file) : storage_file :=
  match file with
  | Doc _ | JsonNull => file
  | Blank | Unreadable => Doc []
  end.

(** [data.timestamp || now] *)
Definition timestamp_or (data : MJMessage) (now : Z) : Z :=
  number_or (timestamp data) now.

Definition within_age (now : Z) (entry : string * MJMessage) : bool :=
  now - timestamp_or (snd entry) now <=? MAX_STORAGE_AGE_MS.

(** The clean-up of [saveMessage]: the age filter, then the size cap, on
    the entries of [messages]; the object made of the entries kept
    enumerates them in the same order (lemmas [saveMessage_file_enumerated]
    and [Object_fromEntries_enumerated]). *)
Definition cleanedMessages (now : Z) (messages : mapping) : mapping :=
  slice_last MAX_STORAGE_SIZE (filter (within_age now) messages).

(** [saveMessage(id, messageData)] on the file, where [stamp] and [now] are
    the two readings of [Date.now()], in that order.  The new document
    replaces the file in one step (write to a side file, then rename). *)
Definition saveMessage_file (id : string) (messageData : MJMessage)
    (stamp now : Z) (file : storage_file) : storage_file :=
  let messages := fst (loadMessages file) in
  let messages := set_property messages id (with_timestamp messageData stamp) in
  Doc (cleanedMessages now messages).

(** [getMessage(id)] on the file: the value returned and the file as the
    call leaves it. *)
Definition getMessage_file (id : string) (file : storage_file)
  : retrieved * storage_file :=
  let '(messages, file') := loadMessages file in
  (get_property messages id, file').

(** A run of [saveMessage] calls, each with its two clock readings. *)
Record save_call : Type := {
  save_id : string;
  save_data : MJMessage;
  save_stamp : Z;
  save_now : Z
}.

Definition save_step (file : storage_file) (c : save_call) : storage_file :=
  saveMessage_file (save_id c) (save_data c) (save_stamp c) (save_now c) file.

Definition save_all (calls : list save_call) (file : storage_file)
  : storage_file :=
  fold_left save_step calls file.

Definition stored_mapping (file : storage_file) : mapping :=
  fst (loadMessages file).

(* ===================================================================== *)
(** ** The outside world *)
(* ===================================================================== *)

(** A JavaScript [Error]: its optional [code] and [hostname], and its
    [message]. *)
Record error : Type := {
  code : option string;
  hostname : option string;
  message : string
}.

(** [new Error(text)] *)
Definition Error (text : string) : error :=
  {| code := None; hostname := None; message := text |}.

Definition is_ENOTFOUND (e : error) : bool :=
  match code e with
  | Some c => (c =? "ENOTFOUND")%string
  | None => false
  end.

(** The argument of [mj.Custom]; [msgFlags] is its [flags] member (the
    [loading] callback only logs). *)
Record custom_params : Type := {
  msgId : string;
  msgFlags : Z;
  customId : string
}.

(** How an awaited call ends. *)
Inductive outcome (A : Type) : Type :=
| Returned (a : A)
| Thrown (e : error).
Arguments Returned {A} a.
Arguments Thrown {A} e.

(** The collaborators of the program.  Each takes the number of
    consultations of the outside made so far, so that successive calls may
    answer differently.  [mj_init] answers [None] when the connection is
    made; [mj_Imagine] and [mj_Custom] resolve to a job descriptor or to
    nothing ([None]), or throw; [Math_random] answers a number that the
    caller expects in [0, 1). *)
Record environment : Type := {
  mj_init : nat -> option error;
  mj_Imagine : nat -> string -> outcome (option MJMessage);
  mj_Custom : nat -> custom_params -> outcome (option MJMessage);
  Math_random : nat -> Q;
  Date_now : nat -> Z
}.

(** What the program does to the outside, in the order it does it. *)
Inductive event : Type :=
| Connect
| Imagine (prompt : string)
| Custom (params : custom_params)
| Sleep (ms : Z).

(** The state of the process: the [mjInitialized] flag, the storage file,
    the number of consultations of the outside so far, and the events so
    far, oldest first. *)
Record world : Type := {
  mjInitialized : bool;
  storage : storage_file;
  tick : nat;
  trace : list event
}.

Definition set_initialized (b : bool) (w : world) : world :=
  {| mjInitialized := b; storage := storage w;
     tick := tick w; trace := trace w |}.

Definition set_storage (f : storage_file) (w : world) : world :=
  {| mjInitialized := mjInitialized w; storage := f;
     tick := tick w; trace := trace w |}.

Definition consulted (w : world) : world :=
  {| mjInitialized := mjInitialized w; storage := storage w;
     tick := S (tick w); trace := trace w |}.

Definition logged (e : event) (w : world) : world :=
  {| mjInitialized := mjInitialized w; storage := storage w;
     tick := tick w; trace := trace w ++ [e] |}.

(** Computations that read and change the world and may throw. *)
Definition M (A : Type) : Type := world -> outcome A * world.

Definition ret {A : Type} (a : A) : M A := fun w => (Returned a, w).

Definition throw {A : Type} (e : error) : M A := fun w => (Thrown e, w).

Definition bind {A B : Type} (c : M A) (k : A -> M B) : M B :=
  fun w =>
    match c w with
    | (Returned a, w') => k a w'
    | (Thrown e, w') => (Thrown e, w')
    end.

(** [try { c } catch (error) { handler }] *)
Definition try_catch {A : Type} (c : M A) (handler : error -> M A) : M A :=
  fun w =>
    match c w with
    | (Returned a, w') => (Returned a, w')
    | (Thrown e, w') => handler e w'
    end.

Declare Scope js_scope.
Delimit Scope js_scope with js.
Notation "x <- c ;; k" := (bind c (fun x => k))
  (at level 61, c at next level, right associativity) : js_scope.
Notation "c ;; k" := (bind c (fun _ => k))
  (at level 61, right associativity) : js_scope.
Local Open Scope js_scope.

Section Program.

Variable env : environment.

(** [await new Promise(resolve => setTimeout(resolve, ms))] *)
Definition sleep (ms : Z) : M unit :=
  fun w => (Returned tt, logged (Sleep ms) w).

(** [await mj.init()] *)
Definition init_call : M unit :=
  fun w =>
    let w' := consulted (logged Connect w) in
    match mj_init env (tick w) with
    | None => (Returned tt, w')
    | Some e => (Thrown e, w')
    end.

(** [await mj.Imagine(prompt, ...)] *)
Definition Imagine_call (prompt : string) : M (option MJMessage) :=
  fun w => (mj_Imagine env (tick w) prompt,
            consulted (logged (Imagine prompt) w)).

(** [await mj.Custom(params)] *)
Definition Custom_call (params : custom_params) : M (option MJMessage) :=
  fun w => (mj_Custom env (tick w) params,
            consulted (logged (Custom params) w)).

(** [Math.random()] *)
Definition random_call : M Q :=
  fun w => (Returned (Math_random env (tick w)), consulted w).

(** [Date.now()] *)
Definition now_call : M Z :=
  fun w => (Returned (Date_now env (tick w)), consulted w).

(* --------------------------------------------------------------------- *)
(** *** Session manager *)
(* --------------------------------------------------------------------- *)

Definition maxRetries : Z := 3.
Definition baseDelay : Z := 3000.

(** The [while (retryCount < maxRetries)] loop of [initializeMidjourney].
    [fuel] bounds the number of iterations; falling out of the loop returns
    [undefined]. *)
Fixpoint connect_loop (fuel : nat) (retryCount : Z) : M unit :=
  match fuel with
  | O => ret tt
  | S fuel' =>
      if retryCount <? maxRetries then
        try_catch
          (init_call ;;
           (fun w => (Returned tt, set_initialized true w)))
          (fun error =>
             let retryCount := retryCount + 1 in
             if is_ENOTFOUND error && (retryCount <? maxRetries) then
               let delay := baseDelay * retryCount in
               sleep delay ;;
               connect_loop fuel' retryCount
             else throw error)
      else ret tt
  end.

Definition initializeMidjourney : M unit :=
  fun w =>
    if mjInitialized w then (Returned tt, w)
    else connect_loop (Z.to_nat maxRetries) 0 w.

(* --------------------------------------------------------------------- *)
(** *** Job store, in the world *)
(* --------------------------------------------------------------------- *)

(** [saveMessage]: the [catch] only logs and throws again. *)
Definition saveMessage (id : string) (messageData : MJMessage) : M unit :=
  stamp <- now_call ;;
  current <- now_call ;;
  (fun w =>
     (Returned tt,
      set_storage (saveMessage_file id messageData stamp current (storage w))
                  w)).

Definition getMessage (id : string) : M retrieved :=
  fun w =>
    let '(found, file) := getMessage_file id (storage w) in
    (Returned found, set_storage file w).

(* --------------------------------------------------------------------- *)
(** *** Resilient invoker *)
(* --------------------------------------------------------------------- *)

(** The [for (attempt = 0; attempt <= retries; attempt++)] loop of
    [safeCall]; a loop that ends without returning yields [undefined]. *)
Fixpoint safeCall_loop (fuel : nat) (params : custom_params)
    (retries delay attempt : Z) : M (option MJMessage) :=
  match fuel with
  | O => ret None
  | S fuel' =>
      if attempt <=? retries then
        try_catch
          (Custom_call params)
          (fun err =>
             if attempt =? retries then throw err
             else
               sleep delay ;;
               safeCall_loop fuel' params retries delay (attempt + 1))
      else ret None
  end.

Definition safeCall_with (params : custom_params) (retries delay : Z)
  : M (option MJMessage) :=
  safeCall_loop (Z.to_nat (retries + 1)) params retries delay 0.

(** [safeCall(params)] with its default [retries = 2] and [delay = 3000]. *)
Definition safeCall (params : custom_params) : M (option MJMessage) :=
  safeCall_with params 2 3000.

End Program.

(* ===================================================================== *)
(** ** HTTP handlers *)
(* ===================================================================== *)

(** One element of [upscaledImages]; [upscaleNumber] is [None] for [NaN]. *)
Record upscaled_image : Type := {
  upscaled_label : string;
  imageUrl : string;
  upscaleNumber : option Z
}.

(** The JSON bodies the handlers send.  [Failure] stands for every error
    body: its [error] text and, when present, [details] and
    [availableOptions]. *)
Inductive body : Type :=
| Failure (error_text : string) (details : option string)
          (availableOptions : option (list string))
| Generated (messageId : string) (image : option string)
            (option_labels : list string) (generatedCount : Z)
| Completed (originalMessageId variationLabel variationMessageId : string)
            (upscaledImages : list upscaled_image) (betweenUpscales : string).

Record response : Type := {
  status : Z;
  payload : body
}.

(** [res.status(code).json(b)]; [res.json(b)] is [respond 200 b]. *)
Definition respond (code : Z) (b : body) : response :=
  {| status := code; payload := b |}.

(** The body of [POST /generate-images]. *)
Record images_request : Type := {
  keyword : option string;
  count : jsval
}.

(** The body of [POST /generate-upscale-from-variation]; [variationNumber]
    is [undefined] ([None]) or an integer-valued number. *)
Record upscale_request : Type := {
  originalMessageId : option string;
  variationNumber : option Z;
  delayBetweenUpscales : jsval
}.

Definition text_of (s : option string) : string :=
  match s with
  | Some s => s
  | None => "undefined"
  end.

(** [String(n)] for a number that may be [undefined]. *)
Definition number_text (n : option Z) : string :=
  match n with
  | Some n => decimal n
  | None => "undefined"
  end.

(** [String(v)] for a primitive [v]; the numeral of a plain number. *)
Definition js_to_string (v : jsval) : string :=
  match v with
  | JUndefined => "undefined"
  | JNull => "null"
  | JBool true => "true"
  | JBool false => "false"
  | JNum n => decimal n
  | JStr s => s
  end.

Definition labels_of (opts : list MJOptions) : list string := map label opts.

(** [options.find(o => o.label === wanted)] *)
Definition find_option (opts : list MJOptions) (wanted : string)
  : option MJOptions :=
  find (fun o => (label o =? wanted)%string) opts.

(** [label.substring(1)] *)
Definition substring_1 (s : string) : string :=
  match s with
  | String _ rest => rest
  | EmptyString => EmptyString
  end.

(** [Math.max(10000, Math.min(parseInt(d) || 10000, 15000))] *)
Definition clamped_delay (d : jsval) : Z :=
  Z.max 10000 (Z.min (number_or (parseInt d) 10000) 15000).

(** [2^e], for every integer [e]. *)
Definition pow2 (e : Z) : Q := (2 ^ e)%Q.

(** The floor of the binary logarithm of a positive rational. *)
Definition Qlog2 (x : Q) : Z :=
  let k := Z.log2 (Qnum x) - Z.log2 (Zpos (Qden x)) in
  if Qle_bool (pow2 k) x then k else k - 1.

(** The integer nearest to [x], the even one of the two when [x] is
    half-way. *)
Definition round_half_even (x : Q) : Z :=
  let f := Qfloor x in
  match (x - inject_Z f ?= 1 # 2)%Q with
  | Lt => f
  | Gt => f + 1
  | Eq => if Z.even f then f else f + 1
  end.

(** The exponent of the last bit of the double nearest to a positive
    [x]: 53 bits of significand, and -1074 for the subnormal numbers. *)
Definition last_bit (x : Q) : Z := Z.max (-1074) (Qlog2 x - 52).

(** The double nearest to [x] (IEEE 754 binary64, round to nearest, ties
    to even), for [x] of magnitude below 2^1024: the result of an
    arithmetic operation of the code whose exact result is [x]. *)
Definition binary64 (x : Q) : Q :=
  match (x ?= 0)%Q with
  | Eq => 0
  | Gt =>
      let e := last_bit x in
      inject_Z (round_half_even (x / pow2 e)) * pow2 e
  | Lt =>
      let e := last_bit (- x) in
      - (inject_Z (round_half_even (- x / pow2 e)) * pow2 e)
  end%Q.

(** A value of [Math.random()]: a double in [0, 1). *)
Definition is_draw (r : Q) : Prop :=
  (0 <= r < 1)%Q /\ (binary64 r == r)%Q.

(** [Math.floor(r * 5000) + 10000]; the product is a double, the floor
    and the sum are exact. *)
Definition random_delay (r : Q) : Z :=
  Qfloor (binary64 (r * 5000)) + 10000.

Section Handlers.

Variable env : environment.

(** Lines 162-211 of the handler of [/generate-images]: what follows
    [await initializeMidjourney()]. *)
Definition generate_images_validated (req : images_request) : M response :=
  if negb (truthy_str (keyword req))
     || match count req with JUndefined => true | _ => false end
  then
    ret (respond 400
           (Failure "Both keyword and count parameters are required"
                    None None))
  else
    let position := parseInt (count req) in
    if match position with
       | None => true
       | Some p => (p <? 1) || (p >? 10)
       end
    then
      ret (respond 400
             (Failure "Count must be a number between 1 and 10" None None))
    else
      try_catch
        (let prompt :=
           (text_of (keyword req) ++ " --iw 2 --ar 1:1 --v 6 --style raw")%string in
         imagineResponse <- Imagine_call env prompt ;;
         match imagineResponse with
         | None =>
             throw
               (Error "MidJourney failed to respond to the imagine request")
         | Some imagineResponse =>
             let image := image_url imagineResponse in
             saveMessage env (id imagineResponse) imagineResponse ;;
             ret (respond 200
                    (Generated (id imagineResponse) image
                       (match options imagineResponse with
                        | Some opts => labels_of opts
                        | None => []
                        end)
                       1))
         end)
        (fun error =>
           ret (respond 500 (Failure (message error) None None))).

(** [app.post('/generate-images', ...)] *)
Definition generate_images (req : images_request) : M response :=
  try_catch
    (initializeMidjourney env ;;
     generate_images_validated req)
    (fun error => ret (respond 500 (Failure "Internal server error" None None))).

(** The pacing delay of one upscale step. *)
Definition pacing_delay (delayBetweenUpscales : jsval) : M Z :=
  if truthy delayBetweenUpscales
  then ret (clamped_delay delayBetweenUpscales)
  else r <- random_call env ;; ret (random_delay r).

(** One iteration of [for (const label of upscaleLabels)], from the
    results so far to the results after it; [continue] leaves them as they
    are. *)
Definition upscale_step (variationMessage : MJMessage)
    (variationOptions : list MJOptions) (delayBetweenUpscales : jsval)
    (upscaledResults : list upscaled_image) (label : string)
  : M (list upscaled_image) :=
  delayMs <- pacing_delay delayBetweenUpscales ;;
  sleep delayMs ;;
  match find_option variationOptions label with
  | None => ret upscaledResults
  | Some upscaleOption =>
      upscale <- safeCall env
                   {| msgId := id variationMessage;
                      msgFlags := flags variationMessage;
                      customId := custom upscaleOption |} ;;
      match upscale with
      | None => ret upscaledResults
      | Some upscale =>
          let image := image_url upscale in
          if negb (truthy_str image) then ret upscaledResults
          else
            ret (upscaledResults ++
                   [ {| upscaled_label := label;
                        imageUrl := text_of image;
                        upscaleNumber :=
                          parseInt_string (substring_1 label) |} ])
      end
  end.

Fixpoint upscale_loop (variationMessage : MJMessage)
    (variationOptions : list MJOptions) (delayBetweenUpscales : jsval)
    (upscaleLabels : list string) (upscaledResults : list upscaled_image)
  : M (list upscaled_image) :=
  match upscaleLabels with
  | [] => ret upscaledResults
  | label :: rest =>
      upscaledResults <- upscale_step variationMessage variationOptions
                           delayBetweenUpscales upscaledResults label ;;
      upscale_loop variationMessage variationOptions delayBetweenUpscales
        rest upscaledResults
  end.

Definition upscaleLabels : list string := ["U1"; "U2"].

(** Lines 284-339: the upscale loop and the final response, once the
    variation has been created and stored. *)
Definition upscale_from (req : upscale_request) (variationLabel : string)
    (variationMessage : MJMessage) (variationOptions : list MJOptions)
  : M response :=
  upscaledResults <- upscale_loop variationMessage variationOptions
                       (delayBetweenUpscales req) upscaleLabels [] ;;
  ret (respond 200
         (Completed (text_of (originalMessageId req)) variationLabel
            (id variationMessage) upscaledResults
            (if truthy (delayBetweenUpscales req)
             then (js_to_string (delayBetweenUpscales req)
                   ++ "ms (clamped to 10-15s)")%string
             else "random 10-15s"))).

(** Lines 248-339: from the look-up of the original message on. *)
Definition variation_then_upscale (req : upscale_request) : M response :=
  originalMessage <- getMessage (text_of (originalMessageId req)) ;;
  match originalMessage with
  | Stored originalMessage =>
      match options originalMessage with
      | Some originalOptions =>
          let variationLabel :=
            ("V" ++ number_text (variationNumber req))%string in
          match find_option originalOptions variationLabel with
          | None =>
              ret (respond 404
                     (Failure
                        ("Variation " ++ variationLabel ++ " not available")%string
                        None (Some (labels_of originalOptions))))
          | Some variationOption =>
              variationMessage <-
                safeCall env
                  {| msgId := id originalMessage;
                     msgFlags := flags originalMessage;
                     customId := custom variationOption |} ;;
              match variationMessage with
              | None =>
                  ret (respond 500
                         (Failure "Failed to create variation"
                            (Some "No response from Midjourney") None))
              | Some variationMessage =>
                  match options variationMessage with
                  | None =>
                      ret (respond 500
                             (Failure "Failed to create variation"
                                (Some "No options available") None))
                  | Some variationOptions =>
                      saveMessage env (id variationMessage) variationMessage ;;
                      upscale_from req variationLabel variationMessage
                        variationOptions
                  end
              end
          end
      | None =>
          ret (respond 404
                 (Failure "Original message not found or has no options"
                    None None))
      end
  | Null | Inherited _ =>
      ret (respond 404
             (Failure "Original message not found or has no options"
                None None))
  end.

(** [app.post('/generate-upscale-from-variation', ...)] *)
Definition generate_upscale_from_variation (req : upscale_request)
  : M response :=
  try_catch
    (initializeMidjourney env ;;
     if negb (truthy_str (originalMessageId req))
        || match variationNumber req with
           | None => true
           | Some n => (n <? 1) || (n >? 4)
           end
     then
       ret (respond 400
              (Failure
                 "Both originalMessageId and variationNumber (1-4) are required"
                 None None))
     else variation_then_upscale req)
    (fun error => ret (respond 500 (Failure (message error) None None))).

End Handlers.

(* ===================================================================== *)
(** ** The job store by the words of its specification *)
(* ===================================================================== *)

(** The age of an entry, [now] minus its timestamp, when it has one. *)
Definition age (now : Z) (data : MJMessage) : option Z :=
  option_map (fun t => now - t) (timestamp data).

(** An entry is expired when its age exceeds the threshold. *)
Definition expired (now : Z) (entry : string * MJMessage) : bool :=
  match age now (snd entry) with
  | Some a => a >? MAX_STORAGE_AGE_MS
  | None => false
  end.

(** Drop every expired entry, then keep the last [MAX_STORAGE_SIZE] of the
    remainder. *)
Definition evict_spec (now : Z) (messages : mapping) : mapping :=
  slice_last MAX_STORAGE_SIZE (filter (fun e => negb (expired now e)) messages).

(** No entry carries the timestamp 0. *)
Definition nonzero_timestamps (messages : mapping) : Prop :=
  forall k v, In (k, v) messages -> timestamp v <> Some 0.

(** A key that is neither an array index nor [__proto__]: assigning to it
    when it is not yet a property appends a property. *)
Definition plain_key (key : string) : Prop :=
  array_index key = None /\ key <> "__proto__".

(** Every clock reading of the calls lies in one window of
    [MAX_STORAGE_AGE_MS] starting at [start]. *)
Definition within_window (start : Z) (calls : list save_call) : Prop :=
  forall c, In c calls ->
    start <= save_stamp c <= start + MAX_STORAGE_AGE_MS /\
    start <= save_now c <= start + MAX_STORAGE_AGE_MS.

(** The entries of [m] were stamped at or after [start]. *)
Definition stamped_since (start : Z) (m : mapping) : Prop :=
  forall k v, In (k, v) m -> exists t, timestamp v = Some t /\ start <= t.

(* ===================================================================== *)
(** ** Concrete stores and calls *)
(* ===================================================================== *)

(** A job descriptor with nothing but its id. *)
Definition bare_message (i : string) : MJMessage :=
  {| id := i; flags := 0; uri := None; attachments := [];
     options := None; timestamp := None |}.

(** [saveMessage(i, bare_message i)] with both clock readings equal to [t]. *)
Definition save_at (t : Z) (i : string) : save_call :=
  {| save_id := i; save_data := bare_message i;
     save_stamp := t; save_now := t |}.

(** The numerals of [n - 1] down to [0]. *)
Definition countdown (n : nat) : list string :=
  map (fun k => decimal (Z.of_nat k)) (rev (seq 0 n)).

(** The ids ["job-0"] to ["job-(n-1)"]. *)
Definition job_ids (n : nat) : list string :=
  map (fun k => ("job-" ++ decimal (Z.of_nat k))%string) (seq 0 n).

Fixpoint distinct (l : list string) : bool :=
  match l with
  | [] => true
  | x :: rest => negb (existsb (String.eqb x) rest) && distinct rest
  end.

Definition plain_keyb (key : string) : bool :=
  match array_index key with
  | Some _ => false
  | None => negb (key =? "__proto__")%string
  end.

(** A world with an established session and the given storage file. *)
Definition ready_world (file : storage_file) : world :=
  {| mjInitialized := true; storage := file; tick := O; trace := [] |}.

(** The entries [saveMessage] writes for the given ids at time [t]. *)
Definition stamped_entries (t : Z) (ids : list string) : mapping :=
  map (fun i => (i, with_timestamp (bare_message i) t)) ids.

(* ===================================================================== *)
(** ** Worlds after one effect *)
(* ===================================================================== *)

(** The world after one [mj.Custom(params)] has answered. *)
Definition called (params : custom_params) (w : world) : world :=
  consulted (logged (Custom params) w).

(** The world after a wait of [ms] milliseconds. *)
Definition slept (ms : Z) (w : world) : world :=
  logged (Sleep ms) w.

(** The world after one [mj.init()] has answered. *)
Definition connected (w : world) : world :=
  consulted (logged Connect w).

(* ===================================================================== *)
(** ** Concrete collaborators *)
(* ===================================================================== *)

(** An outside that connects at once, answers nothing to every request,
    draws 1/2 at every [Math.random()], and whose clock starts at 1000 and
    advances by one at every consultation. *)
Definition quiet_env : environment :=
  {| mj_init := fun _ => None;
     mj_Imagine := fun _ _ => Returned None;
     mj_Custom := fun _ _ => Returned None;
     Math_random := fun _ => (1 # 2)%Q;
     Date_now := fun k => 1000 + Z.of_nat k |}.

(* ===================================================================== *)
(** ** Requests that pass the validation of [/generate-images] *)
(* ===================================================================== *)

(** The count reads, with [parseInt], as an integer between 1 and 10. *)
Definition count_in_range (count : jsval) : bool :=
  match parseInt count with
  | Some p => (1 <=? p) && (p <=? 10)
  | None => false
  end.

(** The keyword is a non-empty string and the count is in range. *)
Definition valid_images_request (req : images_request) : bool :=
  truthy_str (keyword req) && count_in_range (count req).

(** The prompt submitted for a request. *)
Definition prompt_of (req : images_request) : string :=
  (text_of (keyword req) ++ " --iw 2 --ar 1:1 --v 6 --style raw")%string.

(* ===================================================================== *)
(** ** A run of the pipeline in which one upscale call keeps failing *)
(* ===================================================================== *)

Definition original_job : MJMessage :=
  {| id := "job-1"; flags := 0; uri := Some "https://cdn.example/job-1.png";
     attachments := [];
     options := Some [ {| label := "V1"; custom := "v1" |};
                       {| label := "V2"; custom := "v2" |};
                       {| label := "V3"; custom := "v3" |};
                       {| label := "V4"; custom := "v4" |} ];
     timestamp := Some 1000 |}.

Definition variation_job : MJMessage :=
  {| id := "job-1v"; flags := 0; uri := Some "https://cdn.example/job-1v.png";
     attachments := [];
     options := Some [ {| label := "U1"; custom := "u1" |};
                       {| label := "U2"; custom := "u2" |} ];
     timestamp := None |}.

Definition upscaled_job : MJMessage :=
  {| id := "job-1u"; flags := 0; uri := Some "https://cdn.example/job-1u.png";
     attachments := []; options := None; timestamp := None |}.

(** [mj.Imagine] answers the original job; [mj.Custom] creates the
    variation, throws at every call for the action of ["U1"], and answers
    every other call with an upscaled job. *)
Definition u1_failing_env : environment :=
  {| mj_init := fun _ => None;
     mj_Imagine := fun _ _ => Returned (Some original_job);
     mj_Custom := fun _ params =>
       if (customId params =? "v1")%string then Returned (Some variation_job)
       else if (customId params =? "u1")%string
            then Thrown (Error "Interaction failed")
            else Returned (Some upscaled_job);
     Math_random := fun _ => (1 # 2)%Q;
     Date_now := fun k => 2000 + Z.of_nat k |}.

Definition u1_failing_world : world :=
  ready_world (Doc [("job-1", original_job)]).

Definition u1_failing_request : upscale_request :=
  {| originalMessageId := Some "job-1";
     variationNumber := Some 1;
     delayBetweenUpscales := JNum 12000 |}.

(** Requests for images of a red bicycle. *)
Definition bicycle_request (count : jsval) : images_request :=
  {| keyword := Some "a red bicycle"; count := count |}.

(** A request for the upscales of variation [n] of the job [id]. *)
Definition variation_request (id : string) (n : Z) : upscale_request :=
  {| originalMessageId := Some id;
     variationNumber := Some n;
     delayBetweenUpscales := JUndefined |}.

(** An outside in which every call succeeds: [mj.Imagine] answers the
    original job, [mj.Custom] answers the variation job to the action of a
    variation and an upscaled job to any other action. *)
Definition happy_env : environment :=
  {| mj_init := fun _ => None;
     mj_Imagine := fun _ _ => Returned (Some original_job);
     mj_Custom := fun _ params =>
       if (customId params =? "v2")%string then Returned (Some variation_job)
       else Returned (Some upscaled_job);
     Math_random := fun _ => (1 # 2)%Q;
     Date_now := fun k => 2000 + Z.of_nat k |}.

(** A process that has just started: no session yet, an empty store. *)
Definition fresh_world : world :=
  {| mjInitialized := false; storage := initStorage Unreadable;
     tick := O; trace := [] |}.

(* ===================================================================== *)
(** ** The handler of uncaught exceptions *)
(* ===================================================================== *)

Definition is_gateway (e : error) : bool :=
  match hostname e with
  | Some h => (h =? "gateway.discord.gg")%string
  | None => false
  end.

(** [process.on('uncaughtException', ...)], with the reconnection it starts
    run to its end before anything else touches the session: the exit code
    when the process is ended ([None] when it goes on), and the world
    left.  The failure of the reconnection is only logged. *)
Definition uncaughtException (env : environment) (error : error) (w : world)
  : option Z * world :=
  if is_ENOTFOUND error && is_gateway error then
    (None, snd (initializeMidjourney env (set_initialized false w)))
  else (Some 1, w).

(* ===================================================================== *)
(** ** Measures of a trace *)
(* ===================================================================== *)

Definition is_custom (e : event) : bool :=
  match e with Custom _ => true | _ => false end.

Definition is_connect (e : event) : bool :=
  match e with Connect => true | _ => false end.

Definition is_imagine (e : event) : bool :=
  match e with Imagine _ => true | _ => false end.

(** The number of events of a kind. *)
Definition count_events (kind : event -> bool) (l : list event) : nat :=
  List.length (filter kind l).

(** The time spent waiting, in milliseconds. *)
Fixpoint slept_total (l : list event) : Z :=
  match l with
  | Sleep ms :: rest => ms + slept_total rest
  | _ :: rest => slept_total rest
  | [] => 0
  end.

(** Between [w] and [w'] the program did to the outside at most [customs]
    calls of [mj.Custom], [connects] calls of [mj.init] and [imagines]
    calls of [mj.Imagine]. *)
Definition adds (w w' : world) (customs connects imagines : nat) : Prop :=
  exists added,
    trace w' = trace w ++ added
    /\ (count_events is_custom added <= customs)%nat
    /\ (count_events is_connect added <= connects)%nat
    /\ (count_events is_imagine added <= imagines)%nat.

(** Whatever the world it starts from and however it ends, [c] stays
    within these numbers of calls. *)
Definition costs {A : Type} (c : M A) (customs connects imagines : nat)
  : Prop :=
  forall w, adds w (snd (c w)) customs connects imagines.

(** Whatever the world it starts from and however it ends, [c] leaves the
    storage file and the session flag as they were. *)
Definition leaves_state {A : Type} (c : M A) : Prop :=
  forall w, storage (snd (c w)) = storage w
            /\ mjInitialized (snd (c w)) = mjInitialized w.

(** When [c] returns a response, its status satisfies [allowed]. *)
Definition answers (allowed : Z -> Prop) (c : M response) : Prop :=
  forall w, match fst (c w) with
            | Returned r => allowed (status r)
            | Thrown _ => True
            end.

(** An upscaled image as the loop records it for [label]. *)
Definition recorded_for (label : string) (image : upscaled_image) : Prop :=
  upscaled_label image = label
  /\ imageUrl image <> ""
  /\ upscaleNumber image = parseInt_string (substring_1 label).

(* ===================================================================== *)
(** ** More concrete collaborators *)
(* ===================================================================== *)

Definition ECONNREFUSED : error :=
  {| code := Some "ECONNREFUSED"; hostname := None;
     message := "connect ECONNREFUSED" |}.

Definition gateway_ENOTFOUND : error :=
  {| code := Some "ENOTFOUND"; hostname := Some "gateway.discord.gg";
     message := "getaddrinfo ENOTFOUND gateway.discord.gg" |}.

(** An outside that refuses every connection. *)
Definition refusing_env : environment :=
  {| mj_init := fun _ => Some ECONNREFUSED;
     mj_Imagine := fun _ _ => Returned None;
     mj_Custom := fun _ _ => Returned None;
     Math_random := fun _ => (1 # 2)%Q;
     Date_now := fun k => 1000 + Z.of_nat k |}.

(** A process that has not connected yet, with the given storage file. *)
Definition cold_world (file : storage_file) : world :=
  {| mjInitialized := false; storage := file; tick := O; trace := [] |}.

(* ===================================================================== *)
(** ** Lists *)
(* ===================================================================== *)

Section SliceLast.

Context {A : Type}.

Lemma slice_last_length (n : nat) (l : list A) :
  List.length (slice_last n l) = Nat.min n (List.length l).
Proof.
  unfold slice_last. rewrite length_skipn. lia.
Qed.

Lemma slice_last_short (n : nat) (l : list A) :
  (List.length l <= n)%nat -> slice_last n l = l.
Proof.
  intros H. unfold slice_last.
  replace (List.length l - n)%nat with O by lia. reflexivity.
Qed.

Lemma slice_last_suffix (n : nat) (l : list A) :
  exists dropped, l = dropped ++ slice_last n l.
Proof.
  exists (firstn (List.length l - n) l). unfold slice_last.
  symmetry. apply firstn_skipn.
Qed.

Lemma slice_last_incl (n : nat) (l : list A) (x : A) :
  In x (slice_last n l) -> In x l.
Proof.
  intros H. destruct (slice_last_suffix n l) as [d Hd].
  rewrite Hd. apply in_or_app. now right.
Qed.

Lemma slice_last_app_long (n : nat) (l r : list A) :
  (n <= List.length r)%nat -> slice_last n (l ++ r) = slice_last n r.
Proof.
  intros H. unfold slice_last. rewrite length_app.
  rewrite skipn_app.
  replace (List.length l + List.length r - n - List.length l)%nat
    with (List.length r - n)%nat by lia.
  rewrite skipn_all2 by lia. reflexivity.
Qed.

Lemma slice_last_app_short (n : nat) (l r : list A) :
  (List.length r <= n)%nat ->
  slice_last n (l ++ r) = slice_last (n - List.length r) l ++ r.
Proof.
  intros H. unfold slice_last. rewrite length_app, skipn_app.
  replace (List.length l + List.length r - n)%nat
    with (List.length l - (n - List.length r))%nat by lia.
  replace (List.length l - (n - List.length r) - List.length l)%nat
    with O by lia.
  reflexivity.
Qed.

(** Cutting a list to its last [n] elements before appending changes
    nothing to the last [n] elements of the whole. *)
Lemma slice_last_idem_app (n : nat) (l r : list A) :
  slice_last n (slice_last n l ++ r) = slice_last n (l ++ r).
Proof.
  destruct (Nat.le_gt_cases n (List.length r)) as [H | H].
  - now rewrite !slice_last_app_long.
  - rewrite !slice_last_app_short by lia. f_equal.
    unfold slice_last at 1 2. rewrite skipn_skipn, length_skipn.
    unfold slice_last. f_equal. lia.
Qed.

End SliceLast.

Lemma slice_last_map {A B : Type} (f : A -> B) (n : nat) (l : list A) :
  map f (slice_last n l) = slice_last n (map f l).
Proof.
  unfold slice_last. rewrite length_map. symmetry. apply skipn_map.
Qed.

Lemma filter_all {A : Type} (p : A -> bool) (l : list A) :
  (forall x, In x l -> p x = true) -> filter p l = l.
Proof.
  induction l as [| a l IH]; simpl; intros H; [reflexivity |].
  rewrite (H a) by now left. f_equal. apply IH. intros x Hx. apply H. now right.
Qed.

(* ===================================================================== *)
(** ** The [messages] object *)
(* ===================================================================== *)

Lemma has_own_true (m : mapping) (key : string) :
  has_own m key = true <-> In key (keys m).
Proof.
  unfold has_own, keys. rewrite existsb_exists, in_map_iff. split.
  - intros [e [He Hk]]. apply String.eqb_eq in Hk. now exists e.
  - intros [e [Hk He]]. exists e. split; [assumption |].
    now apply String.eqb_eq.
Qed.

Lemma has_own_false (m : mapping) (key : string) :
  has_own m key = false <-> ~ In key (keys m).
Proof.
  rewrite <- has_own_true. destruct (has_own m key); split; congruence.
Qed.

Lemma keys_replace_own (m : mapping) (key : string) (v : MJMessage) :
  keys (replace_own m key v) = keys m.
Proof.
  induction m as [| [k old] rest IH]; simpl; [reflexivity |].
  destruct (k =? key)%string; simpl; [reflexivity | now rewrite IH].
Qed.

Lemma get_own_replace_own (m : mapping) (key : string) (v : MJMessage) :
  In key (keys m) -> get_own (replace_own m key v) key = Some v.
Proof.
  induction m as [| [k old] rest IH]; simpl; [tauto |].
  intros H. destruct (k =? key)%string eqn:E; simpl.
  - now rewrite E.
  - rewrite E. apply IH. destruct H as [H | H]; [| assumption].
    apply String.eqb_neq in E. contradiction.
Qed.

Lemma get_own_absent (m : mapping) (key : string) :
  ~ In key (keys m) -> get_own m key = None.
Proof.
  induction m as [| [k v] rest IH]; simpl; [reflexivity |].
  intros H. destruct (k =? key)%string eqn:E.
  - apply String.eqb_eq in E. tauto.
  - apply IH. tauto.
Qed.

Lemma get_own_In (m : mapping) (key : string) (v : MJMessage) :
  get_own m key = Some v -> In (key, v) m.
Proof.
  induction m as [| [k old] rest IH]; simpl; [discriminate |].
  destruct (k =? key)%string eqn:E.
  - apply String.eqb_eq in E. intros [= ->]. left. now subst.
  - intros H. right. now apply IH.
Qed.

Lemma get_own_unique (m : mapping) (key : string) (v : MJMessage) :
  NoDup (keys m) -> In (key, v) m -> get_own m key = Some v.
Proof.
  induction m as [| [k old] rest IH]; simpl; [tauto |].
  intros Hnd [H | H].
  - injection H as -> ->. now rewrite String.eqb_refl.
  - inversion Hnd as [| ? ? Hk Hrest]; subst.
    destruct (k =? key)%string eqn:E.
    + apply String.eqb_eq in E. subst k. exfalso. apply Hk.
      change key with (fst (key, v)). now apply in_map.
    + now apply IH.
Qed.

Lemma set_property_own (m : mapping) (key : string) (v : MJMessage) :
  In key (keys m) -> set_property m key v = replace_own m key v.
Proof.
  intros H. unfold set_property. apply has_own_true in H. now rewrite H.
Qed.

Lemma set_property_plain (m : mapping) (key : string) (v : MJMessage) :
  plain_key key -> ~ In key (keys m) ->
  set_property m key v = m ++ [(key, v)].
Proof.
  intros [Hidx Hproto] H. unfold set_property.
  apply has_own_false in H. rewrite H.
  apply String.eqb_neq in Hproto. rewrite Hproto, Hidx. reflexivity.
Qed.

(* ===================================================================== *)
(** ** Eviction *)
(* ===================================================================== *)

Lemma MAX_STORAGE_AGE_MS_value : MAX_STORAGE_AGE_MS = 86400000.
Proof. reflexivity. Qed.

Lemma stored_mapping_saveMessage_file
    (id : string) (data : MJMessage) (stamp now : Z) (file : storage_file) :
  stored_mapping (saveMessage_file id data stamp now file) =
  cleanedMessages now
    (set_property (stored_mapping file) id (with_timestamp data stamp)).
Proof. reflexivity. Qed.

Lemma within_age_expired (now : Z) (entry : string * MJMessage) :
  timestamp (snd entry) <> Some 0 ->
  within_age now entry = negb (expired now entry).
Proof.
  intros H. unfold within_age, expired, age, timestamp_or, number_or.
  destruct (timestamp (snd entry)) as [t |]; simpl.
  - destruct (t =? 0) eqn:E.
    + apply Z.eqb_eq in E. congruence.
    + rewrite Z.gtb_ltb. apply Z.leb_antisym.
  - replace (now - now) with 0 by lia. reflexivity.
Qed.

(** On a mapping without zero timestamps the clean-up of the code is the
    eviction of the specification. *)
Lemma cleanedMessages_evict_spec (now : Z) (messages : mapping) :
  nonzero_timestamps messages ->
  cleanedMessages now messages = evict_spec now messages.
Proof.
  intros H. unfold cleanedMessages, evict_spec. f_equal.
  apply filter_ext_in. intros [k v] Hin.
  apply within_age_expired. simpl. now apply (H k).
Qed.

Lemma cleanedMessages_length (now : Z) (messages : mapping) :
  (List.length (cleanedMessages now messages) <= MAX_STORAGE_SIZE)%nat.
Proof.
  unfold cleanedMessages. rewrite slice_last_length. lia.
Qed.

Lemma cleanedMessages_In (now : Z) (messages : mapping) (e : string * MJMessage) :
  In e (cleanedMessages now messages) ->
  In e messages /\ within_age now e = true.
Proof.
  unfold cleanedMessages. intros H. apply slice_last_incl in H.
  now apply filter_In in H.
Qed.

Lemma cleanedMessages_drops_expired
    (now : Z) (messages : mapping) (k : string) (v : MJMessage) (t : Z) :
  timestamp v = Some t -> t <> 0 -> now - t > MAX_STORAGE_AGE_MS ->
  ~ In (k, v) (cleanedMessages now messages).
Proof.
  intros Ht Hz Hold Hin. apply cleanedMessages_In in Hin as [_ Hage].
  unfold within_age, timestamp_or, number_or in Hage. simpl in Hage.
  rewrite Ht in Hage. apply Z.eqb_neq in Hz. rewrite Hz in Hage.
  apply Z.leb_le in Hage. lia.
Qed.

Lemma within_age_in_window (start now t : Z) (k : string) (v : MJMessage) :
  timestamp v = Some t -> start <= t -> now <= start + MAX_STORAGE_AGE_MS ->
  within_age now (k, v) = true.
Proof.
  intros Ht Hlo Hhi. unfold within_age, timestamp_or, number_or. simpl.
  rewrite Ht. apply Z.leb_le. rewrite MAX_STORAGE_AGE_MS_value in *.
  destruct (t =? 0); lia.
Qed.

Lemma save_all_snoc (calls : list save_call) (c : save_call)
    (file : storage_file) :
  save_all (calls ++ [c]) file = save_step (save_all calls file) c.
Proof. unfold save_all. now rewrite fold_left_app. Qed.

(** Saving distinct plain keys, within one age window, into an empty store
    keeps the last [MAX_STORAGE_SIZE] of them in the order of the calls. *)
Lemma save_all_plain_keys (start : Z) (file : storage_file)
    (calls : list save_call) :
  stored_mapping file = [] ->
  NoDup (map save_id calls) ->
  (forall c, In c calls -> plain_key (save_id c)) ->
  within_window start calls ->
  keys (stored_mapping (save_all calls file)) =
    slice_last MAX_STORAGE_SIZE (map save_id calls)
  /\ stamped_since start (stored_mapping (save_all calls file)).
Proof.
  intros Hempty. induction calls as [| c calls IH] using rev_ind.
  - intros _ _ _. simpl. rewrite Hempty. split; [reflexivity |].
    intros k v [].
  - intros Hnd Hplain Hwin.
    rewrite map_app in Hnd. simpl in Hnd.
    destruct IH as [IHk IHs].
    { exact (NoDup_app_remove_r _ _ Hnd). }
    { intros c' Hc'. apply Hplain, in_or_app. now left. }
    { intros c' Hc'. apply Hwin, in_or_app. now left. }
    rewrite save_all_snoc. unfold save_step.
    rewrite stored_mapping_saveMessage_file.
    set (m := stored_mapping (save_all calls file)) in *.
    assert (Hnew : ~ In (save_id c) (keys m)).
    { rewrite IHk. intros Hin. apply slice_last_incl in Hin.
      apply NoDup_remove_2 in Hnd. rewrite app_nil_r in Hnd. contradiction. }
    rewrite set_property_plain;
      [| apply Hplain, in_or_app; right; now left | exact Hnew].
    destruct (Hwin c) as [[Hs1 Hs2] [Hn1 Hn2]];
      [apply in_or_app; right; now left |].
    assert (Hsince : stamped_since start
                       (m ++ [(save_id c, with_timestamp (save_data c) (save_stamp c))])).
    { intros k v Hin. apply in_app_or in Hin as [Hin | [Hin | []]].
      - now apply (IHs k v).
      - injection Hin as <- <-. exists (save_stamp c). now split. }
    unfold cleanedMessages. rewrite filter_all.
    + split.
      * unfold keys. rewrite slice_last_map, !map_app. simpl.
        fold (keys m). rewrite IHk. apply slice_last_idem_app.
      * intros k v Hin. apply slice_last_incl in Hin. now apply (Hsince k v).
    + intros [k v] Hin. destruct (Hsince k v Hin) as [t [Ht Hlo]].
      now apply within_age_in_window with (start := start) (t := t).
Qed.

Lemma distinct_NoDup (l : list string) : distinct l = true -> NoDup l.
Proof.
  induction l as [| x rest IH]; simpl; intros H; [constructor |].
  apply andb_true_iff in H as [Hx Hrest]. constructor; [| now apply IH].
  intros Hin. apply negb_true_iff in Hx.
  assert (existsb (String.eqb x) rest = true); [| congruence].
  apply existsb_exists. exists x. split; [assumption | apply String.eqb_refl].
Qed.

Lemma plain_keyb_sound (key : string) : plain_keyb key = true -> plain_key key.
Proof.
  unfold plain_keyb, plain_key. destruct (array_index key); [discriminate |].
  intros H. apply negb_true_iff, String.eqb_neq in H. now split.
Qed.

Lemma plain_keys_sound (calls : list save_call) :
  forallb (fun c => plain_keyb (save_id c)) calls = true ->
  forall c, In c calls -> plain_key (save_id c).
Proof.
  intros H c Hc. apply plain_keyb_sound.
  now apply (proj1 (forallb_forall _ _) H).
Qed.

Lemma within_window_save_at (t : Z) (ids : list string) :
  within_window t (map (save_at t) ids).
Proof.
  intros c Hc. apply in_map_iff in Hc as [i [<- _]]. simpl.
  rewrite MAX_STORAGE_AGE_MS_value. lia.
Qed.

(** Where the eviction of the specification holds.  Every [saveMessage]
    persists the mapping it wrote, cleaned in this order: the age filter,
    then the last 100 entries in the iteration order of the mapping; the
    result has at most 100 entries, and no entry with a non-zero timestamp
    older than 24 hours survives.  For ids that are neither array indices
    nor [__proto__] the iteration order is the order of first insertion:
    saving distinct such ids, within one 24-hour window, into an empty
    store leaves the last 100 of them; with 101 such ids exactly 100
    remain and the first one saved is the one dropped. *)
Lemma saveMessage_eviction :
  (forall (id : string) (data : MJMessage) (stamp now : Z) (file : storage_file),
      let written :=
        set_property (stored_mapping file) id (with_timestamp data stamp) in
      let kept := stored_mapping (saveMessage_file id data stamp now file) in
      (nonzero_timestamps written -> kept = evict_spec now written)
      /\ (List.length kept <= 100)%nat
      /\ (forall k v t, timestamp v = Some t -> t <> 0 ->
                        now - t > MAX_STORAGE_AGE_MS -> ~ In (k, v) kept))
  /\
  (forall (start : Z) (file : storage_file) (calls : list save_call),
      stored_mapping file = [] ->
      NoDup (map save_id calls) ->
      (forall c, In c calls -> plain_key (save_id c)) ->
      within_window start calls ->
      let kept := keys (stored_mapping (save_all calls file)) in
      kept = slice_last 100 (map save_id calls)
      /\ (List.length calls = 101%nat ->
          kept = tl (map save_id calls)
          /\ List.length kept = 100%nat
          /\ ~ In (hd "" (map save_id calls)) kept)).
Proof.
  split.
  - intros id data stamp now file written kept. subst kept.
    rewrite stored_mapping_saveMessage_file. fold written.
    split; [apply cleanedMessages_evict_spec |].
    split; [apply cleanedMessages_length |].
    intros k v t. apply cleanedMessages_drops_expired.
  - intros start file calls Hempty Hnd Hplain Hwin kept.
    destruct (save_all_plain_keys start file calls Hempty Hnd Hplain Hwin)
      as [Hkeys _].
    fold kept in Hkeys. split; [exact Hkeys |].
    intros Hlen. clearbody kept. subst kept.
    assert (Hids : List.length (map save_id calls) = 101%nat)
      by now rewrite length_map.
    destruct (map save_id calls) as [| first rest]; [discriminate |].
    assert (Htl : slice_last MAX_STORAGE_SIZE (first :: rest) = rest).
    { unfold slice_last, MAX_STORAGE_SIZE. rewrite Hids. reflexivity. }
    rewrite Htl. simpl. split; [reflexivity |].
    split; [simpl in Hids; lia |].
    inversion Hnd. assumption.
Qed.

(** The ids ["job-0"] to ["job-100"], all saved at time 1000 into a blank
    store: ["job-0"] is the one dropped. *)
Lemma saveMessage_eviction_witness :
  let calls := map (save_at 1000) (job_ids 101) in
  let kept := keys (stored_mapping (save_all calls Blank)) in
  kept = slice_last 100 (map save_id calls)
  /\ (List.length calls = 101%nat ->
      kept = tl (map save_id calls)
      /\ List.length kept = 100%nat
      /\ ~ In (hd "" (map save_id calls)) kept).
Proof.
  apply (proj2 saveMessage_eviction 1000 Blank (map (save_at 1000) (job_ids 101))).
  - reflexivity.
  - apply distinct_NoDup. vm_compute. reflexivity.
  - apply plain_keys_sound. vm_compute. reflexivity.
  - apply within_window_save_at.
Defined.

Lemma existsb_eqb_In (x : string) (l : list string) :
  existsb (String.eqb x) l = true <-> In x l.
Proof.
  rewrite existsb_exists. split.
  - intros [y [Hy E]]. apply String.eqb_eq in E. now subst.
  - intros H. exists x. split; [assumption | apply String.eqb_refl].
Qed.

(** C1.  The eviction drops the record just saved when its id is an
    array index.  The 101 distinct ids ["100"], ["99"], ..., ["0"] are
    saved in this order into a blank store, all at time 1000.  Exactly 100
    remain, but the id dropped is ["0"], the last one saved: the call that
    saved it returned, and [getMessage] of it gives [null].  ["100"], the
    least recently saved, is still there. *)
Theorem saveMessage_drops_record_just_saved :
  let calls := map (save_at 1000) (countdown 101) in
  let file := save_all calls Blank in
  let kept := keys (stored_mapping file) in
  List.length calls = 101%nat
  /\ NoDup (map save_id calls)
  /\ hd "" (map save_id calls) = "100"
  /\ last (map save_id calls) "" = "0"
  /\ List.length kept = 100%nat
  /\ In "100" kept
  /\ ~ In "0" kept
  /\ kept <> tl (map save_id calls)
  /\ fst (getMessage_file "0" file) = Null
  /\ fst (getMessage_file "100" file)
     = Stored (with_timestamp (bare_message "100") 1000).
Proof.
  intros calls file kept.
  assert (Hlen : List.length calls = 101%nat) by (vm_compute; reflexivity).
  assert (Hnd : distinct (map save_id calls) = true)
    by (vm_compute; reflexivity).
  assert (Hhd : hd "" (map save_id calls) = "100")
    by (vm_compute; reflexivity).
  assert (Hlast : last (map save_id calls) "" = "0")
    by (vm_compute; reflexivity).
  assert (Hkept : List.length kept = 100%nat) by (vm_compute; reflexivity).
  assert (H100 : existsb (String.eqb "100") kept = true)
    by (vm_compute; reflexivity).
  assert (H0 : existsb (String.eqb "0") kept = false)
    by (vm_compute; reflexivity).
  assert (Htl : existsb (String.eqb "100") (tl (map save_id calls)) = false)
    by (vm_compute; reflexivity).
  assert (Hget0 : fst (getMessage_file "0" file) = Null)
    by (vm_compute; reflexivity).
  assert (Hget100 : fst (getMessage_file "100" file)
                    = Stored (with_timestamp (bare_message "100") 1000))
    by (vm_compute; reflexivity).
  clearbody kept file calls.
  repeat split; try assumption.
  - now apply distinct_NoDup.
  - now apply existsb_eqb_In.
  - rewrite <- existsb_eqb_In. congruence.
  - intros Heq. rewrite Heq in H100. congruence.
Qed.

(* ===================================================================== *)
(** ** Keys stay distinct *)
(* ===================================================================== *)

Lemma keys_insert_index (m : mapping) (key : string) (n : Z) (v : MJMessage) :
  Permutation (key :: keys m) (keys (insert_index m key n v)).
Proof.
  induction m as [| [k old] rest IH]; simpl; [reflexivity |].
  destruct (array_index k) as [n' |]; [| reflexivity].
  destruct (n' <? n); [| reflexivity].
  simpl. rewrite perm_swap. now apply perm_skip.
Qed.

Lemma get_own_insert_index (m : mapping) (key : string) (n : Z) (v : MJMessage) :
  ~ In key (keys m) -> get_own (insert_index m key n v) key = Some v.
Proof.
  induction m as [| [k old] rest IH]; simpl; intros H.
  - now rewrite String.eqb_refl.
  - assert (E : (k =? key)%string = false) by (apply String.eqb_neq; tauto).
    destruct (array_index k) as [n' |]; [destruct (n' <? n) |]; simpl;
      rewrite ?E, ?String.eqb_refl; try reflexivity.
    apply IH. tauto.
Qed.

Lemma get_own_app_new (m : mapping) (key : string) (v : MJMessage) :
  ~ In key (keys m) -> get_own (m ++ [(key, v)]) key = Some v.
Proof.
  induction m as [| [k old] rest IH]; simpl; intros H.
  - now rewrite String.eqb_refl.
  - assert (E : (k =? key)%string = false) by (apply String.eqb_neq; tauto).
    rewrite E. apply IH. tauto.
Qed.

Lemma set_property_NoDup (m : mapping) (key : string) (v : MJMessage) :
  NoDup (keys m) -> NoDup (keys (set_property m key v)).
Proof.
  intros H. unfold set_property.
  destruct (has_own m key) eqn:Hown.
  - now rewrite keys_replace_own.
  - apply has_own_false in Hown.
    destruct (key =? "__proto__")%string; [assumption |].
    destruct (array_index key) as [n |].
    + eapply Permutation_NoDup; [apply keys_insert_index |].
      now constructor.
    + unfold keys. rewrite map_app. simpl.
      apply NoDup_app; [exact H | repeat constructor; intros [] |].
      intros ? Hin.
      destruct 1 as [<- | []]. contradiction.
Qed.

(** After the assignment the key reads back as the value assigned, unless
    the key is [__proto__] and was not an own property. *)
Lemma get_own_set_property (m : mapping) (key : string) (v : MJMessage) :
  In key (keys m) \/ key <> "__proto__" ->
  get_own (set_property m key v) key = Some v.
Proof.
  intros H. unfold set_property.
  destruct (has_own m key) eqn:Hown.
  - apply get_own_replace_own. now apply has_own_true.
  - apply has_own_false in Hown. destruct H as [H | H]; [contradiction |].
    apply String.eqb_neq in H. rewrite H.
    destruct (array_index key) as [n |].
    + now apply get_own_insert_index.
    + now apply get_own_app_new.
Qed.

Lemma NoDup_keys_sublist (dropped kept : mapping) :
  NoDup (keys (dropped ++ kept)) -> NoDup (keys kept).
Proof.
  unfold keys. rewrite map_app. apply NoDup_app_remove_l.
Qed.

Lemma filter_keys_NoDup (p : string * MJMessage -> bool) (m : mapping) :
  NoDup (keys m) -> NoDup (keys (filter p m)).
Proof.
  induction m as [| [k v] rest IH]; simpl; intros H; [constructor |].
  inversion H as [| ? ? Hk Hrest]; subst.
  destruct (p (k, v)); simpl; [| now apply IH].
  constructor; [| now apply IH].
  intros Hin. apply Hk. unfold keys in *.
  apply in_map_iff in Hin as [e [He Hin]]. apply filter_In in Hin as [Hin _].
  apply in_map_iff. now exists e.
Qed.

Lemma cleanedMessages_NoDup (now : Z) (m : mapping) :
  NoDup (keys m) -> NoDup (keys (cleanedMessages now m)).
Proof.
  intros H. unfold cleanedMessages.
  destruct (slice_last_suffix MAX_STORAGE_SIZE (filter (within_age now) m))
    as [dropped Hd].
  apply NoDup_keys_sublist with (dropped := dropped). rewrite <- Hd.
  now apply filter_keys_NoDup.
Qed.

(** The keys of the stored mapping stay distinct across [saveMessage]. *)
Lemma saveMessage_file_NoDup
    (id : string) (data : MJMessage) (stamp now : Z) (file : storage_file) :
  NoDup (keys (stored_mapping file)) ->
  NoDup (keys (stored_mapping (saveMessage_file id data stamp now file))).
Proof.
  intros H. rewrite stored_mapping_saveMessage_file.
  now apply cleanedMessages_NoDup, set_property_NoDup.
Qed.

(* ===================================================================== *)
(** ** Array indices *)
(* ===================================================================== *)

Lemma is_digit_value (c : ascii) :
  is_digit c = true -> 0 <= digit_value c <= 9.
Proof.
  unfold is_digit, digit_value. intros H.
  apply andb_true_iff in H as [H1 H2]. apply N.leb_le in H1, H2. lia.
Qed.

Lemma digit_value_inj (c1 c2 : ascii) :
  digit_value c1 = digit_value c2 -> c1 = c2.
Proof.
  unfold digit_value. intros H.
  rewrite <- (ascii_N_embedding c1), <- (ascii_N_embedding c2).
  f_equal. lia.
Qed.

(** Reading the same digits from another accumulator shifts the value. *)
Lemma all_digits_value_shift (s : string) (acc acc' v : Z) :
  all_digits_value acc s = Some v ->
  all_digits_value acc' s =
  Some (v + (acc' - acc) * 10 ^ Z.of_nat (String.length s)).
Proof.
  revert acc acc' v. induction s as [| c s IH]; intros acc acc' v H;
    cbn [all_digits_value String.length] in *.
  - injection H as <-. f_equal. lia.
  - destruct (is_digit c); [| discriminate].
    rewrite (IH _ (10 * acc' + digit_value c) _ H).
    f_equal. rewrite Nat2Z.inj_succ, Z.pow_succ_r by lia. ring.
Qed.

Lemma all_digits_value_bound (s : string) (r : Z) :
  all_digits_value 0 s = Some r -> 0 <= r < 10 ^ Z.of_nat (String.length s).
Proof.
  revert r. induction s as [| c s IH]; intros r H;
    cbn [all_digits_value String.length] in *.
  - injection H as <-. lia.
  - destruct (is_digit c) eqn:Hc; [| discriminate].
    pose proof (is_digit_value c Hc) as Hd.
    pose proof (all_digits_value_shift s _ 0 _ H) as H0.
    apply IH in H0.
    rewrite Nat2Z.inj_succ, Z.pow_succ_r by lia. nia.
Qed.

(** A numeral whose first digit is not 0 is at least the power of ten of
    its length less one. *)
Lemma all_digits_value_leading (c : ascii) (s : string) (r : Z) :
  c <> "0"%char ->
  all_digits_value 0 (String c s) = Some r ->
  10 ^ Z.of_nat (String.length s) <= r.
Proof.
  intros Hc H. cbn [all_digits_value] in H.
  destruct (is_digit c) eqn:Hd; [| discriminate].
  pose proof (is_digit_value c Hd) as Hv.
  assert (Hnz : digit_value c <> 0).
  { intros Hz. apply Hc. apply digit_value_inj. rewrite Hz. reflexivity. }
  pose proof (all_digits_value_shift s _ 0 _ H) as H0.
  apply all_digits_value_bound in H0. nia.
Qed.

Lemma all_digits_value_inj (s1 : string) :
  forall (s2 : string) (acc v : Z),
    String.length s1 = String.length s2 ->
    all_digits_value acc s1 = Some v ->
    all_digits_value acc s2 = Some v ->
    s1 = s2.
Proof.
  induction s1 as [| c1 s1 IH]; intros [| c2 s2] acc v Hlen H1 H2;
    cbn [all_digits_value String.length] in *; try discriminate;
    [reflexivity |].
  destruct (is_digit c1) eqn:Hc1; [| discriminate].
  destruct (is_digit c2) eqn:Hc2; [| discriminate].
  pose proof (is_digit_value c1 Hc1) as Hd1.
  pose proof (is_digit_value c2 Hc2) as Hd2.
  injection Hlen as Hlen.
  pose proof (all_digits_value_shift s1 _ 0 _ H1) as B1.
  pose proof (all_digits_value_shift s2 _ 0 _ H2) as B2.
  apply all_digits_value_bound in B1, B2. rewrite <- Hlen in B2.
  assert (Hd : digit_value c1 = digit_value c2) by nia.
  apply digit_value_inj in Hd. subst c2. f_equal.
  now apply (IH s2 (10 * acc + digit_value c1) v).
Qed.

(** Two keys with the same array index are the same key. *)
Lemma array_index_inj (a b : string) (n : Z) :
  array_index a = Some n -> array_index b = Some n -> a = b.
Proof.
  assert (Hcanon : forall k m, array_index k = Some m ->
            (k = "0" /\ m = 0)
            \/ (exists c s, k = String c s /\ c <> "0"%char
                            /\ all_digits_value 0 k = Some m)).
  { intros [| c s] m; cbn [array_index]; [intros [=] |].
    destruct (Ascii.eqb_spec c "0"%char) as [-> | Hc].
    - destruct s; [| intros [=]]. intros [= <-]. now left.
    - destruct (all_digits_value 0 (String c s)) as [r |] eqn:E;
        [| discriminate].
      destruct (r <=? 4294967294); [| discriminate].
      intros [= <-]. right. now exists c, s. }
  intros Ha Hb. apply Hcanon in Ha, Hb.
  destruct Ha as [[-> ->] | [ca [sa [-> [Hca Ha]]]]];
    destruct Hb as [[-> Hb] | [cb [sb [-> [Hcb Hb]]]]].
  - reflexivity.
  - pose proof (all_digits_value_leading cb sb _ Hcb Hb).
    assert (0 < 10 ^ Z.of_nat (String.length sb)) by (apply Z.pow_pos_nonneg; lia).
    lia.
  - subst n. pose proof (all_digits_value_leading ca sa _ Hca Ha).
    assert (0 < 10 ^ Z.of_nat (String.length sa)) by (apply Z.pow_pos_nonneg; lia).
    lia.
  - apply (all_digits_value_inj _ _ 0 n); [| assumption | assumption].
    pose proof (all_digits_value_leading ca sa _ Hca Ha) as La.
    pose proof (all_digits_value_leading cb sb _ Hcb Hb) as Lb.
    pose proof (all_digits_value_bound _ _ Ha) as Ba.
    pose proof (all_digits_value_bound _ _ Hb) as Bb.
    simpl String.length in *.
    rewrite Nat2Z.inj_succ in Ba, Bb.
    assert (Hlen : Z.of_nat (String.length sa) = Z.of_nat (String.length sb)).
    { destruct (Z.lt_trichotomy (Z.of_nat (String.length sa))
                                (Z.of_nat (String.length sb))) as [Hlt | [Heq | Hgt]];
        [exfalso | assumption | exfalso].
      - assert (10 ^ Z.succ (Z.of_nat (String.length sa))
                <= 10 ^ Z.of_nat (String.length sb))
          by (apply Z.pow_le_mono_r; lia).
        lia.
      - assert (10 ^ Z.succ (Z.of_nat (String.length sb))
                <= 10 ^ Z.of_nat (String.length sa))
          by (apply Z.pow_le_mono_r; lia).
        lia. }
    f_equal. lia.
Qed.

(* ===================================================================== *)
(** ** Enumeration order *)
(* ===================================================================== *)

Lemma enumerates_before_to_plain (a k : string) :
  array_index k = None -> enumerates_before a k.
Proof.
  intros Hk. unfold enumerates_before. rewrite Hk.
  now destruct (array_index a).
Qed.

Lemma enumerates_before_trans (a b c : string) :
  enumerates_before a b -> enumerates_before b c -> enumerates_before a c.
Proof.
  unfold enumerates_before.
  destruct (array_index a), (array_index b), (array_index c);
    try tauto; lia.
Qed.

Lemma enumeration_order_app (l r : list string) :
  enumeration_order (l ++ r) -> enumeration_order l /\ enumeration_order r.
Proof.
  induction l as [| k l IH]; simpl; intros H.
  - split; [constructor | assumption].
  - inversion H as [| ? ? Hall Hrest]; subst.
    destruct (IH Hrest) as [Hl Hr]. split; [| assumption].
    constructor; [| assumption].
    apply Forall_app in Hall. tauto.
Qed.

Lemma enumeration_order_before_last (l : list string) (k : string) :
  enumeration_order (l ++ [k]) -> Forall (fun a => enumerates_before a k) l.
Proof.
  induction l as [| a l IH]; simpl; intros H; constructor.
  - inversion H as [| ? ? Hall _]; subst.
    apply Forall_app in Hall as [_ Hk]. now inversion Hk.
  - apply IH. now inversion H.
Qed.

Lemma enumeration_order_snoc_plain (l : list string) (k : string) :
  enumeration_order l -> array_index k = None -> enumeration_order (l ++ [k]).
Proof.
  intros Hl Hk. induction Hl as [| a rest Hall Hrest IH]; simpl.
  - constructor; constructor.
  - constructor; [| assumption].
    apply Forall_app. split; [assumption |].
    constructor; [| constructor]. now apply enumerates_before_to_plain.
Qed.

Lemma keys_filter_Forall (P : string -> Prop)
    (p : string * MJMessage -> bool) (m : mapping) :
  Forall P (keys m) -> Forall P (keys (filter p m)).
Proof.
  induction m as [| e m IH]; simpl; intros H; [constructor |].
  inversion H; subst. destruct (p e); simpl; [constructor |]; auto.
Qed.

Lemma enumeration_order_filter (p : string * MJMessage -> bool) (m : mapping) :
  enumeration_order (keys m) -> enumeration_order (keys (filter p m)).
Proof.
  induction m as [| e m IH]; simpl; intros H; [constructor |].
  inversion H as [| ? ? Hall Hrest]; subst.
  destruct (p e); simpl; [| now apply IH].
  constructor; [now apply keys_filter_Forall | now apply IH].
Qed.

Lemma enumeration_order_insert_index
    (m : mapping) (key : string) (n : Z) (v : MJMessage) :
  array_index key = Some n -> ~ In key (keys m) ->
  enumeration_order (keys m) ->
  enumeration_order (keys (insert_index m key n v)).
Proof.
  intros Hkey. induction m as [| [k old] rest IH]; simpl; intros Hnew Hord.
  - constructor; constructor.
  - inversion Hord as [| ? ? Hall Hrest]; subst.
    assert (Hfront : forall n', array_index k = Some n' -> n <= n' ->
              enumeration_order (key :: k :: keys rest)).
    { intros n' Hk Hle.
      assert (Hlt : n < n').
      { destruct (Z.eq_dec n n') as [<- |]; [| lia].
        exfalso. apply Hnew. left. now apply (array_index_inj k key n). }
      assert (Hb : enumerates_before key k).
      { unfold enumerates_before. now rewrite Hkey, Hk. }
      constructor; [| assumption].
      constructor; [assumption |].
      eapply Forall_impl; [| exact Hall].
      intros a Ha. now apply enumerates_before_trans with (b := k). }
    destruct (array_index k) as [n' |] eqn:Hk.
    + destruct (n' <? n) eqn:E.
      * simpl. constructor.
        -- eapply Permutation_Forall; [apply keys_insert_index |].
           constructor; [| assumption].
           unfold enumerates_before. rewrite Hk, Hkey.
           now apply Z.ltb_lt.
        -- apply IH; [tauto | assumption].
      * apply (Hfront n'); [reflexivity |]. now apply Z.ltb_ge.
    + simpl. constructor; [| assumption].
      constructor.
      * unfold enumerates_before. now rewrite Hkey, Hk.
      * eapply Forall_impl; [| exact Hall].
        intros a Ha. unfold enumerates_before in *. rewrite Hkey.
        rewrite Hk in Ha. now destruct (array_index a).
Qed.

(** The assignment keeps the entries in enumeration order. *)
Lemma set_property_enumerated (m : mapping) (key : string) (v : MJMessage) :
  enumerated m -> enumerated (set_property m key v).
Proof.
  intros [Hnd Hord]. split; [now apply set_property_NoDup |].
  unfold set_property. destruct (has_own m key) eqn:Hown.
  - now rewrite keys_replace_own.
  - apply has_own_false in Hown.
    destruct (key =? "__proto__")%string; [assumption |].
    destruct (array_index key) as [n |] eqn:Hkey.
    + now apply enumeration_order_insert_index.
    + unfold keys. rewrite map_app. now apply enumeration_order_snoc_plain.
Qed.

Lemma cleanedMessages_enumerated (now : Z) (m : mapping) :
  enumerated m -> enumerated (cleanedMessages now m).
Proof.
  intros [Hnd Hord]. split; [now apply cleanedMessages_NoDup |].
  unfold cleanedMessages.
  destruct (slice_last_suffix MAX_STORAGE_SIZE (filter (within_age now) m))
    as [dropped Hd].
  pose proof (enumeration_order_filter (within_age now) m Hord) as Hf.
  rewrite Hd in Hf. unfold keys in Hf. rewrite map_app in Hf.
  now apply enumeration_order_app in Hf.
Qed.

(** What [saveMessage] persists is the enumeration of an object whenever
    what it read was one. *)
Lemma saveMessage_file_enumerated
    (id : string) (data : MJMessage) (stamp now : Z) (file : storage_file) :
  enumerated (stored_mapping file) ->
  enumerated (stored_mapping (saveMessage_file id data stamp now file)).
Proof.
  intros H. rewrite stored_mapping_saveMessage_file.
  now apply cleanedMessages_enumerated, set_property_enumerated.
Qed.

(** Every store made by [saveMessage] calls from an empty store holds the
    enumeration of an object. *)
Lemma save_all_enumerated (calls : list save_call) (file : storage_file) :
  enumerated (stored_mapping file) ->
  enumerated (stored_mapping (save_all calls file)).
Proof.
  revert file. induction calls as [| c calls IH]; intros file H;
    [exact H |].
  simpl. apply IH. unfold save_step. now apply saveMessage_file_enumerated.
Qed.

Lemma insert_index_last (m : mapping) (key : string) (n : Z) (v : MJMessage) :
  array_index key = Some n ->
  Forall (fun a => enumerates_before a key) (keys m) ->
  insert_index m key n v = m ++ [(key, v)].
Proof.
  intros Hkey. induction m as [| [k old] rest IH]; simpl; intros H;
    [reflexivity |].
  inversion H as [| ? ? Hk Hrest]; subst.
  unfold enumerates_before in Hk. rewrite Hkey in Hk.
  destruct (array_index k) as [n' |]; [| contradiction].
  apply Z.ltb_lt in Hk. rewrite Hk. f_equal. now apply IH.
Qed.

(** Creating properties from the enumeration of an object gives this
    enumeration again. *)
Lemma Object_fromEntries_enumerated (m : mapping) :
  enumerated m -> Object_fromEntries m = m.
Proof.
  unfold Object_fromEntries.
  induction m as [| [k v] m IH] using rev_ind; [reflexivity |].
  intros [Hnd Hord]. unfold keys in Hnd, Hord. rewrite map_app in Hnd, Hord.
  simpl in Hnd, Hord.
  rewrite fold_left_app. simpl. rewrite IH.
  2: { split; [exact (NoDup_app_remove_r _ _ Hnd) |].
       now apply enumeration_order_app in Hord. }
  unfold define_property.
  assert (Hnew : has_own m k = false).
  { apply has_own_false. apply NoDup_remove_2 in Hnd.
    now rewrite app_nil_r in Hnd. }
  rewrite Hnew.
  destruct (array_index k) as [n |] eqn:Hk; [| reflexivity].
  apply insert_index_last; [assumption |].
  now apply enumeration_order_before_last.
Qed.

(* ===================================================================== *)
(** ** Put, then get *)
(* ===================================================================== *)

Lemma getMessage_file_stored (id : string) (file : storage_file) :
  fst (getMessage_file id file) = get_property (stored_mapping file) id.
Proof. destruct file; reflexivity. Qed.

(** A record that [saveMessage] wrote and that survived its clean-up is
    what [getMessage] returns: the record saved, with the timestamp of the
    store. *)
Lemma getMessage_after_saveMessage
    (id : string) (data : MJMessage) (stamp now : Z) (file : storage_file) :
  NoDup (keys (stored_mapping file)) ->
  In id (keys (stored_mapping (saveMessage_file id data stamp now file))) ->
  fst (getMessage_file id (saveMessage_file id data stamp now file)) =
  Stored (with_timestamp data stamp).
Proof.
  intros Hnd Hin. rewrite getMessage_file_stored.
  pose proof (saveMessage_file_NoDup id data stamp now file Hnd) as Hnd'.
  revert Hin Hnd'. rewrite stored_mapping_saveMessage_file.
  set (written := set_property (stored_mapping file) id
                    (with_timestamp data stamp)).
  intros Hin Hnd'. unfold keys in Hin.
  apply in_map_iff in Hin as [[k v] [Hk Hin]]. simpl in Hk. subst k.
  unfold get_property. rewrite (get_own_unique _ _ _ Hnd' Hin).
  f_equal. apply cleanedMessages_In in Hin as [Hin _].
  assert (Hw : NoDup (keys written)) by now apply set_property_NoDup.
  apply (get_own_unique _ _ _ Hw) in Hin.
  assert (Hset : get_own written id = Some (with_timestamp data stamp)).
  { apply get_own_set_property.
    destruct (has_own (stored_mapping file) id) eqn:Hown.
    - left. now apply has_own_true.
    - right. intros ->. apply get_own_In in Hin.
      unfold written, set_property in Hin. rewrite Hown in Hin. simpl in Hin.
      apply has_own_false in Hown. apply Hown.
      change "__proto__" with (fst ("__proto__", v)). now apply in_map. }
  congruence.
Qed.

(** An id that is not a key of the stored mapping, and is not the name of
    an inherited member, reads as [null]. *)
Lemma getMessage_unknown (id : string) (file : storage_file) :
  ~ In id (keys (stored_mapping file)) -> inherited id = false ->
  fst (getMessage_file id file) = Null.
Proof.
  intros Hin Hinh. rewrite getMessage_file_stored. unfold get_property.
  now rewrite get_own_absent, Hinh.
Qed.

(** [getMessage] returns and never throws. *)
Lemma getMessage_returns (id : string) (w : world) :
  exists found w', getMessage id w = (Returned found, w').
Proof.
  unfold getMessage. destruct (getMessage_file id (storage w)) as [found file].
  now exists found, (set_storage file w).
Qed.

(** C5 (code bug).  [getMessage] of an id that was never stored: on a blank
    store, and on a store that holds another job, the id ["toString"] is
    not answered by [null] but by the member of that name that the
    [messages] object inherits. *)
Theorem getMessage_unknown_id_inherited :
  fst (getMessage_file "toString" Blank) = Inherited "toString"
  /\ fst (getMessage_file "toString" Blank) <> Null
  /\ fst (getMessage_file "toString"
            (saveMessage_file "job-1" (bare_message "job-1") 1000 1000 Blank))
     = Inherited "toString"
  /\ fst (getMessage "toString" (ready_world Blank))
     = Returned (Inherited "toString").
Proof.
  repeat split; try reflexivity. discriminate.
Qed.

(* ===================================================================== *)
(** ** Writing an id that is already stored *)
(* ===================================================================== *)

Lemma cleanedMessages_all_fresh (start now : Z) (m : mapping) :
  stamped_since start m -> now <= start + MAX_STORAGE_AGE_MS ->
  cleanedMessages now m = slice_last MAX_STORAGE_SIZE m.
Proof.
  intros Hs Hn. unfold cleanedMessages. rewrite filter_all; [reflexivity |].
  intros [k v] Hin. destruct (Hs k v Hin) as [t [Ht Hlo]].
  now apply within_age_in_window with (start := start) (t := t).
Qed.

(** C10.  Writing an id that the store already holds replaces its record
    and leaves the order of the keys as it was.  So on a full store of 100
    fresh entries, updating the first key [k0] and then saving a new id
    evicts [k0], the entry just updated, and keeps the 99 entries that were
    first inserted after it. *)
Theorem saveMessage_update_keeps_position :
  (forall (id : string) (data : MJMessage) (stamp now : Z) (file : storage_file),
      In id (keys (stored_mapping file)) ->
      let written :=
        set_property (stored_mapping file) id (with_timestamp data stamp) in
      keys written = keys (stored_mapping file)
      /\ get_own written id = Some (with_timestamp data stamp)
      /\ stored_mapping (saveMessage_file id data stamp now file) =
         slice_last MAX_STORAGE_SIZE (filter (within_age now) written))
  /\
  (forall (start : Z) (k0 : string) (v0 : MJMessage) (rest : mapping)
          (d0 : MJMessage) (s0 n0 : Z)
          (knew : string) (dnew : MJMessage) (s1 n1 : Z),
      List.length rest = 99%nat ->
      NoDup (k0 :: keys rest ++ [knew]) ->
      plain_key knew ->
      stamped_since start ((k0, v0) :: rest) ->
      start <= s0 -> n0 <= start + MAX_STORAGE_AGE_MS ->
      start <= s1 -> n1 <= start + MAX_STORAGE_AGE_MS ->
      let updated := saveMessage_file k0 d0 s0 n0 (Doc ((k0, v0) :: rest)) in
      let final := saveMessage_file knew dnew s1 n1 updated in
      keys (stored_mapping updated) = k0 :: keys rest
      /\ get_own (stored_mapping updated) k0 = Some (with_timestamp d0 s0)
      /\ keys (stored_mapping final) = keys rest ++ [knew]
      /\ ~ In k0 (keys (stored_mapping final))).
Proof.
  split.
  - intros id data stamp now file Hin written. subst written.
    rewrite set_property_own by assumption.
    split; [apply keys_replace_own |].
    split; [now apply get_own_replace_own |].
    rewrite stored_mapping_saveMessage_file, set_property_own by assumption.
    reflexivity.
  - intros start k0 v0 rest d0 s0 n0 knew dnew s1 n1
      Hlen Hnd Hplain Hsince Hs0 Hn0 Hs1 Hn1 updated final.
    assert (Hrest : stamped_since start rest).
    { intros k v Hin. apply (Hsince k v). now right. }
    assert (Hupd : stored_mapping updated = (k0, with_timestamp d0 s0) :: rest).
    { subst updated. rewrite stored_mapping_saveMessage_file.
      assert (Hw : set_property (stored_mapping (Doc ((k0, v0) :: rest))) k0
                     (with_timestamp d0 s0)
                   = (k0, with_timestamp d0 s0) :: rest).
      { unfold set_property, stored_mapping. simpl.
        now rewrite String.eqb_refl. }
      rewrite Hw.
      rewrite cleanedMessages_all_fresh with (start := start);
        [| | assumption].
      - apply slice_last_short. simpl. rewrite Hlen.
        unfold MAX_STORAGE_SIZE. lia.
      - intros k v [Hin | Hin]; [| now apply (Hrest k v)].
        injection Hin as <- <-. exists s0. now split. }
    assert (Hk0 : ~ In k0 (keys rest ++ [knew])) by now inversion Hnd.
    assert (Hfin : stored_mapping final =
                   rest ++ [(knew, with_timestamp dnew s1)]).
    { subst final. rewrite stored_mapping_saveMessage_file, Hupd.
      rewrite set_property_plain; [| assumption |].
      - rewrite cleanedMessages_all_fresh with (start := start);
          [| | assumption].
        + unfold slice_last. simpl List.length.
          rewrite length_app, Hlen. reflexivity.
        + intros k v [Hin | Hin].
          * injection Hin as <- <-. exists s0. now split.
          * apply in_app_or in Hin as [Hin | [Hin | []]];
              [now apply (Hrest k v) |].
            injection Hin as <- <-. exists s1. now split.
      - simpl. intros [-> | Hin].
        + apply Hk0, in_or_app. right. now left.
        + inversion Hnd as [| ? ? _ Hnd']; subst.
          apply NoDup_remove_2 in Hnd'. rewrite app_nil_r in Hnd'.
          contradiction. }
    assert (Hkeys : keys (rest ++ [(knew, with_timestamp dnew s1)]) =
                    keys rest ++ [knew]).
    { unfold keys. now rewrite map_app. }
    rewrite Hupd, Hfin, Hkeys. simpl. rewrite String.eqb_refl.
    repeat split. exact Hk0.
Qed.

Lemma stamped_entries_since (t : Z) (ids : list string) :
  stamped_since t (stamped_entries t ids).
Proof.
  intros k v Hin. apply in_map_iff in Hin as [i [Hi _]].
  injection Hi as <- <-. exists t. split; [reflexivity | lia].
Qed.

(** Witness of C10: the store holds ["job-0"] to ["job-99"], written at
    time 1000; ["job-0"] is updated at time 2000 and ["job-100"] is saved
    at time 3000. *)
Lemma saveMessage_update_keeps_position_witness :
  let rest := stamped_entries 1000 (tl (job_ids 100)) in
  let v0 := with_timestamp (bare_message "job-0") 1000 in
  let updated :=
    saveMessage_file "job-0" (bare_message "job-0") 2000 2000
      (Doc (("job-0", v0) :: rest)) in
  let final :=
    saveMessage_file "job-100" (bare_message "job-100") 3000 3000 updated in
  keys (stored_mapping updated) = "job-0" :: keys rest
  /\ get_own (stored_mapping updated) "job-0" =
     Some (with_timestamp (bare_message "job-0") 2000)
  /\ keys (stored_mapping final) = keys rest ++ ["job-100"]
  /\ ~ In "job-0" (keys (stored_mapping final)).
Proof.
  apply (proj2 saveMessage_update_keeps_position 1000 "job-0"
           (with_timestamp (bare_message "job-0") 1000)
           (stamped_entries 1000 (tl (job_ids 100)))
           (bare_message "job-0") 2000 2000
           "job-100" (bare_message "job-100") 3000 3000).
  - vm_compute. reflexivity.
  - apply distinct_NoDup. vm_compute. reflexivity.
  - apply plain_keyb_sound. vm_compute. reflexivity.
  - apply (stamped_entries_since 1000 ("job-0" :: tl (job_ids 100))).
  - lia.
  - rewrite MAX_STORAGE_AGE_MS_value. lia.
  - lia.
  - rewrite MAX_STORAGE_AGE_MS_value. lia.
Defined.

(* ===================================================================== *)
(** ** Resilient invoker *)
(* ===================================================================== *)

(** The loop of [safeCall] unrolled: what it returns and the world it
    leaves, by the answers of [mj.Custom] to the successive attempts. *)
Lemma safeCall_unrolled (env : environment) (params : custom_params)
    (w : world) :
  let w1 := called params w in
  let w2 := called params (slept 3000 w1) in
  let w3 := called params (slept 3000 w2) in
  safeCall env params w =
    match mj_Custom env (tick w) params with
    | Returned result => (Returned result, w1)
    | Thrown _ =>
        match mj_Custom env (tick w1) params with
        | Returned result => (Returned result, w2)
        | Thrown _ =>
            match mj_Custom env (tick w2) params with
            | Returned result => (Returned result, w3)
            | Thrown err => (Thrown err, w3)
            end
        end
    end.
Proof.
  intros w1 w2 w3.
  unfold safeCall, safeCall_with.
  change (Z.to_nat (2 + 1)) with 3%nat.
  unfold safeCall_loop, try_catch, bind, sleep, throw, ret, Custom_call.
  simpl. fold (called params w). fold w1.
  destruct (mj_Custom env (tick w) params) as [r0 | e0]; [reflexivity |].
  fold (slept 3000 w1). fold (called params (slept 3000 w1)). fold w2.
  change (S (tick w)) with (tick w1).
  destruct (mj_Custom env (tick w1) params) as [r1 | e1]; [reflexivity |].
  fold (slept 3000 w2). fold (called params (slept 3000 w2)). fold w3.
  change (S (tick w1)) with (tick w2).
  destruct (mj_Custom env (tick w2) params) as [r2 | e2]; reflexivity.
Qed.

(** C2.  [safeCall] calls [mj.Custom] at most three times.  The first
    answer that is not an exception is returned at once; after a failed
    first or second attempt it waits 3000 ms and calls again, whatever the
    exception; when the third attempt fails too, the exception of that
    third attempt is thrown to the caller. *)
Theorem safeCall_three_attempts (env : environment) (params : custom_params)
    (w : world) :
  let w1 := called params w in
  let w2 := called params (slept 3000 w1) in
  let w3 := called params (slept 3000 w2) in
  safeCall env params w =
    match mj_Custom env (tick w) params with
    | Returned result => (Returned result, w1)
    | Thrown _ =>
        match mj_Custom env (tick w1) params with
        | Returned result => (Returned result, w2)
        | Thrown _ =>
            match mj_Custom env (tick w2) params with
            | Returned result => (Returned result, w3)
            | Thrown err => (Thrown err, w3)
            end
        end
    end
  /\ trace w1 = trace w ++ [Custom params]
  /\ trace w2 = trace w ++ [Custom params; Sleep 3000; Custom params]
  /\ trace w3 = trace w ++ [Custom params; Sleep 3000; Custom params;
                            Sleep 3000; Custom params].
Proof.
  intros w1 w2 w3. split; [apply safeCall_unrolled |].
  subst w1 w2 w3. unfold called, slept, consulted, logged. simpl.
  rewrite <- !app_assoc. simpl. repeat split.
Qed.

(** [safeCall] only adds events to the trace. *)
Lemma safeCall_trace (env : environment) (params : custom_params) (w : world) :
  exists added, trace (snd (safeCall env params w)) = trace w ++ added.
Proof.
  rewrite safeCall_unrolled.
  destruct (mj_Custom env (tick w) params);
    [exists [Custom params]; reflexivity |].
  destruct (mj_Custom env (tick (called params w)) params).
  { exists [Custom params; Sleep 3000; Custom params]. simpl.
    now rewrite <- !app_assoc. }
  exists [Custom params; Sleep 3000; Custom params; Sleep 3000; Custom params].
  destruct (mj_Custom env _ params); simpl; now rewrite <- !app_assoc.
Qed.

(** The bound on the iterations of the model is never what ends the loop
    of [safeCall]: more fuel changes nothing. *)
Lemma safeCall_loop_fuel (env : environment) (params : custom_params)
    (extra : nat) (w : world) :
  safeCall_loop env (3 + extra) params 2 3000 0 w = safeCall env params w.
Proof.
  unfold safeCall, safeCall_with.
  change (Z.to_nat (2 + 1)) with 3%nat.
  simpl. unfold try_catch, bind, sleep, throw, ret, Custom_call. simpl.
  destruct (mj_Custom env (tick w) params); [reflexivity |].
  destruct (mj_Custom env (S (tick w)) params); [reflexivity |].
  destruct (mj_Custom env (S (S (tick w))) params); [reflexivity |].
  reflexivity.
Qed.

(* ===================================================================== *)
(** ** Session manager *)
(* ===================================================================== *)

(** C8.  [initializeMidjourney] does nothing when the session is already
    initialized.  Otherwise it connects at most three times: a failed first
    attempt is followed by a wait of 3000 ms and a failed second attempt by
    a wait of 6000 ms, and only when the failure is [ENOTFOUND]; any other
    failure, and the failure of the third attempt, is thrown at once.  A
    call that returns leaves the session initialized, so that a second call
    does nothing. *)
Theorem initializeMidjourney_contract (env : environment) (w : world) :
  let c1 := connected w in
  let c2 := connected (slept 3000 c1) in
  let c3 := connected (slept 6000 c2) in
  initializeMidjourney env w =
    (if mjInitialized w then (Returned tt, w)
     else
       match mj_init env (tick w) with
       | None => (Returned tt, set_initialized true c1)
       | Some e1 =>
           if is_ENOTFOUND e1 then
             match mj_init env (tick c1) with
             | None => (Returned tt, set_initialized true c2)
             | Some e2 =>
                 if is_ENOTFOUND e2 then
                   match mj_init env (tick c2) with
                   | None => (Returned tt, set_initialized true c3)
                   | Some e3 => (Thrown e3, c3)
                   end
                 else (Thrown e2, c2)
             end
           else (Thrown e1, c1)
       end)
  /\ trace c1 = trace w ++ [Connect]
  /\ trace c2 = trace w ++ [Connect; Sleep 3000; Connect]
  /\ trace c3 = trace w ++ [Connect; Sleep 3000; Connect; Sleep 6000; Connect]
  /\ match initializeMidjourney env w with
     | (Returned _, w') =>
         mjInitialized w' = true
         /\ initializeMidjourney env w' = (Returned tt, w')
     | (Thrown _, w') => mjInitialized w' = mjInitialized w
     end.
Proof.
  intros c1 c2 c3.
  assert (Heq : initializeMidjourney env w =
    (if mjInitialized w then (Returned tt, w)
     else
       match mj_init env (tick w) with
       | None => (Returned tt, set_initialized true c1)
       | Some e1 =>
           if is_ENOTFOUND e1 then
             match mj_init env (tick c1) with
             | None => (Returned tt, set_initialized true c2)
             | Some e2 =>
                 if is_ENOTFOUND e2 then
                   match mj_init env (tick c2) with
                   | None => (Returned tt, set_initialized true c3)
                   | Some e3 => (Thrown e3, c3)
                   end
                 else (Thrown e2, c2)
             end
           else (Thrown e1, c1)
       end)).
  { unfold initializeMidjourney.
    destruct (mjInitialized w); [reflexivity |].
    change (Z.to_nat maxRetries) with 3%nat.
    unfold connect_loop, try_catch, bind, sleep, throw, ret, init_call,
      maxRetries, baseDelay.
    change (tick c1) with (S (tick w)).
    change (tick c2) with (S (S (tick w))).
    simpl. fold (connected w). fold c1.
    destruct (mj_init env (tick w)) as [e1 |]; [| reflexivity].
    destruct (is_ENOTFOUND e1); simpl; [| reflexivity].
    fold (slept 3000 c1). fold (connected (slept 3000 c1)). fold c2.
    destruct (mj_init env (S (tick w))) as [e2 |]; [| reflexivity].
    destruct (is_ENOTFOUND e2); simpl; [| reflexivity].
    fold (slept 6000 c2). fold (connected (slept 6000 c2)). fold c3.
    destruct (mj_init env (S (S (tick w)))) as [e3 |]; [| reflexivity].
    rewrite andb_false_r. reflexivity. }
  split; [exact Heq |].
  split; [reflexivity |].
  split; [subst c1 c2; unfold connected, slept, consulted, logged; simpl;
          now rewrite <- !app_assoc |].
  split; [subst c1 c2 c3; unfold connected, slept, consulted, logged; simpl;
          now rewrite <- !app_assoc |].
  rewrite Heq.
  destruct (mjInitialized w) eqn:Hinit.
  - split; [assumption |]. unfold initializeMidjourney. now rewrite Hinit.
  - destruct (mj_init env (tick w)) as [e1 |]; [| now split].
    destruct (is_ENOTFOUND e1); [| exact Hinit].
    destruct (mj_init env (tick c1)) as [e2 |]; [| now split].
    destruct (is_ENOTFOUND e2); [| exact Hinit].
    destruct (mj_init env (tick c2)) as [e3 |]; [| now split].
    exact Hinit.
Qed.

(** The bound on the iterations of the model is never what ends the loop
    of [initializeMidjourney]. *)
Lemma connect_loop_fuel (env : environment) (extra : nat) (w : world) :
  connect_loop env (3 + extra) 0 w = connect_loop env 3 0 w.
Proof.
  simpl. unfold try_catch, bind, sleep, throw, ret, init_call. simpl.
  destruct (mj_init env (tick w)) as [e1 |]; [| reflexivity].
  destruct (is_ENOTFOUND e1); simpl; [| reflexivity].
  destruct (mj_init env (S (tick w))) as [e2 |]; [| reflexivity].
  destruct (is_ENOTFOUND e2); simpl; [| reflexivity].
  destruct (mj_init env (S (S (tick w)))) as [e3 |]; [| reflexivity].
  rewrite !andb_false_r. reflexivity.
Qed.

(* ===================================================================== *)
(** ** Rounding to a double *)
(* ===================================================================== *)

Lemma pow2_pos (e : Z) : (0 < pow2 e)%Q.
Proof. apply Qpower_0_lt. reflexivity. Qed.

Lemma pow2_add (a b : Z) : (pow2 (a + b) == pow2 a * pow2 b)%Q.
Proof. apply Qpower_plus. discriminate. Qed.

Lemma pow2_nonneg (e : Z) : 0 <= e -> (pow2 e == inject_Z (2 ^ e))%Q.
Proof. intros H. unfold pow2. now rewrite Zpower_Qpower. Qed.

Lemma pow2_le (a b : Z) : a <= b -> (pow2 a <= pow2 b)%Q.
Proof. intros H. apply Qpower_le_compat_l; [assumption | discriminate]. Qed.

Lemma pow2_lt_inv (a b : Z) : (pow2 a < pow2 b)%Q -> a < b.
Proof. intros H. apply (Qpower_lt_compat_l_inv 2); [exact H | reflexivity]. Qed.

Lemma pow2_cancel (e : Z) : (pow2 (- e) * pow2 e == 1)%Q.
Proof. rewrite <- pow2_add. now replace (- e + e) with 0 by lia. Qed.

(** [Qlog2] is the floor of the binary logarithm. *)
Lemma Qlog2_spec (x : Q) :
  (0 < x)%Q -> (pow2 (Qlog2 x) <= x < pow2 (Qlog2 x + 1))%Q.
Proof.
  intros Hx. unfold Qlog2.
  destruct x as [p q]. unfold Qlt in Hx. simpl in Hx.
  assert (Hp : 0 < p) by lia.
  cbn [Qnum Qden].
  set (lp := Z.log2 p). set (lq := Z.log2 (Z.pos q)).
  destruct (Z.log2_spec p Hp) as [Hp1 Hp2]. fold lp in Hp1, Hp2.
  destruct (Z.log2_spec (Z.pos q) eq_refl) as [Hq1 Hq2]. fold lq in Hq1, Hq2.
  assert (Hlp : 0 <= lp) by apply Z.log2_nonneg.
  assert (Hlq : 0 <= lq) by apply Z.log2_nonneg.
  assert (Hx' : (p # q == inject_Z p / inject_Z (Z.pos q))%Q)
    by apply Qmake_Qdiv.
  assert (Hqpos : (0 < inject_Z (Z.pos q))%Q) by reflexivity.
  assert (HP1 : (pow2 lp <= inject_Z p)%Q)
    by (rewrite pow2_nonneg by assumption; now rewrite <- Zle_Qle).
  assert (HP2 : (inject_Z p < pow2 (lp + 1))%Q).
  { rewrite pow2_nonneg by lia. rewrite <- Zlt_Qlt.
    now replace (lp + 1) with (Z.succ lp) by lia. }
  assert (HQ1 : (pow2 lq <= inject_Z (Z.pos q))%Q)
    by (rewrite pow2_nonneg by assumption; now rewrite <- Zle_Qle).
  assert (HQ2 : (inject_Z (Z.pos q) < pow2 (lq + 1))%Q).
  { rewrite pow2_nonneg by lia. rewrite <- Zlt_Qlt.
    now replace (lq + 1) with (Z.succ lq) by lia. }
  assert (Hmul : (inject_Z p == (p # q) * inject_Z (Z.pos q))%Q).
  { rewrite Hx'. field. discriminate. }
  (* the two outer bounds *)
  assert (Hup : (p # q < pow2 (lp - lq + 1))%Q).
  { apply Qmult_lt_r with (z := pow2 lq); [apply pow2_pos |].
    rewrite <- pow2_add. replace (lp - lq + 1 + lq) with (lp + 1) by lia.
    eapply Qle_lt_trans; [| exact HP2]. rewrite Hmul.
    apply Qmult_le_l; [| exact HQ1].
    unfold Qlt. simpl. lia. }
  assert (Hlow : (pow2 (lp - lq - 1) < p # q)%Q).
  { apply Qmult_lt_r with (z := pow2 (lq + 1)); [apply pow2_pos |].
    rewrite <- pow2_add. replace (lp - lq - 1 + (lq + 1)) with lp by lia.
    eapply Qle_lt_trans; [exact HP1 |]. rewrite Hmul.
    apply Qmult_lt_l; [| exact HQ2].
    unfold Qlt. simpl. lia. }
  destruct (Qle_bool (pow2 (lp - lq)) (p # q)) eqn:E.
  - apply Qle_bool_iff in E. split; assumption.
  - assert (E' : ~ (pow2 (lp - lq) <= p # q)%Q).
    { intros H. apply Qle_bool_iff in H. congruence. }
    apply Qnot_le_lt in E'.
    replace (lp - lq - 1 + 1) with (lp - lq) by lia.
    split; [now apply Qlt_le_weak | assumption].
Qed.

Lemma Qlog2_lt (x : Q) (k : Z) :
  (0 < x)%Q -> (x < pow2 k)%Q -> Qlog2 x < k.
Proof.
  intros Hx H. apply pow2_lt_inv.
  eapply Qle_lt_trans; [apply (Qlog2_spec x Hx) | exact H].
Qed.

Lemma Qlog2_le (x : Q) (k : Z) :
  (0 < x)%Q -> (pow2 k <= x)%Q -> k <= Qlog2 x.
Proof.
  intros Hx H. cut (k < Qlog2 x + 1); [lia |]. apply pow2_lt_inv.
  eapply Qle_lt_trans; [exact H | apply (Qlog2_spec x Hx)].
Qed.

(** Rounding to the nearest integer does not cross an integer, nor the
    middle of two integers. *)
Lemma round_half_even_cases (x : Q) :
  let f := Qfloor x in
  (round_half_even x = f /\ (x - inject_Z f <= 1 # 2)%Q)
  \/ (round_half_even x = f + 1 /\ (1 # 2 <= x - inject_Z f)%Q).
Proof.
  cbv zeta. unfold round_half_even.
  destruct (x - inject_Z (Qfloor x) ?= 1 # 2)%Q eqn:E.
  - apply Qeq_alt in E. destruct (Z.even (Qfloor x));
      [left | right]; split; try reflexivity; rewrite E; apply Qle_refl.
  - apply Qlt_alt in E. left. split; [reflexivity | now apply Qlt_le_weak].
  - apply Qgt_alt in E. right. split; [reflexivity | now apply Qlt_le_weak].
Qed.

Lemma Qfloor_bounds (x : Q) :
  (inject_Z (Qfloor x) <= x < inject_Z (Qfloor x) + 1)%Q.
Proof.
  split; [apply Qfloor_le |].
  change 1%Q with (inject_Z 1). rewrite <- inject_Z_plus. apply Qlt_floor.
Qed.

Lemma round_half_even_below (x : Q) (z : Z) :
  (x < inject_Z z + (1 # 2))%Q -> round_half_even x <= z.
Proof.
  intros H. pose proof (Qfloor_bounds x) as [Hlo Hhi].
  assert (Hf : Qfloor x <= z).
  { cut (Qfloor x < z + 1); [lia |]. rewrite Zlt_Qlt, inject_Z_plus.
    change (inject_Z 1) with 1%Q. lra. }
  destruct (round_half_even_cases x) as [[-> _] | [-> Hhalf]]; [exact Hf |].
  cut (Qfloor x < z); [lia |]. rewrite Zlt_Qlt. lra.
Qed.

Lemma round_half_even_le (x : Q) (z : Z) :
  (x <= inject_Z z)%Q -> round_half_even x <= z.
Proof. intros H. apply round_half_even_below. lra. Qed.

Lemma round_half_even_ge (x : Q) (z : Z) :
  (inject_Z z <= x)%Q -> z <= round_half_even x.
Proof.
  intros H. pose proof (Qfloor_bounds x) as [Hlo Hhi].
  assert (Hf : z <= Qfloor x).
  { cut (z < Qfloor x + 1); [lia |]. rewrite Zlt_Qlt, inject_Z_plus.
    change (inject_Z 1) with 1%Q. lra. }
  destruct (round_half_even_cases x) as [[-> _] | [-> _]]; lia.
Qed.

Lemma binary64_positive (x : Q) :
  (0 < x)%Q ->
  binary64 x =
  (inject_Z (round_half_even (x / pow2 (last_bit x))) * pow2 (last_bit x))%Q.
Proof.
  intros H. unfold binary64. apply Qgt_alt in H. now rewrite H.
Qed.

Lemma binary64_zero (x : Q) : (x == 0)%Q -> binary64 x = 0%Q.
Proof. intros H. unfold binary64. apply Qeq_alt in H. now rewrite H. Qed.

(** A double is not crossed: rounding a positive [x] that is at most [y]
    stays at most [y] when [y] is a multiple of the last bit of [x]. *)
Lemma binary64_le_multiple (x y : Q) (m : Z) :
  (0 < x)%Q -> (x <= y)%Q ->
  (y == inject_Z m * pow2 (last_bit x))%Q ->
  (binary64 x <= y)%Q.
Proof.
  intros Hx Hxy Hy. rewrite binary64_positive by assumption.
  pose proof (pow2_pos (last_bit x)) as He.
  rewrite Hy. apply Qmult_le_compat_r; [| now apply Qlt_le_weak].
  rewrite <- Zle_Qle. apply round_half_even_le.
  apply Qle_shift_div_r; [assumption |]. now rewrite <- Hy.
Qed.

Lemma binary64_nonneg (x : Q) : (0 <= x)%Q -> (0 <= binary64 x)%Q.
Proof.
  intros H. destruct (Qlt_le_dec 0 x) as [Hpos | Hle].
  - rewrite binary64_positive by assumption.
    pose proof (pow2_pos (last_bit x)) as He.
    apply Qmult_le_0_compat; [| now apply Qlt_le_weak].
    change 0%Q with (inject_Z 0). rewrite <- Zle_Qle.
    apply round_half_even_ge. change (inject_Z 0) with 0%Q.
    apply Qle_shift_div_l; [assumption |]. lra.
  - rewrite binary64_zero by lra. apply Qle_refl.
Qed.

Lemma last_bit_le (x : Q) (k : Z) :
  (0 < x)%Q -> (x < pow2 k)%Q -> -1074 <= k - 53 -> last_bit x <= k - 53.
Proof.
  intros Hx H Hk. unfold last_bit.
  pose proof (Qlog2_lt x k Hx H). lia.
Qed.

(** An integer multiple of [2^k] is a multiple of every smaller power. *)
Lemma multiple_of_last_bit (n k e : Z) :
  e <= k ->
  (inject_Z n * pow2 k == inject_Z (n * 2 ^ (k - e)) * pow2 e)%Q.
Proof.
  intros H. rewrite inject_Z_mult, <- pow2_nonneg by lia.
  rewrite <- Qmult_assoc, <- pow2_add.
  now replace (k - e + e) with k by lia.
Qed.

Lemma binary64_le_5000 (x : Q) : (0 <= x <= 5000)%Q -> (binary64 x <= 5000)%Q.
Proof.
  intros [Hlo Hhi]. destruct (Qlt_le_dec 0 x) as [Hpos | Hle].
  2: { rewrite binary64_zero by lra. discriminate. }
  assert (He : last_bit x <= 0).
  { assert (H : last_bit x <= 13 - 53);
      [apply last_bit_le; [assumption | | lia] | lia].
    eapply Qle_lt_trans; [exact Hhi | reflexivity]. }
  apply (binary64_le_multiple x 5000 (5000 * 2 ^ (0 - last_bit x)));
    [assumption | assumption |].
  rewrite <- multiple_of_last_bit by assumption.
  change (pow2 0) with 1%Q. ring.
Qed.

(** The product of 5000 and a number that is at most [1 - 2^-53], the
    largest double below 1, is rounded to a double below 5000. *)
Lemma binary64_lt_5000 (r : Q) :
  (0 <= r)%Q -> (r <= 1 - pow2 (-53))%Q -> (binary64 (r * 5000) < 5000)%Q.
Proof.
  intros Hlo Hhi. set (x := (r * 5000)%Q).
  assert (H53 : (pow2 (-53) == 1 # 9007199254740992)%Q) by reflexivity.
  assert (Hx0 : (0 <= x)%Q) by (unfold x; lra).
  destruct (Qlt_le_dec x 4096) as [Hsmall | Hbig].
  - destruct (Qlt_le_dec 0 x) as [Hpos | Hle].
    2: { rewrite binary64_zero by lra. reflexivity. }
    assert (He : last_bit x <= 0).
    { assert (H : last_bit x <= 12 - 53);
        [apply last_bit_le; [assumption | | lia] | lia].
      eapply Qlt_le_trans; [exact Hsmall | discriminate]. }
    apply Qle_lt_trans with (y := 4096%Q); [| reflexivity].
    apply (binary64_le_multiple x 4096 (4096 * 2 ^ (0 - last_bit x)));
      [assumption | now apply Qlt_le_weak |].
    rewrite <- multiple_of_last_bit by assumption.
    change (pow2 0) with 1%Q. ring.
  - assert (Hpos : (0 < x)%Q) by lra.
    assert (Hlog : Qlog2 x = 12).
    { assert (12 <= Qlog2 x)
        by (apply Qlog2_le; [assumption |];
            eapply Qle_trans; [| exact Hbig]; discriminate).
      assert (Qlog2 x < 13).
      { apply Qlog2_lt; [assumption |].
        apply Qle_lt_trans with (y := 5000%Q); [unfold x; lra | reflexivity]. }
      lia. }
    rewrite binary64_positive by assumption.
    unfold last_bit. rewrite Hlog. change (Z.max (-1074) (12 - 52)) with (-40).
    assert (H40 : (pow2 (-40) == 1 # 1099511627776)%Q) by reflexivity.
    assert (Hround : round_half_even (x / pow2 (-40))
                     <= 5000 * 1099511627776 - 1).
    { apply round_half_even_below. rewrite H40.
      setoid_replace (x / (1 # 1099511627776))%Q
        with (x * 1099511627776)%Q by (field).
      change (inject_Z (5000 * 1099511627776 - 1))
        with (5497558138879999 # 1)%Q.
      unfold x. lra. }
    rewrite Zle_Qle in Hround.
    change (inject_Z (5000 * 1099511627776 - 1))
      with (5497558138879999 # 1)%Q in Hround.
    set (m := inject_Z (round_half_even (x / pow2 (-40)))) in *.
    rewrite H40. lra.
Qed.

(** A double in [0, 1) is at most [1 - 2^-53]. *)
Lemma is_draw_below_one (r : Q) : is_draw r -> (r <= 1 - pow2 (-53))%Q.
Proof.
  intros [[Hlo Hhi] Hdouble].
  assert (H53 : (pow2 (-53) == 1 # 9007199254740992)%Q) by reflexivity.
  destruct (Qlt_le_dec r (1 # 2)) as [Hsmall | Hbig]; [lra |].
  assert (Hpos : (0 < r)%Q) by lra.
  assert (Hlog : Qlog2 r = -1).
  { assert (-1 <= Qlog2 r) by (apply Qlog2_le; [assumption | exact Hbig]).
    assert (Qlog2 r < 0) by (apply Qlog2_lt; [assumption | exact Hhi]).
    lia. }
  rewrite binary64_positive in Hdouble by assumption.
  unfold last_bit in Hdouble. rewrite Hlog in Hdouble.
  change (Z.max (-1074) (-1 - 52)) with (-53) in Hdouble.
  set (m := round_half_even (r / pow2 (-53))) in *.
  rewrite H53 in Hdouble.
  assert (Hm : m < 9007199254740992).
  { rewrite Zlt_Qlt. change (inject_Z 9007199254740992)
      with (9007199254740992 # 1)%Q. lra. }
  assert (Hm' : (inject_Z m <= 9007199254740991 # 1)%Q).
  { change (9007199254740991 # 1)%Q with (inject_Z 9007199254740991).
    rewrite <- Zle_Qle. lia. }
  rewrite H53. lra.
Qed.

(* ===================================================================== *)
(** ** Pacing *)
(* ===================================================================== *)

Lemma Qfloor_eq_iff (x : Q) (k : Z) :
  Qfloor x = k <-> (inject_Z k <= x < inject_Z k + 1)%Q.
Proof.
  split.
  - intros <-. split; [apply Qfloor_le |].
    change 1%Q with (inject_Z 1).
    rewrite <- inject_Z_plus. apply Qlt_floor.
  - intros [Hlo Hhi]. change 1%Q with (inject_Z 1) in Hhi.
    assert (H1 : k <= Qfloor x).
    { rewrite <- (Qfloor_Z k). now apply Qfloor_resp_le. }
    assert (H2 : Qfloor x < k + 1).
    { rewrite Zlt_Qlt, inject_Z_plus.
      eapply Qle_lt_trans; [apply Qfloor_le | exact Hhi]. }
    lia.
Qed.

(** The random delay is [10000 + k] exactly when the double that the
    product of the draw and 5000 is rounded to lies in [[k, k + 1)]. *)
Lemma random_delay_eq_iff (r : Q) (k : Z) :
  random_delay r = 10000 + k <->
  (inject_Z k <= binary64 (r * 5000) < inject_Z k + 1)%Q.
Proof.
  unfold random_delay. rewrite <- Qfloor_eq_iff. lia.
Qed.

Lemma random_delay_bounds (r : Q) :
  (0 <= r < 1)%Q -> 10000 <= random_delay r <= 15000.
Proof.
  intros [Hlo Hhi]. unfold random_delay.
  assert (H0 : (0 <= binary64 (r * 5000))%Q)
    by (apply binary64_nonneg; lra).
  assert (H5 : (binary64 (r * 5000) <= 5000)%Q)
    by (apply binary64_le_5000; lra).
  assert (H1 : 0 <= Qfloor (binary64 (r * 5000))).
  { rewrite <- (Qfloor_Z 0). now apply Qfloor_resp_le. }
  assert (H2 : Qfloor (binary64 (r * 5000)) <= 5000).
  { rewrite <- (Qfloor_Z 5000). now apply Qfloor_resp_le. }
  lia.
Qed.

(** A draw of [Math.random()], a double below 1, never gives 15000: the
    product is rounded to a double below 5000. *)
Lemma random_delay_range (r : Q) :
  is_draw r -> 10000 <= random_delay r < 15000.
Proof.
  intros Hr. pose proof (is_draw_below_one r Hr) as Hbelow.
  destruct Hr as [[Hlo Hhi] _].
  pose proof (random_delay_bounds r (conj Hlo Hhi)) as [Hmin _].
  split; [exact Hmin |]. unfold random_delay.
  assert (H5 : (binary64 (r * 5000) < 5000)%Q)
    by now apply binary64_lt_5000.
  assert (H2 : Qfloor (binary64 (r * 5000)) < 5000).
  { rewrite Zlt_Qlt. eapply Qle_lt_trans; [apply Qfloor_le | exact H5]. }
  lia.
Qed.

(** The draw 0.9984 (the double nearest to it): the exact product is
    below 4992 and the double it is rounded to is 4992. *)
Example random_delay_rounds_up :
  let r := (4496393867966703 # 4503599627370496)%Q in
  is_draw r
  /\ random_delay r = 14992
  /\ Qfloor (r * 5000) = 4991.
Proof.
  cbv zeta. split; [| split]; [| vm_compute; reflexivity ..].
  split; [split; [discriminate | reflexivity] |].
  vm_compute. reflexivity.
Qed.

Lemma clamped_delay_range (d : jsval) : 10000 <= clamped_delay d <= 15000.
Proof. unfold clamped_delay. lia. Qed.

Lemma clamped_delay_number (n : Z) :
  n <> 0 -> clamped_delay (JNum n) = Z.max 10000 (Z.min n 15000).
Proof.
  intros H. unfold clamped_delay, number_or. simpl.
  apply Z.eqb_neq in H. now rewrite H.
Qed.

Lemma pacing_delay_truthy (env : environment) (d : jsval) (w : world) :
  truthy d = true -> pacing_delay env d w = (Returned (clamped_delay d), w).
Proof. intros H. unfold pacing_delay. now rewrite H. Qed.

Lemma pacing_delay_falsy (env : environment) (d : jsval) (w : world) :
  truthy d = false ->
  pacing_delay env d w =
  (Returned (random_delay (Math_random env (tick w))), consulted w).
Proof. intros H. unfold pacing_delay. now rewrite H. Qed.

(** Every iteration of the upscale loop starts with the wait of the pacing
    delay; what it does to the outside afterwards comes after this wait. *)
Lemma upscale_step_trace (env : environment) (variationMessage : MJMessage)
    (variationOptions : list MJOptions) (d : jsval)
    (results : list upscaled_image) (label : string) (w : world) :
  exists delay later,
    fst (pacing_delay env d w) = Returned delay
    /\ trace (snd (upscale_step env variationMessage variationOptions d
                     results label w))
       = trace w ++ Sleep delay :: later.
Proof.
  unfold upscale_step, bind at 1.
  destruct (pacing_delay env d w) as [[delay | e] w0] eqn:Hp.
  2: { unfold pacing_delay, bind, ret, random_call in Hp.
       destruct (truthy d); discriminate. }
  assert (Hw0 : trace w0 = trace w).
  { unfold pacing_delay, bind, ret, random_call in Hp.
    destruct (truthy d); injection Hp as _ <-; reflexivity. }
  exists delay. simpl fst.
  unfold bind at 1, sleep.
  destruct (find_option variationOptions label) as [upscaleOption |].
  - unfold bind.
    set (params := {| msgId := id variationMessage;
                      msgFlags := flags variationMessage;
                      customId := custom upscaleOption |}).
    destruct (safeCall_trace env params (logged (Sleep delay) w0))
      as [added Hadded].
    exists added.
    destruct (safeCall env params (logged (Sleep delay) w0))
      as [[[upscale |] | e] w'] eqn:Hcall; simpl in Hadded |- *.
    + destruct (negb (truthy_str (image_url upscale))); unfold ret; simpl;
        rewrite Hadded, Hw0, <- app_assoc; split; reflexivity.
    + unfold ret. simpl. rewrite Hadded, Hw0, <- app_assoc. now split.
    + rewrite Hadded, Hw0, <- app_assoc. now split.
  - exists []. unfold ret. simpl. rewrite Hw0. now split.
Qed.

Lemma clamped_delay_reading (d : jsval) (n : Z) :
  parseInt d = Some n -> n <> 0 ->
  clamped_delay d = Z.max 10000 (Z.min n 15000).
Proof.
  intros Hp Hn. unfold clamped_delay, number_or. rewrite Hp.
  apply Z.eqb_neq in Hn. now rewrite Hn.
Qed.

Lemma clamped_delay_no_reading (d : jsval) :
  parseInt d = None \/ parseInt d = Some 0 -> clamped_delay d = 10000.
Proof.
  intros [Hp | Hp]; unfold clamped_delay, number_or; now rewrite Hp.
Qed.

(** C4 (as amended).  A truthy [delayBetweenUpscales] gives, at every
    step, its integer reading clamped into [10000, 15000]: when
    [parseInt] reads it as a non-zero [n] the delay is
    [max 10000 (min n 15000)], and when [parseInt] reads no integer, or 0,
    it is 10000; so a number [n] gives [max 10000 (min n 15000)] and 5000
    gives 10000.  A missing or falsy one (0 included) gives
    [floor (r * 5000) + 10000] for the draw [r] of [Math.random()], the
    product being the double the code computes: a value in [10000, 15000)
    for every draw, the value [10000 + k] exactly when this double lies in
    [[k, k + 1)].  Every step first waits that long; whatever else it does
    to the outside comes after the wait. *)
Theorem pacing_delay_contract (env : environment) (d : jsval) (w : world) :
  (truthy d = true -> plain_number d ->
     pacing_delay env d w = (Returned (clamped_delay d), w)
     /\ 10000 <= clamped_delay d <= 15000
     /\ (forall n, parseInt d = Some n -> n <> 0 ->
                   clamped_delay d = Z.max 10000 (Z.min n 15000))
     /\ (parseInt d = None \/ parseInt d = Some 0 -> clamped_delay d = 10000)
     /\ (forall n, d = JNum n ->
                   clamped_delay d = Z.max 10000 (Z.min n 15000)))
  /\ (truthy d = false ->
        let r := Math_random env (tick w) in
        pacing_delay env d w = (Returned (random_delay r), consulted w)
        /\ (is_draw r -> 10000 <= random_delay r < 15000)
        /\ (forall k, random_delay r = 10000 + k <->
                      (inject_Z k <= binary64 (r * 5000) < inject_Z k + 1)%Q))
  /\ clamped_delay (JNum 5000) = 10000
  /\ (forall (variationMessage : MJMessage) (variationOptions : list MJOptions)
             (results : list upscaled_image) (label : string),
        exists delay later,
          fst (pacing_delay env d w) = Returned delay
          /\ trace (snd (upscale_step env variationMessage variationOptions d
                           results label w))
             = trace w ++ Sleep delay :: later).
Proof.
  split; [| split; [| split]].
  - intros Ht _. split; [now apply pacing_delay_truthy |].
    split; [apply clamped_delay_range |].
    split; [apply clamped_delay_reading |].
    split; [apply clamped_delay_no_reading |].
    intros n ->. apply clamped_delay_number.
    simpl in Ht. apply negb_true_iff, Z.eqb_neq in Ht. exact Ht.
  - intros Hf r. split; [now apply pacing_delay_falsy |].
    split; [apply random_delay_range | apply random_delay_eq_iff].
  - reflexivity.
  - intros. apply upscale_step_trace.
Qed.

(** Witness of C4: the delay 5000 is clamped to 10000, the string
    ["12000 ms"] reads as 12000, and a missing delay with the draw 1/2
    gives 12500, a value in [10000, 15000). *)
Lemma pacing_delay_contract_witness :
  pacing_delay quiet_env (JNum 5000) (ready_world Blank)
    = (Returned 10000, ready_world Blank)
  /\ clamped_delay (JStr "12000 ms") = Z.max 10000 (Z.min 12000 15000)
  /\ pacing_delay quiet_env JUndefined (ready_world Blank)
    = (Returned 12500, consulted (ready_world Blank))
  /\ 10000 <= random_delay (1 # 2) < 15000.
Proof.
  assert (Hplain : plain_number (JNum 5000)) by (vm_compute; reflexivity).
  assert (Hdraw : is_draw (1 # 2)).
  { split; [split; [discriminate | reflexivity] | vm_compute; reflexivity]. }
  split; [| split; [| split]].
  - apply (proj1 (proj1 (pacing_delay_contract quiet_env (JNum 5000)
                           (ready_world Blank)) eq_refl Hplain)).
  - apply (proj1 (proj2 (proj2 (proj1 (pacing_delay_contract quiet_env
                                         (JStr "12000 ms")
                                         (ready_world Blank))
                                  eq_refl I))) 12000 eq_refl).
    discriminate.
  - apply (proj1 (proj1 (proj2 (pacing_delay_contract quiet_env JUndefined
                                  (ready_world Blank))) eq_refl)).
  - apply (proj1 (proj2 (proj1 (proj2 (pacing_delay_contract quiet_env
                                         JUndefined (ready_world Blank)))
                                  eq_refl)) Hdraw).
Defined.

(** Counterexample to C4 as stated: the caller supplies the delay 0 and
    [Math.random()] draws 1/2.  The delay is 12500, not 0 clamped into
    [10000, 15000], which is 10000. *)
Lemma pacing_delay_counterexample :
  pacing_delay quiet_env (JNum 0) (ready_world Blank)
    = (Returned 12500, consulted (ready_world Blank))
  /\ Z.max 10000 (Z.min 0 15000) = 10000
  /\ fst (pacing_delay quiet_env (JNum 0) (ready_world Blank))
     <> Returned (Z.max 10000 (Z.min 0 15000)).
Proof.
  split; [reflexivity |]. split; [reflexivity |]. discriminate.
Qed.


(** The white space that [parseInt] skips is that of the language, not
    of ASCII alone: a delay that starts with a no-break space (U+00A0) or
    a byte order mark (U+FEFF) reads as the number that follows.  A count
    does too. *)
Example parseInt_skips_white_space :
  parseInt (JStr (String "194" (String "160" "12000"))) = Some 12000
  /\ clamped_delay (JStr (String "194" (String "160" "12000"))) = 12000
  /\ parseInt (JStr (String "239" (String "187" (String "191" "12000"))))
     = Some 12000
  /\ parseInt (JStr (String "226" (String "128" (String "168" " 7")))) = Some 7
  /\ count_in_range (JStr (String "194" (String "160" "5"))) = true
  /\ parseInt (JStr (String "226" (String "128" (String "139" "5")))) = None.
Proof. repeat split. Qed.


(* ===================================================================== *)
(** ** GenerateImages *)
(* ===================================================================== *)

Lemma saveMessage_returns (env : environment) (id : string)
    (messageData : MJMessage) (w : world) :
  exists w', saveMessage env id messageData w = (Returned tt, w')
             /\ trace w' = trace w.
Proof.
  unfold saveMessage, bind, now_call. simpl. eexists. split; reflexivity.
Qed.

(** [saveMessage] in the world is [saveMessage_file] at the next two
    readings of the clock. *)
Lemma saveMessage_run (env : environment) (id : string)
    (messageData : MJMessage) (w : world) :
  saveMessage env id messageData w =
  (Returned tt,
   set_storage
     (saveMessage_file id messageData
        (Date_now env (tick w)) (Date_now env (S (tick w))) (storage w))
     (consulted (consulted w))).
Proof. reflexivity. Qed.

(** A request that fails the validation is answered 400 and nothing is
    submitted. *)
Lemma generate_images_validated_rejects (env : environment)
    (req : images_request) (w : world) :
  valid_images_request req = false ->
  exists b, generate_images_validated env req w = (Returned (respond 400 b), w).
Proof.
  unfold valid_images_request, count_in_range, generate_images_validated.
  intros H.
  destruct (truthy_str (keyword req)); simpl in *; [| now eexists].
  destruct (count req) as [| | b | n | s] eqn:Hc; simpl in *;
    try (now eexists).
  - destruct ((1 <=? n) && (n <=? 10)) eqn:E; [discriminate |].
    replace ((n <? 1) || (n >? 10)) with true; [now eexists |].
    symmetry. rewrite Z.gtb_ltb.
    apply andb_false_iff in E as [E | E];
      [apply Z.leb_gt in E | apply Z.leb_gt in E];
      apply orb_true_iff; [left | right]; now apply Z.ltb_lt.
  - destruct (parseInt_string s) as [p |]; [| now eexists].
    destruct ((1 <=? p) && (p <=? 10)) eqn:E; [discriminate |].
    replace ((p <? 1) || (p >? 10)) with true; [now eexists |].
    symmetry. rewrite Z.gtb_ltb.
    apply andb_false_iff in E as [E | E];
      [apply Z.leb_gt in E | apply Z.leb_gt in E];
      apply orb_true_iff; [left | right]; now apply Z.ltb_lt.
Qed.

(** A request that passes the validation submits its prompt once; the
    answer is 200 with [generatedCount] 1 when [mj.Imagine] answers a job,
    and 500 otherwise. *)
Lemma generate_images_validated_accepts (env : environment)
    (req : images_request) (w : world) :
  valid_images_request req = true ->
  exists r w',
    generate_images_validated env req w = (Returned r, w')
    /\ trace w' = trace w ++ [Imagine (prompt_of req)]
    /\ match mj_Imagine env (tick w) (prompt_of req) with
       | Returned (Some job) =>
           r = respond 200
                 (Generated (id job) (image_url job)
                    (match options job with
                     | Some opts => labels_of opts
                     | None => []
                     end) 1)
       | Returned None =>
           r = respond 500
                 (Failure "MidJourney failed to respond to the imagine request"
                    None None)
       | Thrown e => r = respond 500 (Failure (message e) None None)
       end.
Proof.
  unfold valid_images_request, count_in_range, generate_images_validated.
  intros H. apply andb_true_iff in H as [Hk Hc]. rewrite Hk. simpl.
  assert (Hu : match count req with JUndefined => true | _ => false end = false).
  { destruct (count req); simpl in Hc; try reflexivity. discriminate. }
  rewrite Hu.
  destruct (parseInt (count req)) as [p |]; [| discriminate].
  apply andb_true_iff in Hc as [H1 H10].
  apply Z.leb_le in H1, H10.
  replace ((p <? 1) || (p >? 10)) with false.
  2: { symmetry. rewrite Z.gtb_ltb. apply orb_false_iff.
       split; apply Z.ltb_ge; assumption. }
  fold (prompt_of req).
  unfold try_catch, bind at 1, Imagine_call.
  destruct (mj_Imagine env (tick w) (prompt_of req)) as [[job |] | e].
  - destruct (saveMessage_returns env (id job) job
                (consulted (logged (Imagine (prompt_of req)) w)))
      as [w' [Hsave Htrace]].
    unfold bind. rewrite Hsave. unfold ret.
    eexists. exists w'. split; [reflexivity |].
    split; [exact Htrace | reflexivity].
  - unfold throw, ret. eexists. eexists. split; [reflexivity |].
    split; reflexivity.
  - unfold ret. eexists. eexists. split; [reflexivity |].
    split; reflexivity.
Qed.

(** C6 (as amended).  Once the session is ready, [GenerateImages] answers
    400, and submits nothing, to every request whose keyword is missing or
    empty or whose count does not read, with [parseInt], as an integer
    between 1 and 10 (so to the counts 0 and 11); a count that is a number
    is a plain one, which reads as itself.  To every other request it
    submits exactly one generation job whatever the count; the answer to a
    job that came back is 200 with [generatedCount] 1, also for the
    count 5. *)
Theorem generate_images_validation (env : environment) (req : images_request)
    (w w1 : world) :
  initializeMidjourney env w = (Returned tt, w1) ->
  (plain_number (count req) -> valid_images_request req = false ->
     exists b, generate_images env req w = (Returned (respond 400 b), w1))
  /\ (valid_images_request req = true ->
        exists r w',
          generate_images env req w = (Returned r, w')
          /\ trace w' = trace w1 ++ [Imagine (prompt_of req)]
          /\ (status r = 200 \/ status r = 500)
          /\ (status r = 200 ->
              exists messageId image labels,
                payload r = Generated messageId image labels 1)
          /\ (forall job,
                mj_Imagine env (tick w1) (prompt_of req) = Returned (Some job) ->
                status r = 200))
  /\ (forall n, plain_number (JNum n) ->
                count_in_range (JNum n) = (1 <=? n) && (n <=? 10))
  /\ count_in_range (JNum 0) = false
  /\ count_in_range (JNum 11) = false
  /\ count_in_range (JNum 5) = true.
Proof.
  intros Hinit. split; [| split; [| repeat split]].
  - intros _ Hbad.
    destruct (generate_images_validated_rejects env req w1 Hbad) as [b Hb].
    exists b. unfold generate_images, try_catch, bind.
    now rewrite Hinit, Hb.
  - intros Hok.
    destruct (generate_images_validated_accepts env req w1 Hok)
      as [r [w' [Hrun [Htrace Hcases]]]].
    exists r, w'. split.
    { unfold generate_images, try_catch, bind. now rewrite Hinit, Hrun. }
    split; [exact Htrace |].
    destruct (mj_Imagine env (tick w1) (prompt_of req)) as [[job |] | e];
      subst r; simpl.
    + split; [now left |]. split; [| reflexivity].
      intros _. now eexists _, _, _.
    + split; [now right |]. split; [discriminate |]. discriminate.
    + split; [now right |]. split; [discriminate |]. discriminate.
Qed.

(** Witness of C6: with the session ready, the count 0 is answered 400,
    and the count 5 submits one job and is answered 200. *)
Lemma generate_images_validation_witness :
  (exists b,
     generate_images u1_failing_env (bicycle_request (JNum 0))
       (ready_world Blank)
     = (Returned (respond 400 b), ready_world Blank))
  /\ (exists r w',
        generate_images u1_failing_env (bicycle_request (JNum 5))
          (ready_world Blank)
        = (Returned r, w')
        /\ trace w' = [Imagine (prompt_of (bicycle_request (JNum 5)))]
        /\ (status r = 200 \/ status r = 500)
        /\ (status r = 200 ->
            exists messageId image labels,
              payload r = Generated messageId image labels 1)
        /\ (forall job,
              mj_Imagine u1_failing_env O (prompt_of (bicycle_request (JNum 5)))
              = Returned (Some job) ->
              status r = 200)).
Proof.
  split.
  - apply (proj1 (generate_images_validation u1_failing_env
                    (bicycle_request (JNum 0))
                    (ready_world Blank) (ready_world Blank) eq_refl)).
    + vm_compute. reflexivity.
    + reflexivity.
  - apply (proj1 (proj2 (generate_images_validation u1_failing_env
                           (bicycle_request (JNum 5))
                           (ready_world Blank) (ready_world Blank) eq_refl))).
    reflexivity.
Defined.

(** Counterexample to C6 as stated: the count is the string
    ["5 bananas"], which is not a number between 1 and 10.  [parseInt]
    reads it as 5: the request is not rejected, one job is submitted and
    the answer is 200. *)
Lemma generate_images_validation_counterexample :
  let run :=
    generate_images u1_failing_env (bicycle_request (JStr "5 bananas"))
      (ready_world Blank) in
  fst run =
    Returned
      (respond 200
         (Generated "job-1" (Some "https://cdn.example/job-1.png")
            ["V1"; "V2"; "V3"; "V4"] 1))
  /\ trace (snd run) =
     [Imagine "a red bicycle --iw 2 --ar 1:1 --v 6 --style raw"]
  /\ status (respond 200
               (Generated "job-1" (Some "https://cdn.example/job-1.png")
                  ["V1"; "V2"; "V3"; "V4"] 1)) <> 400.
Proof.
  vm_compute. repeat split. discriminate.
Qed.

(* ===================================================================== *)
(** ** GenerateUpscaleFromVariation: the look-up of the original job *)
(* ===================================================================== *)

Lemma getMessage_run (id : string) (w : world) :
  getMessage id w =
  (Returned (get_property (stored_mapping (storage w)) id),
   set_storage (snd (loadMessages (storage w))) w).
Proof.
  unfold getMessage, getMessage_file, stored_mapping.
  destruct (storage w); reflexivity.
Qed.

(** The handler, once the session is ready and the request is well
    formed. *)
Lemma generate_upscale_from_variation_ready (env : environment)
    (req : upscale_request) (n : Z) (w w1 : world) :
  initializeMidjourney env w = (Returned tt, w1) ->
  truthy_str (originalMessageId req) = true ->
  variationNumber req = Some n ->
  1 <= n <= 4 ->
  generate_upscale_from_variation env req w =
  try_catch (variation_then_upscale env req)
    (fun error => ret (respond 500 (Failure (message error) None None))) w1.
Proof.
  intros Hinit Hid Hn [Hlo Hhi].
  unfold generate_upscale_from_variation, try_catch, bind.
  rewrite Hinit, Hn, Hid. simpl.
  replace (n <? 1) with false by (symmetry; now apply Z.ltb_ge).
  replace (n >? 4) with false
    by (symmetry; rewrite Z.gtb_ltb; now apply Z.ltb_ge).
  reflexivity.
Qed.

(** C7.  With the session ready and a well-formed request,
    [GenerateUpscaleFromVariation] answers 404 when the store has no record
    under the original id or the record has no options, and answers 404
    with the labels of the options of the record when none of them is
    labelled ["V" ++ n].  In both cases nothing is asked of the outside:
    the trace and the number of consultations are those left by the
    session check. *)
Theorem variation_lookup_not_found (env : environment) (req : upscale_request)
    (n : Z) (w w1 : world) :
  initializeMidjourney env w = (Returned tt, w1) ->
  truthy_str (originalMessageId req) = true ->
  variationNumber req = Some n ->
  1 <= n <= 4 ->
  let stored :=
    get_own (stored_mapping (storage w1)) (text_of (originalMessageId req)) in
  ((stored = None \/ exists m, stored = Some m /\ options m = None) ->
     exists w',
       generate_upscale_from_variation env req w =
       (Returned
          (respond 404
             (Failure "Original message not found or has no options"
                None None)), w')
       /\ trace w' = trace w1 /\ tick w' = tick w1)
  /\ (forall m opts,
        stored = Some m -> options m = Some opts ->
        find_option opts ("V" ++ decimal n) = None ->
        exists w',
          generate_upscale_from_variation env req w =
          (Returned
             (respond 404
                (Failure ("Variation " ++ ("V" ++ decimal n) ++ " not available")
                   None (Some (labels_of opts)))), w')
          /\ trace w' = trace w1 /\ tick w' = tick w1).
Proof.
  intros Hinit Hid Hn Hrange stored.
  rewrite (generate_upscale_from_variation_ready env req n w w1)
    by assumption.
  unfold try_catch, variation_then_upscale, bind.
  rewrite getMessage_run, Hn. unfold get_property, number_text. fold stored.
  split.
  - intros [Hnone | [m [Hsome Hopts]]].
    + rewrite Hnone.
      destruct (inherited (text_of (originalMessageId req)));
        eexists; (split; [reflexivity | split; reflexivity]).
    + rewrite Hsome, Hopts. eexists. split; [reflexivity | split; reflexivity].
  - intros m opts Hsome Hopts Hfind. rewrite Hsome, Hopts, Hfind.
    eexists. split; [reflexivity | split; reflexivity].
Qed.

(** Witness of C7: an id the store does not hold, and a stored job whose
    options are ["U1"] and ["U2"] asked for its variation 2. *)
Lemma variation_lookup_not_found_witness :
  (exists w',
     generate_upscale_from_variation quiet_env (variation_request "job-404" 2)
       (ready_world Blank)
     = (Returned
          (respond 404
             (Failure "Original message not found or has no options"
                None None)), w')
     /\ trace w' = [] /\ tick w' = O)
  /\ (exists w',
        generate_upscale_from_variation quiet_env
          (variation_request "job-1v" 2)
          (ready_world (Doc [("job-1v", variation_job)]))
        = (Returned
             (respond 404
                (Failure "Variation V2 not available" None
                   (Some ["U1"; "U2"]))), w')
        /\ trace w' = [] /\ tick w' = O).
Proof.
  split.
  - destruct (variation_lookup_not_found quiet_env
                (variation_request "job-404" 2) 2
                (ready_world Blank) (ready_world Blank)) as [H _];
      [reflexivity | reflexivity | reflexivity | lia |].
    apply H. left. reflexivity.
  - destruct (variation_lookup_not_found quiet_env
                (variation_request "job-1v" 2) 2
                (ready_world (Doc [("job-1v", variation_job)]))
                (ready_world (Doc [("job-1v", variation_job)]))) as [_ H];
      [reflexivity | reflexivity | reflexivity | lia |].
    apply (H variation_job [ {| label := "U1"; custom := "u1" |};
                             {| label := "U2"; custom := "u2" |} ]);
      reflexivity.
Defined.

(* ===================================================================== *)
(** ** GenerateUpscaleFromVariation: the upscale loop *)
(* ===================================================================== *)

(** When [mj.Custom] never throws, [safeCall] returns its first answer. *)
Lemma safeCall_first_answer (env : environment) (params : custom_params)
    (w : world) :
  (forall k p, exists answer, mj_Custom env k p = Returned answer) ->
  exists answer, safeCall env params w = (Returned answer, called params w).
Proof.
  intros Hquiet. rewrite safeCall_unrolled.
  destruct (Hquiet (tick w) params) as [answer ->]. now exists answer.
Qed.

Lemma pacing_delay_returns (env : environment) (d : jsval) (w : world) :
  exists delay w', pacing_delay env d w = (Returned delay, w').
Proof.
  unfold pacing_delay, bind, ret, random_call.
  destruct (truthy d); now eexists _, _.
Qed.

(** An upscale step in which [mj.Custom] does not throw ends normally,
    with the results it had or with one more: a missing option, a missing
    answer and an answer without image locator are skipped. *)
Lemma upscale_step_returns (env : environment) (variationMessage : MJMessage)
    (variationOptions : list MJOptions) (d : jsval)
    (results : list upscaled_image) (label : string) (w : world) :
  (forall k p, exists answer, mj_Custom env k p = Returned answer) ->
  exists results' w',
    upscale_step env variationMessage variationOptions d results label w
    = (Returned results', w')
    /\ (results' = results \/ exists image, results' = results ++ [image]).
Proof.
  intros Hquiet. unfold upscale_step, bind at 1.
  destruct (pacing_delay_returns env d w) as [delay [w0 ->]].
  unfold bind at 1, sleep.
  destruct (find_option variationOptions label) as [upscaleOption |].
  - unfold bind.
    destruct (safeCall_first_answer env
                {| msgId := id variationMessage;
                   msgFlags := flags variationMessage;
                   customId := custom upscaleOption |}
                (logged (Sleep delay) w0) Hquiet) as [answer ->].
    destruct answer as [upscale |].
    + destruct (negb (truthy_str (image_url upscale))); unfold ret;
        eexists _, _; (split; [reflexivity |]); [now left | right].
      now eexists.
    + unfold ret. eexists _, _. split; [reflexivity | now left].
  - unfold ret. eexists _, _. split; [reflexivity | now left].
Qed.

Lemma upscale_loop_returns (env : environment) (variationMessage : MJMessage)
    (variationOptions : list MJOptions) (d : jsval) (labels : list string) :
  (forall k p, exists answer, mj_Custom env k p = Returned answer) ->
  forall (results : list upscaled_image) (w : world),
  exists results' w',
    upscale_loop env variationMessage variationOptions d labels results w
    = (Returned results', w').
Proof.
  intros Hquiet. induction labels as [| label rest IH]; intros results w.
  - simpl. unfold ret. now eexists _, _.
  - simpl. unfold bind.
    destruct (upscale_step_returns env variationMessage variationOptions d
                results label w Hquiet) as [results1 [w1 [-> _]]].
    apply IH.
Qed.

(** The upscale loop answers 200 in every run in which [mj.Custom] does
    not throw, whatever it answers. *)
Lemma upscale_from_completes (env : environment) (req : upscale_request)
    (variationLabel : string) (variationMessage : MJMessage)
    (variationOptions : list MJOptions) (w : world) :
  (forall k p, exists answer, mj_Custom env k p = Returned answer) ->
  exists r w',
    upscale_from env req variationLabel variationMessage variationOptions w
    = (Returned r, w')
    /\ status r = 200.
Proof.
  intros Hquiet. unfold upscale_from, bind.
  destruct (upscale_loop_returns env variationMessage variationOptions
              (delayBetweenUpscales req) upscaleLabels Hquiet [] w)
    as [results [w' ->]].
  unfold ret. eexists _, _. split; reflexivity.
Qed.

(** C3 (code bug).  The variation ["V1"] of ["job-1"] is created and
    stored, and then [mj.Custom] throws at each of the three attempts for
    ["U1"].  The exception of [safeCall] leaves the loop: the answer is
    500 with the text of the exception, not 200 with the upscales that
    completed, and ["U2"] is never tried. *)
Theorem upscale_exception_aborts_request :
  let run :=
    generate_upscale_from_variation u1_failing_env u1_failing_request
      u1_failing_world in
  fst run = Returned (respond 500 (Failure "Interaction failed" None None))
  /\ keys (stored_mapping (storage (snd run))) = ["job-1"; "job-1v"]
  /\ trace (snd run) =
     [ Custom {| msgId := "job-1"; msgFlags := 0; customId := "v1" |};
       Sleep 12000;
       Custom {| msgId := "job-1v"; msgFlags := 0; customId := "u1" |};
       Sleep 3000;
       Custom {| msgId := "job-1v"; msgFlags := 0; customId := "u1" |};
       Sleep 3000;
       Custom {| msgId := "job-1v"; msgFlags := 0; customId := "u1" |} ].
Proof.
  vm_compute. repeat split.
Qed.

(* ===================================================================== *)
(** ** One run from end to end *)
(* ===================================================================== *)

(** On a fresh process, images of a red bicycle are generated and job
    ["job-1"] is stored; the upscales of its variation 2 are then asked
    for: the variation ["job-1v"] is created and stored, and both upscales
    complete, each after its pacing wait. *)
Example end_to_end :
  let first := generate_images happy_env (bicycle_request (JNum 1)) fresh_world in
  let second :=
    generate_upscale_from_variation happy_env (variation_request "job-1" 2)
      (snd first) in
  fst first =
    Returned
      (respond 200
         (Generated "job-1" (Some "https://cdn.example/job-1.png")
            ["V1"; "V2"; "V3"; "V4"] 1))
  /\ fst second =
     Returned
       (respond 200
          (Completed "job-1" "V2" "job-1v"
             [ {| upscaled_label := "U1";
                  imageUrl := "https://cdn.example/job-1u.png";
                  upscaleNumber := Some 1 |};
               {| upscaled_label := "U2";
                  imageUrl := "https://cdn.example/job-1u.png";
                  upscaleNumber := Some 2 |} ]
             "random 10-15s"))
  /\ keys (stored_mapping (storage (snd second))) = ["job-1"; "job-1v"]
  /\ trace (snd second) =
     [ Connect;
       Imagine "a red bicycle --iw 2 --ar 1:1 --v 6 --style raw";
       Custom {| msgId := "job-1"; msgFlags := 0; customId := "v2" |};
       Sleep 12500;
       Custom {| msgId := "job-1v"; msgFlags := 0; customId := "u1" |};
       Sleep 12500;
       Custom {| msgId := "job-1v"; msgFlags := 0; customId := "u2" |} ].
Proof.
  vm_compute. repeat split.
Qed.

(* ===================================================================== *)
(** ** The job store: what every save and every look-up keeps *)
(* ===================================================================== *)

Lemma set_property_In (m : mapping) (key : string) (v : MJMessage)
    (e : string * MJMessage) :
  In e (set_property m key v) -> e = (key, v) \/ In e m.
Proof.
  unfold set_property. destruct (has_own m key).
  - induction m as [| [k old] rest IH]; simpl; [tauto |].
    destruct (k =? key)%string eqn:E.
    + apply String.eqb_eq in E. subst k. simpl. intros [<- | H]; tauto.
    + simpl. intros [<- | H]; [tauto |]. destruct (IH H); tauto.
  - destruct (key =? "__proto__")%string; [tauto |].
    destruct (array_index key) as [n |].
    + induction m as [| [k old] rest IH]; simpl; [intros [<- | []]; tauto |].
      destruct (array_index k) as [n' |]; [destruct (n' <? n) |]; simpl;
        intros [<- | H]; tauto.
    + intros H. apply in_app_or in H as [H | [<- | []]]; tauto.
Qed.

Lemma replace_own_In (m : mapping) (key : string) (v : MJMessage) :
  In key (keys m) -> In (key, v) (replace_own m key v).
Proof.
  induction m as [| [k old] rest IH]; simpl; [tauto |].
  intros H. destruct (k =? key)%string eqn:E.
  - apply String.eqb_eq in E. subst k. now left.
  - right. apply IH. destruct H as [H | H]; [| assumption].
    apply String.eqb_neq in E. contradiction.
Qed.

Lemma replace_own_length (m : mapping) (key : string) (v : MJMessage) :
  List.length (replace_own m key v) = List.length m.
Proof.
  induction m as [| [k old] rest IH]; simpl; [reflexivity |].
  destruct (k =? key)%string; simpl; [reflexivity | now rewrite IH].
Qed.

Lemma within_age_stamped (now stamp : Z) (key : string) (data : MJMessage) :
  now - stamp <= MAX_STORAGE_AGE_MS ->
  within_age now (key, with_timestamp data stamp) = true.
Proof.
  intros H. unfold within_age, timestamp_or, number_or. simpl.
  apply Z.leb_le. rewrite MAX_STORAGE_AGE_MS_value in *.
  destruct (stamp =? 0); lia.
Qed.

Lemma filter_length_le {A : Type} (p : A -> bool) (l : list A) :
  (List.length (filter p l) <= List.length l)%nat.
Proof.
  induction l as [| a l IH]; simpl; [lia |]. destruct (p a); simpl; lia.
Qed.

(** A record that [saveMessage] keeps is the one [getMessage] reads. *)
Lemma saved_record_is_read
    (id : string) (data : MJMessage) (stamp now : Z) (file : storage_file) :
  NoDup (keys (stored_mapping file)) ->
  (In id (keys (stored_mapping file))
   /\ (List.length (stored_mapping file) <= MAX_STORAGE_SIZE)%nat)
  \/ (~ In id (keys (stored_mapping file)) /\ plain_key id) ->
  now - stamp <= MAX_STORAGE_AGE_MS ->
  fst (getMessage_file id (saveMessage_file id data stamp now file)) =
  Stored (with_timestamp data stamp).
Proof.
  intros Hnd Hid Hage. apply getMessage_after_saveMessage; [assumption |].
  rewrite stored_mapping_saveMessage_file.
  set (m := stored_mapping file) in *.
  set (rec := with_timestamp data stamp).
  assert (Hfresh : within_age now (id, rec) = true)
    by now apply within_age_stamped.
  apply (in_map fst _ (id, rec)). unfold cleanedMessages.
  destruct Hid as [[Hown Hlen] | [Hnew Hplain]].
  - rewrite set_property_own by assumption.
    rewrite slice_last_short.
    + apply filter_In. split; [now apply replace_own_In | assumption].
    + pose proof (filter_length_le (within_age now) (replace_own m id rec)).
      rewrite replace_own_length in H. lia.
  - rewrite set_property_plain by assumption.
    rewrite filter_app. simpl. rewrite Hfresh.
    rewrite slice_last_app_short by (simpl; unfold MAX_STORAGE_SIZE; lia).
    apply in_or_app. right. now left.
Qed.

(** X1.  Put, then get.  A record saved under an id that the store already
    holds (the store being within its cap), or under a new id that is
    neither an array index nor [__proto__], is what the next [getMessage]
    of this id returns, with the first clock reading as its timestamp,
    provided the second reading is not more than 24 hours after the
    first. *)
Theorem saveMessage_then_getMessage
    (id : string) (data : MJMessage) (stamp now : Z) (file : storage_file) :
  NoDup (keys (stored_mapping file)) ->
  (In id (keys (stored_mapping file))
   /\ (List.length (stored_mapping file) <= MAX_STORAGE_SIZE)%nat)
  \/ (~ In id (keys (stored_mapping file)) /\ plain_key id) ->
  now - stamp <= MAX_STORAGE_AGE_MS ->
  fst (getMessage_file id (saveMessage_file id data stamp now file)) =
  Stored (with_timestamp data stamp).
Proof. exact (saved_record_is_read id data stamp now file). Qed.

(** Witness: a first job saved into a blank store. *)
Lemma saveMessage_then_getMessage_witness :
  fst (getMessage_file "job-1"
         (saveMessage_file "job-1" original_job 2000 2001 Blank)) =
  Stored (with_timestamp original_job 2000).
Proof.
  apply (saveMessage_then_getMessage "job-1" original_job 2000 2001 Blank).
  - constructor.
  - right. split; [intros [] |]. apply plain_keyb_sound. reflexivity.
  - rewrite MAX_STORAGE_AGE_MS_value. lia.
Defined.

Lemma saveMessage_file_In
    (id : string) (data : MJMessage) (stamp now : Z) (file : storage_file)
    (e : string * MJMessage) :
  In e (stored_mapping (saveMessage_file id data stamp now file)) ->
  e = (id, with_timestamp data stamp) \/ In e (stored_mapping file).
Proof.
  rewrite stored_mapping_saveMessage_file. intros H.
  apply cleanedMessages_In in H as [H _]. now apply set_property_In.
Qed.

(** X2.  A save changes no record but the one it writes: every entry of the
    mapping it persists is the record just written under its id, or an
    entry that was stored before, as it was. *)
Theorem saveMessage_touches_one_record
    (id : string) (data : MJMessage) (stamp now : Z) (file : storage_file)
    (k : string) (v : MJMessage) :
  In (k, v) (stored_mapping (saveMessage_file id data stamp now file)) ->
  (k, v) = (id, with_timestamp data stamp)
  \/ In (k, v) (stored_mapping file).
Proof. apply saveMessage_file_In. Qed.

(** Witness: after a second job is saved, the first is as it was. *)
Lemma saveMessage_touches_one_record_witness :
  ("job-1", with_timestamp original_job 2000)
    = ("job-1v", with_timestamp variation_job 3000)
  \/ In ("job-1", with_timestamp original_job 2000)
       (stored_mapping (saveMessage_file "job-1" original_job 2000 2001 Blank)).
Proof.
  apply (saveMessage_touches_one_record "job-1v" variation_job 3000 3001
           (saveMessage_file "job-1" original_job 2000 2001 Blank)).
  vm_compute. left. reflexivity.
Defined.

(** X3.  What [saveMessage] persists is the enumeration of an object whenever
    what it read was one: distinct keys, array indices first in ascending
    order, at most 100 entries.  Creating the object again from these
    entries ([Object.fromEntries], or [JSON.parse] of the document written)
    gives the same enumeration, so that the mapping reloads as it was
    saved. *)
Theorem saveMessage_persists_an_object
    (id : string) (data : MJMessage) (stamp now : Z) (file : storage_file) :
  enumerated (stored_mapping file) ->
  let saved := stored_mapping (saveMessage_file id data stamp now file) in
  enumerated saved
  /\ Object_fromEntries saved = saved
  /\ (List.length saved <= MAX_STORAGE_SIZE)%nat.
Proof.
  intros H saved.
  assert (Hs : enumerated saved) by now apply saveMessage_file_enumerated.
  split; [exact Hs |]. split; [now apply Object_fromEntries_enumerated |].
  subst saved. rewrite stored_mapping_saveMessage_file.
  apply cleanedMessages_length.
Qed.

Lemma enumerated_empty : enumerated [].
Proof. split; constructor. Qed.

(** Witness: the array index ["7"] saved after the plain id ["job-1"]. *)
Lemma saveMessage_persists_an_object_witness :
  let saved :=
    stored_mapping
      (saveMessage_file "7" (bare_message "7") 2000 2001
         (saveMessage_file "job-1" original_job 1000 1001 Blank)) in
  enumerated saved
  /\ Object_fromEntries saved = saved
  /\ (List.length saved <= MAX_STORAGE_SIZE)%nat.
Proof.
  apply (saveMessage_persists_an_object "7" (bare_message "7") 2000 2001
           (saveMessage_file "job-1" original_job 1000 1001 Blank)).
  apply (saveMessage_file_enumerated "job-1" original_job 1000 1001 Blank).
  exact enumerated_empty.
Defined.

(** X4.  Expiry waits for the next save.  [getMessage] applies no age rule: a
    record older than 24 hours is still returned; it is the next
    [saveMessage], of any other id, that removes it. *)
Theorem expired_record_until_next_save
    (file : storage_file) (id : string) (v : MJMessage) (t now : Z)
    (id' : string) (data : MJMessage) (stamp : Z) :
  NoDup (keys (stored_mapping file)) ->
  get_own (stored_mapping file) id = Some v ->
  timestamp v = Some t -> t <> 0 -> now - t > MAX_STORAGE_AGE_MS ->
  id' <> id ->
  fst (getMessage_file id file) = Stored v
  /\ get_own (stored_mapping (saveMessage_file id' data stamp now file)) id
     = None.
Proof.
  intros Hnd Hget Ht Hz Hold Hne. split.
  - rewrite getMessage_file_stored. unfold get_property. now rewrite Hget.
  - apply get_own_absent. intros Hin. unfold keys in Hin.
    apply in_map_iff in Hin as [[k v'] [Hk Hin]]. simpl in Hk. subst k.
    pose proof Hin as Hkept.
    apply saveMessage_file_In in Hin as [Heq | Hold'].
    + injection Heq as Heq _. congruence.
    + apply (get_own_unique _ _ _ Hnd) in Hold'.
      assert (v' = v) by congruence. subst v'.
      revert Hkept. rewrite stored_mapping_saveMessage_file.
      now apply cleanedMessages_drops_expired with (t := t).
Qed.

(** Witness: a job of time 1000 is still read, and is gone once another
    job is saved more than 24 hours later. *)
Lemma expired_record_until_next_save_witness :
  fst (getMessage_file "job-1" (Doc [("job-1", original_job)]))
    = Stored original_job
  /\ get_own
       (stored_mapping
          (saveMessage_file "job-2" (bare_message "job-2")
             90000000 90000000 (Doc [("job-1", original_job)])))
       "job-1"
     = None.
Proof.
  apply (expired_record_until_next_save (Doc [("job-1", original_job)])
           "job-1" original_job 1000 90000000
           "job-2" (bare_message "job-2") 90000000).
  - repeat constructor. intros [].
  - reflexivity.
  - reflexivity.
  - lia.
  - rewrite MAX_STORAGE_AGE_MS_value. lia.
  - discriminate.
Defined.

(** X5.  Reading repairs once, and start-up changes nothing that is
    read.  The file that [loadMessages] leaves is not one it would reset:
    it reads as the same mapping and a second reading does not change it;
    [getMessage] leaves the same file.  [initStorage] leaves a file with
    the mapping [loadMessages] reads, so that the look-ups and the saves
    that follow it are those that would have been without it, and a second
    [initStorage] keeps the file.  It does not spare [loadMessages] its
    repair: it keeps the document [null], which the next reading resets. *)
Theorem loadMessages_repairs (file : storage_file) (id : string)
    (data : MJMessage) (stamp now : Z) :
  let read := fst (loadMessages file) in
  let after := snd (loadMessages file) in
  after <> Unreadable
  /\ after <> JsonNull
  /\ loadMessages after = (read, after)
  /\ snd (getMessage_file id file) = after
  /\ fst (loadMessages (initStorage file)) = read
  /\ fst (getMessage_file id (initStorage file)) = fst (getMessage_file id file)
  /\ saveMessage_file id data stamp now (initStorage file)
     = saveMessage_file id data stamp now file
  /\ initStorage (initStorage file) = initStorage file
  /\ initStorage JsonNull = JsonNull
  /\ loadMessages JsonNull = ([], Doc []).
Proof.
  destruct file; simpl; repeat split; discriminate.
Qed.

(** X6.  The first save into a store that is missing, blank or unparsable
    leaves a document that holds the new record and nothing else. *)
Theorem saveMessage_into_empty_store
    (id : string) (data : MJMessage) (stamp now : Z) (file : storage_file) :
  stored_mapping file = [] ->
  id <> "__proto__" ->
  now - stamp <= MAX_STORAGE_AGE_MS ->
  saveMessage_file id data stamp now file =
  Doc [(id, with_timestamp data stamp)].
Proof.
  intros Hempty Hid Hage. unfold saveMessage_file.
  fold (stored_mapping file). rewrite Hempty.
  assert (Hw : set_property [] id (with_timestamp data stamp)
               = [(id, with_timestamp data stamp)]).
  { unfold set_property. simpl. apply String.eqb_neq in Hid. rewrite Hid.
    now destruct (array_index id). }
  rewrite Hw. unfold cleanedMessages. simpl.
  rewrite within_age_stamped by assumption. reflexivity.
Qed.

(** Witness: the array index ["7"] saved into an unparsable file. *)
Lemma saveMessage_into_empty_store_witness :
  saveMessage_file "7" (bare_message "7") 2000 2001 Unreadable =
  Doc [("7", with_timestamp (bare_message "7") 2000)].
Proof.
  apply (saveMessage_into_empty_store "7" (bare_message "7") 2000 2001
           Unreadable).
  - reflexivity.
  - discriminate.
  - rewrite MAX_STORAGE_AGE_MS_value. lia.
Defined.

(* ===================================================================== *)
(** ** Calls made and state kept, by composition *)
(* ===================================================================== *)

Lemma count_events_app (kind : event -> bool) (l r : list event) :
  count_events kind (l ++ r) = (count_events kind l + count_events kind r)%nat.
Proof. unfold count_events. now rewrite filter_app, length_app. Qed.

Lemma slept_total_app (l r : list event) :
  slept_total (l ++ r) = slept_total l + slept_total r.
Proof.
  induction l as [| e l IH]; simpl; [reflexivity |].
  destruct e; rewrite IH; lia.
Qed.

Lemma adds_refl (w : world) : adds w w 0 0 0.
Proof.
  exists []. rewrite app_nil_r. repeat split; apply Nat.le_refl.
Qed.

Lemma adds_trans (w1 w2 w3 : world) (a b i a' b' i' : nat) :
  adds w1 w2 a b i -> adds w2 w3 a' b' i' ->
  adds w1 w3 (a + a') (b + b') (i + i').
Proof.
  intros [l [Hl [Ha [Hb Hi]]]] [l' [Hl' [Ha' [Hb' Hi']]]].
  exists (l ++ l'). rewrite Hl', Hl, app_assoc, !count_events_app.
  repeat split; lia.
Qed.

Lemma adds_weaken (w w' : world) (a b i a' b' i' : nat) :
  adds w w' a b i -> (a <= a')%nat -> (b <= b')%nat -> (i <= i')%nat ->
  adds w w' a' b' i'.
Proof.
  intros [l [Hl [Ha [Hb Hi]]]] ? ? ?. exists l. repeat split; try lia.
  assumption.
Qed.

Section Composition.

Context {A B : Type}.

Lemma costs_ret (a : A) : costs (ret a) 0 0 0.
Proof. intros w. apply adds_refl. Qed.

Lemma costs_throw (e : error) : costs (@throw A e) 0 0 0.
Proof. intros w. apply adds_refl. Qed.

Lemma costs_weaken (c : M A) (a b i a' b' i' : nat) :
  costs c a b i -> (a <= a')%nat -> (b <= b')%nat -> (i <= i')%nat ->
  costs c a' b' i'.
Proof. intros H ? ? ? w. now apply adds_weaken with a b i. Qed.

Lemma costs_bind (a b i a' b' i' : nat) (c : M A) (k : A -> M B)
    (ta tb ti : nat) :
  costs c a b i -> (forall x, costs (k x) a' b' i') ->
  (a + a' <= ta)%nat -> (b + b' <= tb)%nat -> (i + i' <= ti)%nat ->
  costs (bind c k) ta tb ti.
Proof.
  intros Hc Hk ? ? ? w. unfold bind. specialize (Hc w).
  destruct (c w) as [[x | e] w1]; simpl in Hc.
  - eapply adds_weaken; [eapply adds_trans; [exact Hc | apply Hk] | | |];
      assumption.
  - simpl. eapply adds_weaken; [exact Hc | lia | lia | lia].
Qed.

Lemma costs_try_catch (a b i a' b' i' : nat) (c : M A) (h : error -> M A)
    (ta tb ti : nat) :
  costs c a b i -> (forall e, costs (h e) a' b' i') ->
  (a + a' <= ta)%nat -> (b + b' <= tb)%nat -> (i + i' <= ti)%nat ->
  costs (try_catch c h) ta tb ti.
Proof.
  intros Hc Hh ? ? ? w. unfold try_catch. specialize (Hc w).
  destruct (c w) as [[x | e] w1]; simpl in Hc.
  - simpl. eapply adds_weaken; [exact Hc | lia | lia | lia].
  - eapply adds_weaken; [eapply adds_trans; [exact Hc | apply Hh] | | |];
      assumption.
Qed.

Lemma leaves_state_ret (a : A) : leaves_state (ret a).
Proof. intros w. now split. Qed.

Lemma leaves_state_throw (e : error) : leaves_state (@throw A e).
Proof. intros w. now split. Qed.

Lemma leaves_state_bind (c : M A) (k : A -> M B) :
  leaves_state c -> (forall x, leaves_state (k x)) -> leaves_state (bind c k).
Proof.
  intros Hc Hk w. unfold bind. specialize (Hc w).
  destruct (c w) as [[x | e] w1]; simpl in Hc; [| exact Hc].
  destruct (Hk x w1) as [H1 H2]. destruct Hc as [H3 H4]. split; congruence.
Qed.

Lemma leaves_state_try_catch (c : M A) (h : error -> M A) :
  leaves_state c -> (forall e, leaves_state (h e)) ->
  leaves_state (try_catch c h).
Proof.
  intros Hc Hh w. unfold try_catch. specialize (Hc w).
  destruct (c w) as [[x | e] w1]; simpl in Hc; [exact Hc |].
  destruct (Hh e w1) as [H1 H2]. destruct Hc as [H3 H4]. split; congruence.
Qed.

End Composition.

Lemma costs_sleep (ms : Z) : costs (sleep ms) 0 0 0.
Proof.
  intros w. exists [Sleep ms]. repeat split; unfold count_events; simpl; lia.
Qed.

Lemma costs_Custom_call (env : environment) (params : custom_params) :
  costs (Custom_call env params) 1 0 0.
Proof.
  intros w. exists [Custom params]. repeat split; unfold count_events; simpl; lia.
Qed.

Lemma costs_init_call (env : environment) : costs (init_call env) 0 1 0.
Proof.
  intros w. exists [Connect]. unfold init_call.
  destruct (mj_init env (tick w)); repeat split; unfold count_events; simpl; lia.
Qed.

Lemma costs_Imagine_call (env : environment) (prompt : string) :
  costs (Imagine_call env prompt) 0 0 1.
Proof.
  intros w. exists [Imagine prompt]. repeat split; unfold count_events; simpl; lia.
Qed.

Lemma costs_random_call (env : environment) : costs (random_call env) 0 0 0.
Proof. intros w. apply adds_refl with (w := w). Qed.

Lemma costs_saveMessage (env : environment) (id : string) (data : MJMessage) :
  costs (saveMessage env id data) 0 0 0.
Proof. intros w. apply adds_refl with (w := w). Qed.

Lemma costs_getMessage (id : string) : costs (getMessage id) 0 0 0.
Proof.
  intros w. unfold getMessage.
  destruct (getMessage_file id (storage w)). apply adds_refl with (w := w).
Qed.

Lemma leaves_state_sleep (ms : Z) : leaves_state (sleep ms).
Proof. intros w. now split. Qed.

Lemma leaves_state_Custom_call (env : environment) (params : custom_params) :
  leaves_state (Custom_call env params).
Proof. intros w. now split. Qed.

Lemma leaves_state_random_call (env : environment) :
  leaves_state (random_call env).
Proof. intros w. now split. Qed.

(** The loop of [safeCall], for every budget and delay: it calls [mj.Custom]
    at most once per unit of fuel, and leaves the state as it was. *)
Lemma costs_safeCall_loop (env : environment) (params : custom_params)
    (retries delay : Z) (fuel : nat) :
  forall attempt,
    costs (safeCall_loop env fuel params retries delay attempt) fuel 0 0.
Proof.
  induction fuel as [| fuel IH]; intros attempt; simpl.
  - apply costs_ret.
  - destruct (attempt <=? retries);
      [| eapply costs_weaken; [apply costs_ret | lia | lia | lia]].
    apply (costs_try_catch 1 0 0 fuel 0 0);
      [apply costs_Custom_call | | lia | lia | lia].
    intros err. destruct (attempt =? retries).
    + eapply costs_weaken; [apply costs_throw | lia | lia | lia].
    + apply (costs_bind 0 0 0 fuel 0 0);
        [apply costs_sleep | intros _; apply IH | lia | lia | lia].
Qed.

Lemma leaves_state_safeCall_loop (env : environment) (params : custom_params)
    (retries delay : Z) (fuel : nat) :
  forall attempt,
    leaves_state (safeCall_loop env fuel params retries delay attempt).
Proof.
  induction fuel as [| fuel IH]; intros attempt; simpl.
  - apply leaves_state_ret.
  - destruct (attempt <=? retries); [| apply leaves_state_ret].
    apply leaves_state_try_catch; [apply leaves_state_Custom_call |].
    intros err. destruct (attempt =? retries); [apply leaves_state_throw |].
    apply leaves_state_bind; [apply leaves_state_sleep | intros _; apply IH].
Qed.

Lemma costs_safeCall (env : environment) (params : custom_params) :
  costs (safeCall env params) 3 0 0.
Proof. apply (costs_safeCall_loop env params 2 3000 3 0). Qed.

Lemma leaves_state_safeCall (env : environment) (params : custom_params) :
  leaves_state (safeCall env params).
Proof. apply (leaves_state_safeCall_loop env params 2 3000 3 0). Qed.

Lemma costs_connect_loop (env : environment) (fuel : nat) :
  forall retryCount, costs (connect_loop env fuel retryCount) 0 fuel 0.
Proof.
  induction fuel as [| fuel IH]; intros retryCount; simpl.
  - apply costs_ret.
  - destruct (retryCount <? maxRetries);
      [| eapply costs_weaken; [apply costs_ret | lia | lia | lia]].
    apply (costs_try_catch 0 1 0 0 fuel 0); [| | lia | lia | lia].
    + apply (costs_bind 0 1 0 0 0 0);
        [apply costs_init_call | | lia | lia | lia].
      intros _ w. apply adds_refl with (w := w).
    + intros error.
      destruct (is_ENOTFOUND error && (retryCount + 1 <? maxRetries)).
      * apply (costs_bind 0 0 0 0 fuel 0);
          [apply costs_sleep | intros _; apply IH | lia | lia | lia].
      * eapply costs_weaken; [apply costs_throw | lia | lia | lia].
Qed.

Lemma costs_initializeMidjourney (env : environment) :
  costs (initializeMidjourney env) 0 3 0.
Proof.
  intros w. unfold initializeMidjourney.
  destruct (mjInitialized w).
  - eapply adds_weaken; [apply adds_refl | lia | lia | lia].
  - apply (costs_connect_loop env 3 0 w).
Qed.

(** [initializeMidjourney] never touches the storage file. *)
Lemma initializeMidjourney_storage (env : environment) (w : world) :
  storage (snd (initializeMidjourney env w)) = storage w.
Proof.
  unfold initializeMidjourney. destruct (mjInitialized w); [reflexivity |].
  generalize 0. generalize (Z.to_nat maxRetries). intros fuel. revert w.
  induction fuel as [| fuel IH]; intros w retryCount; simpl; [reflexivity |].
  destruct (retryCount <? maxRetries); [| reflexivity].
  unfold try_catch, bind, init_call.
  destruct (mj_init env (tick w)) as [e |]; [| reflexivity].
  destruct (is_ENOTFOUND e && (retryCount + 1 <? maxRetries));
    [| reflexivity].
  unfold sleep. rewrite IH. reflexivity.
Qed.

(* ===================================================================== *)
(** ** [safeCall] for every budget *)
(* ===================================================================== *)

Lemma safeCall_loop_budget (env : environment) (params : custom_params)
    (retries delay : Z) (fuel : nat) :
  forall (attempt : Z) (w : world),
    Z.of_nat fuel = retries + 1 - attempt ->
    let run := safeCall_loop env fuel params retries delay attempt w in
    exists added,
      trace (snd run) = trace w ++ added
      /\ (count_events is_custom added <= fuel)%nat
      /\ Forall (fun e => e = Custom params \/ e = Sleep delay) added
      /\ (forall e, fst run = Thrown e -> count_events is_custom added = fuel).
Proof.
  induction fuel as [| fuel IH]; intros attempt w Hfuel; simpl.
  - exists []. rewrite app_nil_r.
    split; [reflexivity |]. split; [apply Nat.le_refl |].
    split; [constructor |]. intros e [=].
  - assert (Hle : (attempt <=? retries) = true) by (apply Z.leb_le; lia).
    rewrite Hle. unfold try_catch, Custom_call.
    destruct (mj_Custom env (tick w) params) as [answer | err].
    + exists [Custom params]. simpl.
      split; [reflexivity |].
      split; [unfold count_events; simpl; lia |].
      split; [constructor; [now left | constructor] |].
      intros e [=].
    + destruct (attempt =? retries) eqn:Elast.
      * apply Z.eqb_eq in Elast.
        exists [Custom params]. unfold throw. simpl.
        split; [reflexivity |].
        split; [unfold count_events; simpl; lia |].
        split; [constructor; [now left | constructor] |].
        intros _ _. unfold count_events. simpl. lia.
      * apply Z.eqb_neq in Elast. unfold bind, sleep.
        destruct (IH (attempt + 1)
                    (logged (Sleep delay)
                       (consulted (logged (Custom params) w))))
          as [added [Htrace [Hcount [Hall Hthrown]]]]; [lia |].
        exists (Custom params :: Sleep delay :: added).
        rewrite Htrace. simpl. rewrite <- !app_assoc. simpl.
        split; [reflexivity |].
        split; [unfold count_events in *; simpl; lia |].
        split; [constructor; [now left |]; constructor; [now right |];
                assumption |].
        intros e He. specialize (Hthrown e He).
        unfold count_events in *. simpl. lia.
Qed.

(** X7.  [safeCall(params, retries, delay)], for every budget of retries and
    every delay: with a negative budget it calls nothing and returns
    [undefined]; otherwise it calls [mj.Custom] at most [retries + 1] times,
    does nothing else than these calls and waits of [delay] milliseconds,
    leaves the store alone, and throws only after the whole budget is
    spent. *)
Theorem safeCall_with_budget (env : environment) (params : custom_params)
    (retries delay : Z) (w : world) :
  let run := safeCall_with env params retries delay w in
  exists added,
    trace (snd run) = trace w ++ added
    /\ Z.of_nat (count_events is_custom added) <= Z.max 0 (retries + 1)
    /\ Forall (fun e => e = Custom params \/ e = Sleep delay) added
    /\ storage (snd run) = storage w
    /\ (forall e, fst run = Thrown e ->
                  Z.of_nat (count_events is_custom added) = retries + 1)
    /\ match retries with
       | Z.neg _ => run = (Returned None, w)
       | _ => True
       end.
Proof.
  intros run. subst run. unfold safeCall_with.
  assert (Hstate : storage
            (snd (safeCall_loop env (Z.to_nat (retries + 1)) params retries
                    delay 0 w)) = storage w)
    by apply leaves_state_safeCall_loop.
  destruct (Z.ltb_spec retries 0) as [Hneg | Hpos].
  - assert (Hfuel : Z.to_nat (retries + 1) = O) by lia.
    rewrite Hfuel. simpl. exists []. rewrite app_nil_r.
    split; [reflexivity |].
    split; [unfold count_events; simpl; lia |].
    split; [constructor |]. split; [reflexivity |].
    split; [intros e [=] |].
    destruct retries; try lia. reflexivity.
  - destruct (safeCall_loop_budget env params retries delay
                (Z.to_nat (retries + 1)) 0 w)
      as [added [Htrace [Hcount [Hall Hthrown]]]]; [lia |].
    exists added. split; [exact Htrace |].
    split; [lia |]. split; [exact Hall |]. split; [exact Hstate |].
    split.
    + intros e He. rewrite (Hthrown e He). lia.
    + destruct retries; try exact I. lia.
Qed.

(* ===================================================================== *)
(** ** What a request may ask of the outside *)
(* ===================================================================== *)

Lemma costs_pacing_delay (env : environment) (d : jsval) :
  costs (pacing_delay env d) 0 0 0.
Proof.
  unfold pacing_delay. destruct (truthy d); [apply costs_ret |].
  apply (costs_bind 0 0 0 0 0 0);
    [apply costs_random_call | intros r; apply costs_ret | lia | lia | lia].
Qed.

Lemma costs_upscale_step (env : environment) (variationMessage : MJMessage)
    (variationOptions : list MJOptions) (d : jsval)
    (results : list upscaled_image) (label : string) :
  costs (upscale_step env variationMessage variationOptions d results label)
    3 0 0.
Proof.
  unfold upscale_step.
  apply (costs_bind 0 0 0 3 0 0);
    [apply costs_pacing_delay | intros delayMs | lia | lia | lia].
  apply (costs_bind 0 0 0 3 0 0);
    [apply costs_sleep | intros _ | lia | lia | lia].
  destruct (find_option variationOptions label) as [upscaleOption |];
    [| eapply costs_weaken; [apply costs_ret | lia | lia | lia]].
  apply (costs_bind 3 0 0 0 0 0);
    [apply costs_safeCall | intros upscale | lia | lia | lia].
  destruct upscale as [upscale |]; [| apply costs_ret].
  cbv zeta. destruct (negb (truthy_str (image_url upscale)));
    apply costs_ret.
Qed.

Lemma costs_upscale_loop (env : environment) (variationMessage : MJMessage)
    (variationOptions : list MJOptions) (d : jsval) (labels : list string) :
  forall results,
    costs (upscale_loop env variationMessage variationOptions d labels results)
      (3 * List.length labels) 0 0.
Proof.
  induction labels as [| label rest IH]; intros results; simpl upscale_loop.
  - apply costs_ret.
  - apply (costs_bind 3 0 0 (3 * List.length rest) 0 0);
      [apply costs_upscale_step | intros r; apply IH | simpl; lia | lia | lia].
Qed.

Lemma costs_upscale_from (env : environment) (req : upscale_request)
    (variationLabel : string) (variationMessage : MJMessage)
    (variationOptions : list MJOptions) :
  costs (upscale_from env req variationLabel variationMessage variationOptions)
    6 0 0.
Proof.
  unfold upscale_from.
  apply (costs_bind 6 0 0 0 0 0); [| intros r; apply costs_ret | lia | lia | lia].
  apply (costs_upscale_loop env variationMessage variationOptions
           (delayBetweenUpscales req) upscaleLabels []).
Qed.

Lemma costs_variation_then_upscale (env : environment) (req : upscale_request) :
  costs (variation_then_upscale env req) 9 0 0.
Proof.
  unfold variation_then_upscale.
  apply (costs_bind 0 0 0 9 0 0);
    [apply costs_getMessage | intros originalMessage | lia | lia | lia].
  destruct originalMessage as [| originalMessage | name];
    try (eapply costs_weaken; [apply costs_ret | lia | lia | lia]).
  destruct (options originalMessage) as [originalOptions |];
    [| eapply costs_weaken; [apply costs_ret | lia | lia | lia]].
  cbv zeta.
  destruct (find_option originalOptions _) as [variationOption |];
    [| eapply costs_weaken; [apply costs_ret | lia | lia | lia]].
  apply (costs_bind 3 0 0 6 0 0);
    [apply costs_safeCall | intros variationMessage | lia | lia | lia].
  destruct variationMessage as [variationMessage |];
    [| eapply costs_weaken; [apply costs_ret | lia | lia | lia]].
  destruct (options variationMessage) as [variationOptions |];
    [| eapply costs_weaken; [apply costs_ret | lia | lia | lia]].
  apply (costs_bind 0 0 0 6 0 0);
    [apply costs_saveMessage | intros _; apply costs_upscale_from
    | lia | lia | lia].
Qed.

Lemma costs_generate_images_validated (env : environment)
    (req : images_request) :
  costs (generate_images_validated env req) 0 0 1.
Proof.
  unfold generate_images_validated.
  destruct (negb (truthy_str (keyword req)) || _);
    [eapply costs_weaken; [apply costs_ret | lia | lia | lia] |].
  cbv zeta.
  destruct (match parseInt (count req) with
            | Some p => (p <? 1) || (p >? 10)
            | None => true
            end);
    [eapply costs_weaken; [apply costs_ret | lia | lia | lia] |].
  apply (costs_try_catch 0 0 1 0 0 0); [| intros e; apply costs_ret | lia | lia | lia].
  apply (costs_bind 0 0 1 0 0 0);
    [apply costs_Imagine_call | intros imagineResponse | lia | lia | lia].
  destruct imagineResponse as [imagineResponse |]; [| apply costs_throw].
  apply (costs_bind 0 0 0 0 0 0);
    [apply costs_saveMessage | intros _; apply costs_ret | lia | lia | lia].
Qed.

(** X8.  The calls a request may cost.  Whatever the outside answers, a request
    for images makes at most three connection attempts and one call of
    [mj.Imagine], and no call of [mj.Custom]; a request for upscales makes
    at most three connection attempts and nine calls of [mj.Custom] (three
    for the variation, three for each of the two upscales), and no call of
    [mj.Imagine]. *)
Theorem requests_call_budget (env : environment) (w : world) :
  (forall req,
     adds w (snd (generate_images env req w)) 0 3 1)
  /\ (forall req,
        adds w (snd (generate_upscale_from_variation env req w)) 9 3 0).
Proof.
  split; intros req.
  - unfold generate_images.
    apply (costs_try_catch 0 3 1 0 0 0); [| intros e; apply costs_ret | lia | lia | lia].
    apply (costs_bind 0 3 0 0 0 1);
      [apply costs_initializeMidjourney
      | intros _; apply costs_generate_images_validated | lia | lia | lia].
  - unfold generate_upscale_from_variation.
    apply (costs_try_catch 9 3 0 0 0 0); [| intros e; apply costs_ret | lia | lia | lia].
    apply (costs_bind 0 3 0 9 0 0);
      [apply costs_initializeMidjourney | intros _ | lia | lia | lia].
    destruct (negb (truthy_str (originalMessageId req)) || _);
      [eapply costs_weaken; [apply costs_ret | lia | lia | lia] |].
    apply costs_variation_then_upscale.
Qed.

(* ===================================================================== *)
(** ** Every request is answered *)
(* ===================================================================== *)

Section Answers.

Variable allowed : Z -> Prop.

Lemma answers_ret (r : response) : allowed (status r) -> answers allowed (ret r).
Proof. intros H w. exact H. Qed.

Lemma answers_throw (e : error) : answers allowed (throw e).
Proof. intros w. exact I. Qed.

Lemma answers_bind {A : Type} (c : M A) (k : A -> M response) :
  (forall x, answers allowed (k x)) -> answers allowed (bind c k).
Proof.
  intros Hk w. unfold bind. destruct (c w) as [[x | e] w1]; [| exact I].
  apply Hk.
Qed.

Lemma answers_try_catch (c : M response) (h : error -> M response) :
  answers allowed c -> (forall e, answers allowed (h e)) ->
  answers allowed (try_catch c h).
Proof.
  intros Hc Hh w. unfold try_catch. specialize (Hc w).
  destruct (c w) as [[r | e] w1]; [exact Hc | apply Hh].
Qed.

End Answers.

Lemma answers_generate_images_validated (env : environment)
    (req : images_request) :
  answers (fun s => s = 200 \/ s = 400 \/ s = 500)
    (generate_images_validated env req).
Proof.
  unfold generate_images_validated.
  destruct (negb (truthy_str (keyword req)) || _);
    [apply answers_ret; simpl; tauto |].
  cbv zeta.
  destruct (match parseInt (count req) with
            | Some p => (p <? 1) || (p >? 10)
            | None => true
            end);
    [apply answers_ret; simpl; tauto |].
  apply answers_try_catch; [| intros e; apply answers_ret; simpl; tauto].
  apply answers_bind. intros [imagineResponse |]; [| apply answers_throw].
  apply answers_bind. intros _. apply answers_ret. simpl. tauto.
Qed.

Lemma answers_variation_then_upscale (env : environment)
    (req : upscale_request) :
  answers (fun s => s = 200 \/ s = 404 \/ s = 500)
    (variation_then_upscale env req).
Proof.
  unfold variation_then_upscale. apply answers_bind.
  intros [| originalMessage | name]; try (apply answers_ret; simpl; tauto).
  destruct (options originalMessage) as [originalOptions |];
    [| apply answers_ret; simpl; tauto].
  cbv zeta.
  destruct (find_option originalOptions _) as [variationOption |];
    [| apply answers_ret; simpl; tauto].
  apply answers_bind.
  intros [variationMessage |]; [| apply answers_ret; simpl; tauto].
  destruct (options variationMessage) as [variationOptions |];
    [| apply answers_ret; simpl; tauto].
  apply answers_bind. intros _. unfold upscale_from.
  apply answers_bind. intros results. apply answers_ret. simpl. tauto.
Qed.

(** X9.  No exception leaves a handler.  Whatever the request, the state and
    the answers of the outside, [/generate-images] answers with the status
    200, 400 or 500, and [/generate-upscale-from-variation] with the status
    200, 400, 404 or 500. *)
Theorem requests_are_answered (env : environment) (w : world) :
  (forall req, exists r w',
      generate_images env req w = (Returned r, w')
      /\ (status r = 200 \/ status r = 400 \/ status r = 500))
  /\ (forall req, exists r w',
        generate_upscale_from_variation env req w = (Returned r, w')
        /\ (status r = 200 \/ status r = 400 \/ status r = 404
            \/ status r = 500)).
Proof.
  split; intros req.
  - unfold generate_images, try_catch.
    pose proof (answers_bind (fun s => s = 200 \/ s = 400 \/ s = 500)
                  (initializeMidjourney env)
                  (fun _ => generate_images_validated env req)
                  (fun _ => answers_generate_images_validated env req) w)
      as H.
    destruct (bind (initializeMidjourney env)
                (fun _ => generate_images_validated env req) w)
      as [[r | e] w'].
    + exists r, w'. split; [reflexivity | exact H].
    + eexists _, w'. split; [reflexivity |]. simpl. tauto.
  - unfold generate_upscale_from_variation, try_catch.
    set (body := bind (initializeMidjourney env) _).
    assert (H : answers
                  (fun s => s = 200 \/ s = 400 \/ s = 404 \/ s = 500) body).
    { apply answers_bind. intros _.
      destruct (negb (truthy_str (originalMessageId req)) || _);
        [apply answers_ret; simpl; tauto |].
      intros w0.
      pose proof (answers_variation_then_upscale env req w0) as H0.
      destruct (fst (variation_then_upscale env req w0)); [tauto | exact I]. }
    specialize (H w). destruct (body w) as [[r | e] w'].
    + exists r, w'. split; [reflexivity | exact H].
    + eexists _, w'. split; [reflexivity |]. simpl. tauto.
Qed.

(* ===================================================================== *)
(** ** When the session cannot be established *)
(* ===================================================================== *)

(** X10.  When [initializeMidjourney] throws, both handlers answer 500 at once:
    [/generate-images] with the text "Internal server error" and
    [/generate-upscale-from-variation] with the message of the exception.
    The request is not looked at, the store is as it was, and nothing but
    connection attempts was asked of the outside. *)
Theorem session_failure_is_answered_500 (env : environment) (w w1 : world)
    (e : error) :
  initializeMidjourney env w = (Thrown e, w1) ->
  (forall req,
     generate_images env req w =
     (Returned (respond 500 (Failure "Internal server error" None None)), w1))
  /\ (forall req,
        generate_upscale_from_variation env req w =
        (Returned (respond 500 (Failure (message e) None None)), w1))
  /\ storage w1 = storage w
  /\ adds w w1 0 3 0.
Proof.
  intros Hinit. split; [| split; [| split]].
  - intros req. unfold generate_images, try_catch, bind. now rewrite Hinit.
  - intros req. unfold generate_upscale_from_variation, try_catch, bind.
    now rewrite Hinit.
  - pose proof (initializeMidjourney_storage env w) as H.
    now rewrite Hinit in H.
  - pose proof (costs_initializeMidjourney env w) as H.
    now rewrite Hinit in H.
Qed.

(** Witness: a process that has not connected and an outside that refuses
    the connection. *)
Lemma session_failure_is_answered_500_witness :
  generate_images refusing_env (bicycle_request (JNum 1)) (cold_world Blank)
  = (Returned (respond 500 (Failure "Internal server error" None None)),
     connected (cold_world Blank)).
Proof.
  apply (proj1 (session_failure_is_answered_500 refusing_env
                  (cold_world Blank) (connected (cold_world Blank))
                  ECONNREFUSED eq_refl)).
Defined.

(* ===================================================================== *)
(** ** GenerateImages: failure, success and the count *)
(* ===================================================================== *)

Lemma valid_images_request_checks (req : images_request) :
  valid_images_request req = true ->
  negb (truthy_str (keyword req))
  || match count req with JUndefined => true | _ => false end = false
  /\ match parseInt (count req) with
     | Some p => (p <? 1) || (p >? 10)
     | None => true
     end = false.
Proof.
  unfold valid_images_request, count_in_range. intros H.
  apply andb_true_iff in H as [Hk Hc]. rewrite Hk. simpl. split.
  - destruct (count req); simpl in Hc; try reflexivity. discriminate.
  - destruct (parseInt (count req)) as [p |]; [| discriminate].
    apply andb_true_iff in Hc as [H1 H10]. apply Z.leb_le in H1, H10.
    rewrite Z.gtb_ltb. apply orb_false_iff. split; apply Z.ltb_ge; assumption.
Qed.

(** X11.  The count is only validated.  Two requests with the same keyword and
    counts that pass the validation are handled alike: same answer, same
    calls, same store. *)
Theorem generate_images_ignores_count (env : environment)
    (req1 req2 : images_request) (w : world) :
  keyword req1 = keyword req2 ->
  valid_images_request req1 = true ->
  valid_images_request req2 = true ->
  generate_images env req1 w = generate_images env req2 w.
Proof.
  intros Hk H1 H2.
  apply valid_images_request_checks in H1 as [A1 B1].
  apply valid_images_request_checks in H2 as [A2 B2].
  unfold generate_images, try_catch, bind.
  destruct (initializeMidjourney env w) as [[[] | e] w1]; [| reflexivity].
  unfold generate_images_validated. rewrite A1, A2. cbv zeta.
  rewrite B1, B2, Hk. reflexivity.
Qed.

(** Witness: the counts 1 and 10 for the same keyword. *)
Lemma generate_images_ignores_count_witness :
  generate_images happy_env (bicycle_request (JNum 1)) fresh_world
  = generate_images happy_env (bicycle_request (JNum 10)) fresh_world.
Proof.
  apply (generate_images_ignores_count happy_env
           (bicycle_request (JNum 1)) (bicycle_request (JNum 10))
           fresh_world); reflexivity.
Defined.

(** X12.  A generation that fails stores nothing.  For a request that passes
    the validation, when [mj.Imagine] throws or answers nothing, the answer
    is 500 with the message of the failure and the storage file is as it
    was. *)
Theorem generate_images_failure_stores_nothing (env : environment)
    (req : images_request) (w w1 : world) :
  initializeMidjourney env w = (Returned tt, w1) ->
  valid_images_request req = true ->
  match mj_Imagine env (tick w1) (prompt_of req) with
  | Returned (Some _) => True
  | Returned None =>
      exists w',
        generate_images env req w =
        (Returned
           (respond 500
              (Failure "MidJourney failed to respond to the imagine request"
                 None None)), w')
        /\ storage w' = storage w1
  | Thrown e =>
      exists w',
        generate_images env req w =
        (Returned (respond 500 (Failure (message e) None None)), w')
        /\ storage w' = storage w1
  end.
Proof.
  intros Hinit Hvalid.
  apply valid_images_request_checks in Hvalid as [A B].
  unfold generate_images, try_catch, bind. rewrite Hinit.
  unfold generate_images_validated. rewrite A. cbv zeta. rewrite B.
  fold (prompt_of req). unfold try_catch, bind, Imagine_call.
  destruct (mj_Imagine env (tick w1) (prompt_of req)) as [[job |] | e];
    [exact I | |]; eexists; split; reflexivity.
Qed.

(** Witness: an outside that answers nothing to [mj.Imagine]. *)
Lemma generate_images_failure_stores_nothing_witness :
  exists w',
    generate_images quiet_env (bicycle_request (JNum 1)) (ready_world Blank) =
    (Returned
       (respond 500
          (Failure "MidJourney failed to respond to the imagine request"
             None None)), w')
    /\ storage w' = Blank.
Proof.
  apply (generate_images_failure_stores_nothing quiet_env
           (bicycle_request (JNum 1)) (ready_world Blank) (ready_world Blank)
           eq_refl eq_refl).
Defined.

(** X13.  A generation that succeeds can be looked up.  When [mj.Imagine]
    answers a job, the answer is 200 and the job is stored with the clock
    reading as its timestamp: the next [getMessage] of its id returns it,
    provided the id is already stored (in a store within its cap) or is a
    new id that is neither an array index nor [__proto__], and the clock
    does not jump by more than 24 hours between its two readings. *)
Theorem generate_images_then_getMessage (env : environment)
    (req : images_request) (w w1 : world) (job : MJMessage) :
  initializeMidjourney env w = (Returned tt, w1) ->
  valid_images_request req = true ->
  mj_Imagine env (tick w1) (prompt_of req) = Returned (Some job) ->
  NoDup (keys (stored_mapping (storage w1))) ->
  (In (id job) (keys (stored_mapping (storage w1)))
   /\ (List.length (stored_mapping (storage w1)) <= MAX_STORAGE_SIZE)%nat)
  \/ (~ In (id job) (keys (stored_mapping (storage w1)))
      /\ plain_key (id job)) ->
  Date_now env (S (S (tick w1))) - Date_now env (S (tick w1))
    <= MAX_STORAGE_AGE_MS ->
  exists r w',
    generate_images env req w = (Returned r, w')
    /\ status r = 200
    /\ fst (getMessage (id job) w') =
       Returned (Stored (with_timestamp job (Date_now env (S (tick w1))))).
Proof.
  intros Hinit Hvalid Himagine Hnd Hid Hclock.
  apply valid_images_request_checks in Hvalid as [A B].
  unfold generate_images, try_catch, bind. rewrite Hinit.
  unfold generate_images_validated. rewrite A. cbv zeta. rewrite B.
  fold (prompt_of req). unfold try_catch, bind, Imagine_call.
  rewrite Himagine. rewrite saveMessage_run. unfold ret.
  eexists _, _. split; [reflexivity |]. split; [reflexivity |].
  rewrite getMessage_run. simpl. f_equal.
  rewrite <- getMessage_file_stored.
  now apply saved_record_is_read.
Qed.

(** Witness: the first job of a fresh process. *)
Lemma generate_images_then_getMessage_witness :
  exists r w',
    generate_images happy_env (bicycle_request (JNum 1)) (ready_world Blank)
    = (Returned r, w')
    /\ status r = 200
    /\ fst (getMessage "job-1" w') =
       Returned (Stored (with_timestamp original_job 2001)).
Proof.
  apply (generate_images_then_getMessage happy_env (bicycle_request (JNum 1))
           (ready_world Blank) (ready_world Blank) original_job).
  - reflexivity.
  - reflexivity.
  - reflexivity.
  - constructor.
  - right. split; [intros [] |]. apply plain_keyb_sound. reflexivity.
  - rewrite MAX_STORAGE_AGE_MS_value. simpl. lia.
Defined.

(* ===================================================================== *)
(** ** GenerateUpscaleFromVariation: validation and the variation step *)
(* ===================================================================== *)

(** X14.  A request without an original id, without a variation number, or with
    a variation number outside 1..4 is answered 400 once the session check
    has passed; the store is not read and nothing more is asked of the
    outside. *)
Theorem upscale_request_validation (env : environment)
    (req : upscale_request) (w w1 : world) :
  initializeMidjourney env w = (Returned tt, w1) ->
  truthy_str (originalMessageId req) = false
  \/ variationNumber req = None
  \/ (exists n, variationNumber req = Some n /\ (n < 1 \/ 4 < n)) ->
  generate_upscale_from_variation env req w =
  (Returned
     (respond 400
        (Failure
           "Both originalMessageId and variationNumber (1-4) are required"
           None None)), w1).
Proof.
  intros Hinit Hbad.
  unfold generate_upscale_from_variation, try_catch, bind. rewrite Hinit.
  replace (negb (truthy_str (originalMessageId req))
           || match variationNumber req with
              | Some n => (n <? 1) || (n >? 4)
              | None => true
              end) with true; [reflexivity |].
  symmetry. apply orb_true_iff.
  destruct Hbad as [Hid | [Hnone | [n [Hn Hout]]]].
  - left. now rewrite Hid.
  - right. now rewrite Hnone.
  - right. rewrite Hn, Z.gtb_ltb. apply orb_true_iff.
    destruct Hout; [left | right]; now apply Z.ltb_lt.
Qed.

(** Witness: the variation number 5. *)
Lemma upscale_request_validation_witness :
  generate_upscale_from_variation quiet_env (variation_request "job-1" 5)
    u1_failing_world =
  (Returned
     (respond 400
        (Failure
           "Both originalMessageId and variationNumber (1-4) are required"
           None None)), u1_failing_world).
Proof.
  apply (upscale_request_validation quiet_env (variation_request "job-1" 5)
           u1_failing_world u1_failing_world eq_refl).
  right. right. exists 5. split; [reflexivity | right; lia].
Defined.

(** X15.  A variation that fails stores nothing and starts no upscale.  With the
    original job found and its option resolved, when [safeCall] throws the
    answer is 500 with the message of the exception; when it answers
    nothing, or a job without options, the answer is 500 "Failed to create
    variation".  In each case the world is the one [safeCall] left: the
    stored jobs are those found and no pacing wait has begun. *)
Theorem variation_failure_is_answered_500 (env : environment)
    (req : upscale_request) (n : Z) (w w1 : world)
    (original : MJMessage) (originalOptions : list MJOptions)
    (variationOption : MJOptions) :
  initializeMidjourney env w = (Returned tt, w1) ->
  truthy_str (originalMessageId req) = true ->
  variationNumber req = Some n ->
  1 <= n <= 4 ->
  get_own (stored_mapping (storage w1)) (text_of (originalMessageId req))
    = Some original ->
  options original = Some originalOptions ->
  find_option originalOptions ("V" ++ decimal n) = Some variationOption ->
  let looked := set_storage (snd (loadMessages (storage w1))) w1 in
  let call :=
    safeCall env {| msgId := id original; msgFlags := flags original;
                    customId := custom variationOption |} looked in
  stored_mapping (storage (snd call)) = stored_mapping (storage w1)
  /\ match fst call with
     | Thrown e =>
         generate_upscale_from_variation env req w =
         (Returned (respond 500 (Failure (message e) None None)), snd call)
     | Returned None =>
         generate_upscale_from_variation env req w =
         (Returned
            (respond 500
               (Failure "Failed to create variation"
                  (Some "No response from Midjourney") None)), snd call)
     | Returned (Some variation) =>
         options variation = None ->
         generate_upscale_from_variation env req w =
         (Returned
            (respond 500
               (Failure "Failed to create variation"
                  (Some "No options available") None)), snd call)
     end.
Proof.
  intros Hinit Hid Hn Hrange Hget Hopts Hfind looked call.
  split.
  - subst call.
    destruct (leaves_state_safeCall env
                {| msgId := id original; msgFlags := flags original;
                   customId := custom variationOption |} looked) as [Hs _].
    rewrite Hs. subst looked. simpl. now destruct (storage w1).
  - rewrite (generate_upscale_from_variation_ready env req n w w1)
      by assumption.
    unfold try_catch, variation_then_upscale, bind.
    rewrite getMessage_run, Hn. unfold get_property, number_text.
    rewrite Hget, Hopts, Hfind. fold looked. fold call.
    destruct call as [[[variation |] | e] w']; simpl; try reflexivity.
    intros Hnone. now rewrite Hnone.
Qed.

(** Witness: the variation 1 of ["job-1"] asked of an outside that answers
    nothing. *)
Lemma variation_failure_is_answered_500_witness :
  generate_upscale_from_variation quiet_env (variation_request "job-1" 1)
    u1_failing_world =
  (Returned
     (respond 500
        (Failure "Failed to create variation"
           (Some "No response from Midjourney") None)),
   called {| msgId := "job-1"; msgFlags := 0; customId := "v1" |}
     u1_failing_world).
Proof.
  destruct (variation_failure_is_answered_500 quiet_env
              (variation_request "job-1" 1) 1
              u1_failing_world u1_failing_world original_job
              [ {| label := "V1"; custom := "v1" |};
                {| label := "V2"; custom := "v2" |};
                {| label := "V3"; custom := "v3" |};
                {| label := "V4"; custom := "v4" |} ]
              {| label := "V1"; custom := "v1" |}) as [_ H];
    [reflexivity | reflexivity | reflexivity | lia
    | reflexivity | reflexivity | reflexivity |].
  exact H.
Defined.

(* ===================================================================== *)
(** ** GenerateUpscaleFromVariation: the upscale loop *)
(* ===================================================================== *)

Lemma leaves_state_pacing_delay (env : environment) (d : jsval) :
  leaves_state (pacing_delay env d).
Proof.
  unfold pacing_delay. destruct (truthy d); [apply leaves_state_ret |].
  apply leaves_state_bind; [apply leaves_state_random_call |].
  intros r. apply leaves_state_ret.
Qed.

Lemma leaves_state_upscale_step (env : environment)
    (variationMessage : MJMessage) (variationOptions : list MJOptions)
    (d : jsval) (results : list upscaled_image) (label : string) :
  leaves_state
    (upscale_step env variationMessage variationOptions d results label).
Proof.
  unfold upscale_step.
  apply leaves_state_bind; [apply leaves_state_pacing_delay | intros delayMs].
  apply leaves_state_bind; [apply leaves_state_sleep | intros _].
  destruct (find_option variationOptions label) as [upscaleOption |];
    [| apply leaves_state_ret].
  apply leaves_state_bind; [apply leaves_state_safeCall | intros upscale].
  destruct upscale as [upscale |]; [| apply leaves_state_ret].
  cbv zeta. destruct (negb (truthy_str (image_url upscale)));
    apply leaves_state_ret.
Qed.

Lemma leaves_state_upscale_loop (env : environment)
    (variationMessage : MJMessage) (variationOptions : list MJOptions)
    (d : jsval) (labels : list string) :
  forall results,
    leaves_state
      (upscale_loop env variationMessage variationOptions d labels results).
Proof.
  induction labels as [| label rest IH]; intros results; simpl upscale_loop.
  - apply leaves_state_ret.
  - apply leaves_state_bind; [apply leaves_state_upscale_step | apply IH].
Qed.

Lemma leaves_state_upscale_from (env : environment) (req : upscale_request)
    (variationLabel : string) (variationMessage : MJMessage)
    (variationOptions : list MJOptions) :
  leaves_state
    (upscale_from env req variationLabel variationMessage variationOptions).
Proof.
  unfold upscale_from.
  apply (leaves_state_bind
           (upscale_loop env variationMessage variationOptions
              (delayBetweenUpscales req) upscaleLabels [])).
  - apply leaves_state_upscale_loop.
  - intros results. apply leaves_state_ret.
Qed.

(** X16.  The upscale loop never writes the store.  However the loop ends, by
    the answer 200 or by an exception, the storage file and the session
    flag are what they were when it began: the upscaled jobs are not
    stored. *)
Theorem upscale_loop_stores_nothing (env : environment)
    (req : upscale_request) (variationLabel : string)
    (variationMessage : MJMessage) (variationOptions : list MJOptions)
    (w : world) :
  let after :=
    snd (upscale_from env req variationLabel variationMessage
           variationOptions w) in
  storage after = storage w /\ mjInitialized after = mjInitialized w.
Proof.
  apply (leaves_state_upscale_from env req variationLabel variationMessage
           variationOptions w).
Qed.

(** What one iteration records. *)
Lemma upscale_step_records (env : environment) (variationMessage : MJMessage)
    (variationOptions : list MJOptions) (d : jsval)
    (results results' : list upscaled_image) (label : string) (w w' : world) :
  upscale_step env variationMessage variationOptions d results label w
    = (Returned results', w') ->
  results' = results
  \/ exists image, recorded_for label image /\ results' = results ++ [image].
Proof.
  unfold upscale_step, bind at 1.
  destruct (pacing_delay env d w) as [[delay | e] w0]; [| discriminate].
  unfold bind at 1, sleep.
  destruct (find_option variationOptions label) as [upscaleOption |];
    [| unfold ret; intros [= <- _]; now left].
  unfold bind.
  destruct (safeCall env _ _) as [[[upscale |] | e] w1];
    [| unfold ret; intros [= <- _]; now left | discriminate].
  cbv zeta. destruct (image_url upscale) as [url |] eqn:Hurl; simpl.
  - destruct (url =? "")%string eqn:E; simpl; unfold ret; intros [= <- _];
      [now left |].
    right. eexists. split; [| reflexivity].
    unfold recorded_for. simpl. repeat split.
    now apply String.eqb_neq.
  - unfold ret. intros [= <- _]. now left.
Qed.

(** X17.  The list of upscaled images.  When the loop completes, the images
    listed are, in this order, at most one for ["U1"] and at most one for
    ["U2"]; each has a non-empty locator, and the number 1 for ["U1"] and 2
    for ["U2"]. *)
Theorem upscaled_images_shape (env : environment) (req : upscale_request)
    (variationLabel : string) (variationMessage : MJMessage)
    (variationOptions : list MJOptions) (w w' : world) (r : response) :
  upscale_from env req variationLabel variationMessage variationOptions w
    = (Returned r, w') ->
  exists upscaledImages note,
    r = respond 200
          (Completed (text_of (originalMessageId req)) variationLabel
             (id variationMessage) upscaledImages note)
    /\ (map upscaled_label upscaledImages = []
        \/ map upscaled_label upscaledImages = ["U1"]
        \/ map upscaled_label upscaledImages = ["U2"]
        \/ map upscaled_label upscaledImages = ["U1"; "U2"])
    /\ Forall (fun image =>
                 imageUrl image <> ""
                 /\ (upscaled_label image = "U1" -> upscaleNumber image = Some 1)
                 /\ (upscaled_label image = "U2" -> upscaleNumber image = Some 2))
         upscaledImages.
Proof.
  unfold upscale_from, bind, upscaleLabels. simpl upscale_loop. unfold bind.
  destruct (upscale_step env variationMessage variationOptions
              (delayBetweenUpscales req) [] "U1" w)
    as [[results1 | e] w1] eqn:H1; [| discriminate].
  destruct (upscale_step env variationMessage variationOptions
              (delayBetweenUpscales req) results1 "U2" w1)
    as [[results2 | e] w2] eqn:H2; [| discriminate].
  unfold ret. intros [= <- _].
  apply upscale_step_records in H1, H2.
  assert (Hshape : forall label image,
            (label = "U1" \/ label = "U2") -> recorded_for label image ->
            imageUrl image <> ""
            /\ (upscaled_label image = "U1" -> upscaleNumber image = Some 1)
            /\ (upscaled_label image = "U2" -> upscaleNumber image = Some 2)).
  { intros label image Hlabel [Hl [Hu Hnum]]. split; [exact Hu |].
    rewrite Hl, Hnum. destruct Hlabel as [-> | ->]; split;
      intros; (reflexivity || discriminate). }
  eexists _, _. split; [reflexivity |].
  destruct H1 as [-> | [i1 [R1 ->]]]; destruct H2 as [-> | [i2 [R2 ->]]];
    simpl.
  - split; [tauto | constructor].
  - destruct R2 as [L2 ?]. rewrite L2. split; [tauto |].
    apply Forall_cons; [| apply Forall_nil].
    apply (Hshape "U2" i2); [tauto | now split].
  - destruct R1 as [L1 ?]. rewrite L1. split; [tauto |].
    apply Forall_cons; [| apply Forall_nil].
    apply (Hshape "U1" i1); [tauto | now split].
  - destruct R1 as [L1 ?], R2 as [L2 ?]. rewrite L1, L2. split; [tauto |].
    apply Forall_cons; [| apply Forall_cons; [| apply Forall_nil]].
    + apply (Hshape "U1" i1); [tauto | now split].
    + apply (Hshape "U2" i2); [tauto | now split].
Qed.

(** Witness: both upscales complete. *)
Lemma upscaled_images_shape_witness :
  exists upscaledImages note,
    respond 200
      (Completed "job-1" "V2" "job-1v"
         [ {| upscaled_label := "U1";
              imageUrl := "https://cdn.example/job-1u.png";
              upscaleNumber := Some 1 |};
           {| upscaled_label := "U2";
              imageUrl := "https://cdn.example/job-1u.png";
              upscaleNumber := Some 2 |} ]
         "random 10-15s")
    = respond 200
        (Completed "job-1" "V2" "job-1v" upscaledImages note)
    /\ (map upscaled_label upscaledImages = []
        \/ map upscaled_label upscaledImages = ["U1"]
        \/ map upscaled_label upscaledImages = ["U2"]
        \/ map upscaled_label upscaledImages = ["U1"; "U2"])
    /\ Forall (fun image =>
                 imageUrl image <> ""
                 /\ (upscaled_label image = "U1" -> upscaleNumber image = Some 1)
                 /\ (upscaled_label image = "U2" -> upscaleNumber image = Some 2))
         upscaledImages.
Proof.
  apply (upscaled_images_shape happy_env (variation_request "job-1" 2) "V2"
           variation_job
           [ {| label := "U1"; custom := "u1" |};
             {| label := "U2"; custom := "u2" |} ]
           (ready_world Blank)
           (snd (upscale_from happy_env (variation_request "job-1" 2) "V2"
                   variation_job
                   [ {| label := "U1"; custom := "u1" |};
                     {| label := "U2"; custom := "u2" |} ]
                   (ready_world Blank)))).
  vm_compute. reflexivity.
Defined.

(* ===================================================================== *)
(** ** GenerateUpscaleFromVariation: the variation is stored *)
(* ===================================================================== *)

Lemma stored_mapping_loadMessages (file : storage_file) :
  stored_mapping (snd (loadMessages file)) = stored_mapping file.
Proof. now destruct file. Qed.

(** X18.  A variation that succeeded stays stored whatever becomes of the
    upscales.  With the original job found, when [safeCall] answers a
    variation job with options, the store at the end of the request holds
    this job under its id, stamped with the clock reading of its save;
    also when an upscale then failed and the answer is 500.  The id must be
    one the store keeps: already held by a store within its cap, or new and
    neither an array index nor [__proto__]. *)
Theorem variation_is_stored (env : environment) (req : upscale_request)
    (n : Z) (w w1 w2 : world) (original : MJMessage)
    (originalOptions : list MJOptions) (variationOption : MJOptions)
    (variation : MJMessage) (variationOptions : list MJOptions) :
  initializeMidjourney env w = (Returned tt, w1) ->
  truthy_str (originalMessageId req) = true ->
  variationNumber req = Some n ->
  1 <= n <= 4 ->
  get_own (stored_mapping (storage w1)) (text_of (originalMessageId req))
    = Some original ->
  options original = Some originalOptions ->
  find_option originalOptions ("V" ++ decimal n) = Some variationOption ->
  safeCall env {| msgId := id original; msgFlags := flags original;
                  customId := custom variationOption |}
    (set_storage (snd (loadMessages (storage w1))) w1)
    = (Returned (Some variation), w2) ->
  options variation = Some variationOptions ->
  NoDup (keys (stored_mapping (storage w1))) ->
  (In (id variation) (keys (stored_mapping (storage w1)))
   /\ (List.length (stored_mapping (storage w1)) <= MAX_STORAGE_SIZE)%nat)
  \/ (~ In (id variation) (keys (stored_mapping (storage w1)))
      /\ plain_key (id variation)) ->
  Date_now env (S (tick w2)) - Date_now env (tick w2) <= MAX_STORAGE_AGE_MS ->
  let final := snd (generate_upscale_from_variation env req w) in
  fst (getMessage (id variation) final) =
  Returned (Stored (with_timestamp variation (Date_now env (tick w2)))).
Proof.
  intros Hinit Hid Hn Hrange Hget Hopts Hfind Hcall Hvopts Hnd Hkept Hclock.
  cbv zeta.
  rewrite (generate_upscale_from_variation_ready env req n w w1)
    by assumption.
  assert (Hw2 : storage w2 = snd (loadMessages (storage w1))).
  { pose proof (leaves_state_safeCall env
                  {| msgId := id original; msgFlags := flags original;
                     customId := custom variationOption |}
                  (set_storage (snd (loadMessages (storage w1))) w1)) as H.
    rewrite Hcall in H. apply H. }
  unfold try_catch, variation_then_upscale, bind.
  rewrite (getMessage_run (text_of (originalMessageId req)) w1), Hn.
  unfold get_property at 1, number_text.
  rewrite Hget, Hopts, Hfind, Hcall, Hvopts, saveMessage_run.
  set (saved := set_storage _ (consulted (consulted w2))).
  pose proof (leaves_state_upscale_from env req ("V" ++ decimal n)
                variation variationOptions saved) as [Hstorage _].
  assert (Hread : forall final,
            storage final = storage saved ->
            fst (getMessage (id variation) final) =
            Returned
              (Stored (with_timestamp variation (Date_now env (tick w2))))).
  { intros final Hfinal. rewrite getMessage_run. cbn [fst].
    rewrite Hfinal. unfold saved, set_storage. cbn [storage]. rewrite Hw2.
    f_equal. rewrite <- getMessage_file_stored.
    apply saved_record_is_read; rewrite ?stored_mapping_loadMessages;
      assumption. }
  clearbody saved.
  destruct (upscale_from env req ("V" ++ decimal n) variation
              variationOptions saved) as [[r | e] w'];
    apply Hread; exact Hstorage.
Qed.

(** Witness: the variation 1 of ["job-1"], whose first upscale fails. *)
Lemma variation_is_stored_witness :
  fst (getMessage "job-1v"
         (snd (generate_upscale_from_variation u1_failing_env
                 (variation_request "job-1" 1) u1_failing_world)))
  = Returned (Stored (with_timestamp variation_job 2001)).
Proof.
  apply (variation_is_stored u1_failing_env (variation_request "job-1" 1) 1
           u1_failing_world u1_failing_world
           (called {| msgId := "job-1"; msgFlags := 0; customId := "v1" |}
              u1_failing_world)
           original_job
           [ {| label := "V1"; custom := "v1" |};
             {| label := "V2"; custom := "v2" |};
             {| label := "V3"; custom := "v3" |};
             {| label := "V4"; custom := "v4" |} ]
           {| label := "V1"; custom := "v1" |}
           variation_job
           [ {| label := "U1"; custom := "u1" |};
             {| label := "U2"; custom := "u2" |} ]).
  - reflexivity.
  - reflexivity.
  - reflexivity.
  - lia.
  - reflexivity.
  - reflexivity.
  - reflexivity.
  - reflexivity.
  - reflexivity.
  - simpl. constructor; [intros [] | constructor].
  - right. split; [simpl; intros [H | []]; discriminate |].
    split; [reflexivity | discriminate].
  - vm_compute. discriminate.
Defined.

(* ===================================================================== *)
(** ** GenerateUpscaleFromVariation: the time spent waiting *)
(* ===================================================================== *)

Lemma slept_total_safeCall (env : environment) (params : custom_params)
    (w : world) :
  exists added,
    trace (snd (safeCall env params w)) = trace w ++ added
    /\ 0 <= slept_total added <= 6000.
Proof.
  rewrite safeCall_unrolled.
  destruct (mj_Custom env (tick w) params);
    [exists [Custom params]; split; [reflexivity | simpl; lia] |].
  destruct (mj_Custom env (tick (called params w)) params).
  { exists [Custom params; Sleep 3000; Custom params]. simpl.
    rewrite <- !app_assoc. split; [reflexivity | lia]. }
  exists [Custom params; Sleep 3000; Custom params; Sleep 3000; Custom params].
  destruct (mj_Custom env _ params); simpl; rewrite <- !app_assoc;
    (split; [reflexivity | lia]).
Qed.

Lemma pacing_delay_bounds (env : environment) (d : jsval) (w : world) :
  (forall k, (0 <= Math_random env k < 1)%Q) ->
  exists delay w0,
    pacing_delay env d w = (Returned delay, w0)
    /\ trace w0 = trace w
    /\ 10000 <= delay <= 15000.
Proof.
  intros Hrandom. destruct (truthy d) eqn:Hd.
  - rewrite pacing_delay_truthy by assumption.
    eexists _, _. split; [reflexivity |]. split; [reflexivity |].
    apply clamped_delay_range.
  - rewrite pacing_delay_falsy by assumption.
    eexists _, _. split; [reflexivity |]. split; [reflexivity |].
    pose proof (random_delay_bounds _ (Hrandom (tick w))). lia.
Qed.

(** An iteration waits its pacing delay whatever happens next, and the
    retries of [safeCall] add at most two waits of 3000 ms. *)
Lemma slept_total_upscale_step (env : environment)
    (variationMessage : MJMessage) (variationOptions : list MJOptions)
    (d : jsval) (results : list upscaled_image) (label : string) (w : world) :
  (forall k, (0 <= Math_random env k < 1)%Q) ->
  exists added,
    trace (snd (upscale_step env variationMessage variationOptions d results
                  label w)) = trace w ++ added
    /\ 10000 <= slept_total added <= 21000.
Proof.
  intros Hrandom. unfold upscale_step, bind at 1.
  destruct (pacing_delay_bounds env d w Hrandom)
    as [delay [w0 [-> [Hw0 Hdelay]]]].
  unfold bind at 1, sleep.
  destruct (find_option variationOptions label) as [upscaleOption |].
  - unfold bind.
    destruct (slept_total_safeCall env
                {| msgId := id variationMessage;
                   msgFlags := flags variationMessage;
                   customId := custom upscaleOption |}
                (logged (Sleep delay) w0)) as [added [Htrace Hadded]].
    exists (Sleep delay :: added).
    split; [| simpl; lia].
    destruct (safeCall env _ _) as [[[upscale |] | e] w1]; simpl in *;
      try (cbv zeta; destruct (negb (truthy_str (image_url upscale))));
      simpl; rewrite Htrace, Hw0, <- app_assoc; reflexivity.
  - exists [Sleep delay]. simpl. rewrite Hw0. split; [reflexivity | lia].
Qed.

(** X19.  The time the upscale loop spends waiting.  With [Math.random] in
    [0, 1), the waits of the loop add up to at least 10 s and at most 42 s
    (two pacing delays of at most 15 s and four retry waits of 3 s); a loop
    that completes has waited at least 20 s, whatever delay the request
    asked for. *)
Theorem upscale_loop_waiting_time (env : environment) (req : upscale_request)
    (variationLabel : string) (variationMessage : MJMessage)
    (variationOptions : list MJOptions) (w : world) :
  (forall k, (0 <= Math_random env k < 1)%Q) ->
  let run :=
    upscale_from env req variationLabel variationMessage variationOptions w in
  exists added,
    trace (snd run) = trace w ++ added
    /\ 10000 <= slept_total added <= 42000
    /\ (forall r, fst run = Returned r -> 20000 <= slept_total added).
Proof.
  intros Hrandom run.
  assert (Hrun : run = upscale_from env req variationLabel variationMessage
                         variationOptions w) by reflexivity.
  clearbody run. unfold upscale_from, upscaleLabels in Hrun.
  simpl upscale_loop in Hrun. unfold bind, ret in Hrun.
  destruct (slept_total_upscale_step env variationMessage variationOptions
              (delayBetweenUpscales req) [] "U1" w Hrandom)
    as [added1 [Htrace1 Hadded1]].
  destruct (upscale_step env variationMessage variationOptions
              (delayBetweenUpscales req) [] "U1" w)
    as [[results1 | e] w1].
  - destruct (slept_total_upscale_step env variationMessage variationOptions
                (delayBetweenUpscales req) results1 "U2" w1 Hrandom)
      as [added2 [Htrace2 Hadded2]].
    exists (added1 ++ added2). rewrite slept_total_app.
    assert (Hafter : trace (snd run) = trace w ++ added1 ++ added2).
    { simpl in Htrace1. rewrite app_assoc, <- Htrace1, <- Htrace2, Hrun.
      now destruct (upscale_step env variationMessage variationOptions
                      (delayBetweenUpscales req) results1 "U2" w1)
        as [[results2 | e] w2]. }
    split; [exact Hafter |]. split; [lia |]. intros _ _. lia.
  - subst run. simpl in *. exists added1.
    split; [assumption |]. split; [lia |]. intros r. discriminate.
Qed.

(** Witness: a request for the shortest delay, 1 ms, with both upscales
    answered at once, waits 20 s. *)
Lemma upscale_loop_waiting_time_witness :
  let run :=
    upscale_from happy_env
      {| originalMessageId := Some "job-1"; variationNumber := Some 2;
         delayBetweenUpscales := JNum 1 |}
      "V2" variation_job
      [ {| label := "U1"; custom := "u1" |};
        {| label := "U2"; custom := "u2" |} ]
      (ready_world Blank) in
  exists added,
    trace (snd run) = trace (ready_world Blank) ++ added
    /\ 10000 <= slept_total added <= 42000
    /\ (forall r, fst run = Returned r -> 20000 <= slept_total added).
Proof.
  apply (upscale_loop_waiting_time happy_env
           {| originalMessageId := Some "job-1"; variationNumber := Some 2;
              delayBetweenUpscales := JNum 1 |}
           "V2" variation_job
           [ {| label := "U1"; custom := "u1" |};
             {| label := "U2"; custom := "u2" |} ]
           (ready_world Blank)).
  intros k. simpl. split; [unfold Qle | unfold Qlt]; simpl; lia.
Defined.

(* ===================================================================== *)
(** ** The handler of uncaught exceptions *)
(* ===================================================================== *)

(** X20.  Only a name-resolution failure of the Discord gateway keeps the
    process alive: every other uncaught exception ends it with code 1 and
    touches nothing.  For that failure the session is connected again even
    when it was ready: [mj.init] is called at once and at most three times
    in all, the storage file is not touched, and the session is ready
    afterwards exactly when the reconnection returned; a first answer of
    [mj.init] makes it ready with no further call. *)
Theorem uncaughtException_reconnects (env : environment) (e : error)
    (w : world) :
  let outcome := uncaughtException env e w in
  let after := snd outcome in
  (fst outcome = None \/ outcome = (Some 1, w))
  /\ (fst outcome = None <->
      code e = Some "ENOTFOUND" /\ hostname e = Some "gateway.discord.gg")
  /\ (fst outcome = None ->
      storage after = storage w
      /\ (exists later,
             trace after = trace w ++ Connect :: later
             /\ (count_events is_connect later <= 2)%nat)
      /\ (mjInitialized after = true <->
          fst (initializeMidjourney env (set_initialized false w))
            = Returned tt)
      /\ (mj_init env (tick w) = None ->
          after = set_initialized true (connected (set_initialized false w)))).
Proof.
  unfold uncaughtException.
  assert (Hiff : is_ENOTFOUND e && is_gateway e = true <->
                 code e = Some "ENOTFOUND"
                 /\ hostname e = Some "gateway.discord.gg").
  { unfold is_ENOTFOUND, is_gateway. rewrite andb_true_iff.
    destruct (code e) as [c |], (hostname e) as [h |];
      try (split; [intros [? ?]; discriminate | intros [? ?]; discriminate]).
    rewrite !String.eqb_eq.
    split; intros [H1 H2]; split; congruence. }
  destruct (is_ENOTFOUND e && is_gateway e) eqn:Hdns; cbv zeta; simpl fst;
    simpl snd.
  2: { split; [now right |]. split; [| discriminate].
       split; [discriminate |]. intros H. apply Hiff in H. discriminate. }
  split; [now left |].
  split; [split; [intros _; now apply Hiff | reflexivity] |].
  intros _. split; [now rewrite initializeMidjourney_storage |].
  unfold initializeMidjourney. simpl mjInitialized. cbv iota.
  change (Z.to_nat maxRetries) with 3%nat. cbn [connect_loop].
  change (0 <? maxRetries) with true. cbv iota.
  unfold try_catch, bind, init_call, sleep, throw, ret.
  simpl tick. simpl trace.
  destruct (mj_init env (tick w)) as [e1 |] eqn:H1.
  2: { simpl. split; [exists []; split; [reflexivity | unfold count_events; simpl; lia] |].
       split; [split; reflexivity | reflexivity]. }
  destruct (is_ENOTFOUND e1); simpl.
  2: { split; [exists []; split; [reflexivity | unfold count_events; simpl; lia] |].
       split; [split; discriminate | discriminate]. }
  destruct (mj_init env (S (tick w))) as [e2 |] eqn:H2; simpl.
  2: { split; [exists [Sleep 3000; Connect]; rewrite <- ?app_assoc;
               split; [reflexivity | unfold count_events; simpl; lia] |].
       split; [split; reflexivity | discriminate]. }
  destruct (is_ENOTFOUND e2); simpl.
  2: { split; [exists [Sleep 3000; Connect]; rewrite <- ?app_assoc;
               split; [reflexivity | unfold count_events; simpl; lia] |].
       split; [split; discriminate | discriminate]. }
  change (3 <? maxRetries) with false.
  split; [exists [Sleep 3000; Connect; Sleep 6000; Connect];
          destruct (mj_init env (S (S (tick w)))) as [e3 |];
          rewrite ?andb_false_r; simpl; rewrite <- ?app_assoc;
          (split; [reflexivity | unfold count_events; simpl; lia]) |].
  split; [| discriminate].
  destruct (mj_init env (S (S (tick w)))) as [e3 |];
    rewrite ?andb_false_r; simpl; split; (reflexivity || discriminate).
Qed.

(** Witness: a name-resolution failure of the gateway while the session is
    ready and the outside answers: one call of [mj.init], no exit. *)
Lemma uncaughtException_reconnects_witness :
  uncaughtException happy_env gateway_ENOTFOUND (ready_world Blank)
  = (None, set_initialized true
             (connected (set_initialized false (ready_world Blank)))).
Proof.
  pose proof (uncaughtException_reconnects happy_env gateway_ENOTFOUND
                (ready_world Blank)) as H.
  cbv zeta in H. destruct H as [_ [_ H]].
  destruct (H eq_refl) as [_ [_ [_ Hafter]]].
  rewrite (surjective_pairing
             (uncaughtException happy_env gateway_ENOTFOUND
                (ready_world Blank))).
  rewrite (Hafter eq_refl). reflexivity.
Defined.
